(** * MyVMK high scores: all-time merge, window aggregation, avatar lookup,
      user index

    A shallow embedding of the score engine of the repository:
    - [scripts/scraper.js]: [updateAllTimeScores] (and the tail of [main]);
    - [js/app.js]: [getCurrentMonthDates], [loadMultipleDays],
      [aggregateScores], [findAvatarForUser], the [month] case of
      [getScoresForPeriod];
    - the user index seeding script: the body of the [scores.forEach] loop
      of [seedUsersIndex].

    JavaScript numbers that hold scores and ranks are integers ([Z]);
    dates are ["YYYY-MM-DD"] strings compared as strings; a JS object used
    as a dictionary is a [gmap string _]; a JS [Map], whose insertion order
    is observable through [values()], is an association list. *)

From Stdlib Require Import ZArith String Ascii List Lia DecimalString.
From stdpp Require Import gmap strings list fin_maps sorting.

Open Scope Z_scope.

(** ** JavaScript primitives used by the three source files *)

Module Js.

(** [Array.prototype.sort(cmp)] is stable (ECMAScript 2019): with a
    comparator that is a total preorder the result is the unique stable
    arrangement, computed here by insertion from the right. [cmp x y <= 0]
    keeps [x], which came first, in front of [y]. *)
Fixpoint sortInsert {A} (cmp : A → A → Z) (x : A) (l : list A) : list A :=
  match l with
  | [] => [x]
  | y :: l' => if cmp x y <=? 0 then x :: y :: l' else y :: sortInsert cmp x l'
  end.

Definition arraySort {A} (cmp : A → A → Z) (l : list A) : list A :=
  foldr (sortInsert cmp) [] l.

(** [new Map()], [get], [set], [values()]: keys keep the position of their
    first insertion; [set] on a present key overwrites the value in place. *)
Definition JsMap (V : Type) : Type := list (string * V).

Fixpoint mapGet {V} (k : string) (m : JsMap V) : option V :=
  match m with
  | [] => None
  | (k', v) :: m' => if bool_decide (k = k') then Some v else mapGet k m'
  end.

Fixpoint mapSet {V} (k : string) (v : V) (m : JsMap V) : JsMap V :=
  match m with
  | [] => [(k, v)]
  | (k', v') :: m' =>
      if bool_decide (k = k') then (k, v) :: m' else (k', v') :: mapSet k v m'
  end.

(** [new Map(iterable of [key, value])] *)
Definition mapFrom {V} (kvs : list (string * V)) : JsMap V :=
  foldl (λ m kv, mapSet kv.1 kv.2 m) [] kvs.

Definition mapValues {V} (m : JsMap V) : list V := m.*2.

(** Truthiness of a value that is a string, [null] or [undefined]:
    only a non-empty string is truthy. *)
Definition truthy (o : option string) : bool :=
  match o with
  | Some s => negb (bool_decide (s = ""%string))
  | None => false
  end.

(** [a || b] on such values. *)
Definition orElse (a b : option string) : option string :=
  if truthy a then a else b.

End Js.

(** ** scripts/scraper.js *)

Module Scraper.
Import Js.

(** An entry pushed by [parseScores]: [{ rank, username, score }]. *)
Record ScoreEntry := mkScore {
  rank : Z;
  username : string;
  score : Z
}.

(** A column of a game section: [{ topAvatar, scores }]. *)
Record PeriodBlock := mkBlock {
  topAvatar : option string;
  scores : list ScoreEntry
}.

(** The result of [parseGameSection]. *)
Record GameData := mkGameData {
  name : string;
  today : PeriodBlock;
  yesterday : PeriodBlock;
  highscores : PeriodBlock
}.

(** An element of [allTime.games[gameId].scores]:
    [{ ...s, achievedOn }]. *)
Record AllTimeEntry := mkEntry {
  e_rank : Z;
  e_username : string;
  e_score : Z;
  achievedOn : string
}.

Record AllTimeGame := mkAllTimeGame {
  g_name : string;
  g_topAvatar : option string;
  g_scores : list AllTimeEntry
}.

Record AllTime := mkAllTime {
  lastUpdated : string;
  games : gmap string AllTimeGame
}.

(** [{ ...s, achievedOn: date }] *)
Definition stamp (date : string) (s : ScoreEntry) : AllTimeEntry :=
  {| e_rank := rank s; e_username := username s; e_score := score s;
     achievedOn := date |}.

(** The cold-start branch: the game is seeded from the source's
    highscores column. *)
Definition seedGame (date : string) (gameData : GameData) : AllTimeGame :=
  {| g_name := name gameData;
     g_topAvatar := topAvatar (highscores gameData);
     g_scores := stamp date <$> scores (highscores gameData) |}.

(** Body of each of the two [for (const newScore of ...)] loops. *)
Definition mergeScore (date : string) (existingScoreMap : JsMap AllTimeEntry)
    (newScore : ScoreEntry) : JsMap AllTimeEntry :=
  match mapGet (username newScore) existingScoreMap with
  | Some existingScore =>
      if e_score existingScore <? score newScore
      then mapSet (username newScore) (stamp date newScore) existingScoreMap
      else existingScoreMap
  | None => mapSet (username newScore) (stamp date newScore) existingScoreMap
  end.

(** [new Map(existing.scores.map(s => [s.username, s]))] followed by the
    highscores loop and then the today loop. *)
Definition mergedMap (date : string) (existing : AllTimeGame)
    (gameData : GameData) : JsMap AllTimeEntry :=
  let existingScoreMap := mapFrom ((λ s, (e_username s, s)) <$> g_scores existing) in
  let afterHighscores :=
    foldl (mergeScore date) existingScoreMap (scores (highscores gameData)) in
  foldl (mergeScore date) afterHighscores (scores (today gameData)).

(** The comparator [(a, b) => b.score - a.score]. *)
Definition byScoreDesc (a b : AllTimeEntry) : Z := e_score b - e_score a.

(** [sortedScores.forEach((s, i) => s.rank = i + 1)] *)
Definition rerank (l : list AllTimeEntry) : list AllTimeEntry :=
  imap (λ i s, {| e_rank := Z.of_nat i + 1; e_username := e_username s;
                  e_score := e_score s; achievedOn := achievedOn s |}) l.

Definition sortedScores (date : string) (existing : AllTimeGame)
    (gameData : GameData) : list AllTimeEntry :=
  rerank (take 50 (arraySort byScoreDesc (mapValues (mergedMap date existing gameData)))).

(** [sortedScores[0]?.achievedOn === date] *)
Definition topAchievedToday (date : string) (l : list AllTimeEntry) : bool :=
  match l with
  | s :: _ => bool_decide (achievedOn s = date)
  | [] => false
  end.

(** The merge branch of the loop body, for a game already on record. *)
Definition mergeGame (date : string) (existing : AllTimeGame)
    (gameData : GameData) : AllTimeGame :=
  let sorted := sortedScores date existing gameData in
  {| g_name := g_name existing;
     g_topAvatar :=
       if topAchievedToday date sorted
       then orElse (orElse (topAvatar (today gameData))
                      (topAvatar (highscores gameData)))
              (g_topAvatar existing)
       else g_topAvatar existing;
     g_scores := sorted |}.

(** One iteration of [for (const [gameId, gameData] of Object.entries(games))]. *)
Definition updateGame (date : string) (allTimeGames : gmap string AllTimeGame)
    (entry : string * GameData) : gmap string AllTimeGame :=
  match allTimeGames !! entry.1 with
  | None => <[entry.1 := seedGame date entry.2]> allTimeGames
  | Some existing => <[entry.1 := mergeGame date existing entry.2]> allTimeGames
  end.

(** The loop and [allTime.lastUpdated = date], on a record that has its
    [games] mapping. [games] is the object built by [parseAllGames];
    [Object.entries] lists each of its keys once. *)
Definition mergeAllTime (allTime : AllTime) (games : gmap string GameData)
    (date : string) : AllTime :=
  {| lastUpdated := date;
     games := foldl (updateGame date) (Scraper.games allTime) (map_to_list games) |}.

(** *** The persisted file and failures

    [JSON.parse] of [all-time.json] gives an object whose [games] property
    may be missing; [None] for the whole file stands for [fs.readFile] or
    [JSON.parse] throwing. *)
Record AllTimeJson := mkJson {
  j_lastUpdated : option string;
  j_games : option (gmap string AllTimeGame)
}.

Inductive JsError := TypeError.

Inductive Outcome (A : Type) :=
| Returned (a : A)
| Thrown (e : JsError).
Arguments Returned {A} a.
Arguments Thrown {A} e.

(** [updateAllTimeScores]: the [try]/[catch] around reading and parsing,
    the loop, and the final assignment. Reading [allTime.games[gameId]]
    when [allTime.games] is [undefined] throws a [TypeError]; that happens
    in the first iteration, so only an empty [games] argument gets past
    the loop. *)
Definition updateAllTimeScores (file : option AllTimeJson)
    (games : gmap string GameData) (date : string) : Outcome AllTimeJson :=
  let allTime :=
    match file with
    | Some parsed => parsed
    | None => {| j_lastUpdated := Some date; j_games := Some ∅ |}
    end in
  match j_games allTime with
  | Some allTimeGames =>
      Returned {| j_lastUpdated := Some date;
                  j_games := Some (foldl (updateGame date) allTimeGames
                                     (map_to_list games)) |}
  | None =>
      match map_to_list games with
      | [] => Returned {| j_lastUpdated := Some date; j_games := None |}
      | _ :: _ => Thrown TypeError
      end
  end.

(** The end of [main]: the call of [updateAllTimeScores] inside the
    [try], whose [catch] logs and calls [process.exit(1)]. *)
Inductive RunResult :=
| Completed
| Exit (code : Z).

Definition mainUpdate (file : option AllTimeJson)
    (games : gmap string GameData) (date : string) : RunResult :=
  match updateAllTimeScores file games date with
  | Returned _ => Completed
  | Thrown _ => Exit 1
  end.

End Scraper.

(** ** js/app.js *)

Module App.
Import Js.

Definition GAMES : list string :=
  ["castle-fireworks"; "pirates"; "haunted-mansion"; "jungle-cruise"]%string.

(** Entries of a daily file, and of an aggregated leaderboard. *)
Record ScoreEntry := mkScore {
  rank : Z;
  username : string;
  score : Z
}.

(** Parsed daily files: every level may be missing ([?.]). *)
Record PeriodBlock := mkBlock {
  topAvatar : option string;
  scores : option (list ScoreEntry)
}.

Record GameDay := mkGameDay {
  today : option PeriodBlock;
  yesterday : option PeriodBlock;
  highscores : option PeriodBlock
}.

Record DailyData := mkDaily {
  date : string;
  games : option (gmap string GameDay)
}.

(** The three property names used to index a game of a daily file. *)
Inductive Period := PToday | PYesterday | PHighscores.

(** [gameData[period]] *)
Definition block (gameData : GameDay) (period : Period) : option PeriodBlock :=
  match period with
  | PToday => today gameData
  | PYesterday => yesterday gameData
  | PHighscores => highscores gameData
  end.

(** [dayData.games?.[gameId]] *)
Definition gameOf (dayData : DailyData) (gameId : string) : option GameDay :=
  games dayData ≫= (λ g, g !! gameId).

(** *** findAvatarForUser *)

Definition periods (prioritizeHighscores : bool) : list Period :=
  if prioritizeHighscores
  then [PHighscores; PYesterday; PToday]
  else [PYesterday; PToday; PHighscores].

(** [gameData[period]?.scores?.[0]?.username === username] *)
Definition topIs (gameData : GameDay) (period : Period) (username : string) : bool :=
  match block gameData period ≫= scores with
  | Some (first :: _) => bool_decide (App.username first = username)
  | _ => false
  end.

(** The inner [for (const period of periods)]: [Some a] when the loop
    returns [a], [None] when it runs to its end. *)
Fixpoint findInGame (gameData : GameDay) (username : string)
    (ps : list Period) : option (option string) :=
  match ps with
  | [] => None
  | period :: ps' =>
      if topIs gameData period username
      then Some (block gameData period ≫= topAvatar)
      else findInGame gameData username ps'
  end.

Fixpoint findAvatarForUser (dailyDataArray : list DailyData) (gameId : string)
    (username : string) (prioritizeHighscores : bool) : option string :=
  match dailyDataArray with
  | [] => None
  | dayData :: rest =>
      match gameOf dayData gameId with
      | None => findAvatarForUser rest gameId username prioritizeHighscores
      | Some gameData =>
          match findInGame gameData username (periods prioritizeHighscores) with
          | Some avatar => avatar
          | None => findAvatarForUser rest gameId username prioritizeHighscores
          end
      end
  end.

(** *** aggregateScores *)

(** A value of [userBestScores]: [{ username, score, date }]. *)
Record Best := mkBest {
  b_username : string;
  b_score : Z;
  b_date : string
}.

(** [gameData[scoreType]?.scores || gameData.yesterday?.scores || []];
    an array, even an empty one, is truthy. *)
Definition sourceScores (gameData : GameDay) (scoreType : Period) : list ScoreEntry :=
  match block gameData scoreType ≫= scores with
  | Some l => l
  | None => default [] (yesterday gameData ≫= scores)
  end.

(** Body of [for (const entry of scores)]. *)
Definition bestStep (date : string) (userBestScores : JsMap Best)
    (entry : ScoreEntry) : JsMap Best :=
  let candidate := {| b_username := username entry; b_score := score entry;
                      b_date := date |} in
  match mapGet (username entry) userBestScores with
  | Some existing =>
      if b_score existing <? score entry
      then mapSet (username entry) candidate userBestScores
      else userBestScores
  | None => mapSet (username entry) candidate userBestScores
  end.

(** Body of [for (const dayData of dailyDataArray)]. *)
Definition dayStep (gameId : string) (scoreType : Period)
    (userBestScores : JsMap Best) (dayData : DailyData) : JsMap Best :=
  match gameOf dayData gameId with
  | None => userBestScores
  | Some gameData =>
      foldl (bestStep (date dayData)) userBestScores (sourceScores gameData scoreType)
  end.

Definition userBestScores (dailyDataArray : list DailyData) (scoreType : Period)
    (gameId : string) : JsMap Best :=
  foldl (dayStep gameId scoreType) [] dailyDataArray.

Definition byScoreDesc (a b : Best) : Z := b_score b - b_score a.

(** [.sort(...).slice(0, 10).map((entry, index) => ({ rank: index + 1, ... }))] *)
Definition sorted (dailyDataArray : list DailyData) (scoreType : Period)
    (gameId : string) : list ScoreEntry :=
  imap (λ index entry, {| rank := Z.of_nat index + 1;
                          username := b_username entry;
                          score := b_score entry |})
    (take 10 (arraySort byScoreDesc
                (mapValues (userBestScores dailyDataArray scoreType gameId)))).

Record Leaderboard := mkBoard {
  l_scores : list ScoreEntry;
  l_topAvatar : option string
}.

Definition aggregateGame (dailyDataArray : list DailyData) (scoreType : Period)
    (gameId : string) : Leaderboard :=
  let sorted := sorted dailyDataArray scoreType gameId in
  {| l_scores := sorted;
     l_topAvatar :=
       match sorted with
       | first :: _ =>
           if truthy (Some (username first))
           then findAvatarForUser dailyDataArray gameId (username first) false
           else None
       | [] => None
       end |}.

Definition aggregateScores (dailyDataArray : list DailyData)
    (scoreType : Period) : gmap string Leaderboard :=
  foldl (λ aggregated gameId,
           <[gameId := aggregateGame dailyDataArray scoreType gameId]> aggregated)
    ∅ GAMES.

(** *** getCurrentMonthDates, loadMultipleDays, the month query *)

(** [s.split(sep)] for a one-character separator. *)
Fixpoint split (sep : ascii) (s : string) : list string :=
  match s with
  | EmptyString => [EmptyString]
  | String c s' =>
      if Ascii.eqb c sep then EmptyString :: split sep s'
      else match split sep s' with
           | x :: xs => String c x :: xs
           | [] => [String c EmptyString]
           end
  end.

(** Conversion of a string of decimal digits to a number, as done by the
    [Date] constructor on its arguments; [None] is [NaN]. The formatted
    date has no other kind of numeric text. *)
Definition toNumber (s : string) : option Z :=
  (λ u, Z.of_nat (Nat.of_uint u)) <$> NilEmpty.uint_of_string s.

(** [String(day)] and [.padStart(2, '0')]. *)
Definition toString (day : nat) : string :=
  NilEmpty.string_of_uint (Nat.to_uint day).

Definition padStart2 (s : string) : string :=
  match String.length s with
  | O => "00"
  | S O => String "0" s
  | _ => s
  end%string.

Definition isLeapYear (y : Z) : bool :=
  ((y mod 4 =? 0) && negb (y mod 100 =? 0)) || (y mod 400 =? 0).

(** Days of the month with 0-based index [m0] of year [y]. *)
Definition daysIn (y m0 : Z) : Z :=
  if m0 =? 1 then (if isLeapYear y then 29 else 28)
  else if (m0 =? 3) || (m0 =? 5) || (m0 =? 8) || (m0 =? 10) then 30
  else 31.

(** [new Date(year, month, 0).getDate()]: day 0 of the month with index
    [month] is the last day of the month before it; a year argument in
    0..99 means 1900 + year. *)
Definition lastDayOfMonth (year month : Z) : Z :=
  let yr := if (0 <=? year) && (year <=? 99) then 1900 + year else year in
  daysIn (yr + (month - 1) / 12) ((month - 1) mod 12).

(** [pacificNow], the formatted current Pacific date, is the clock input. *)
Definition getCurrentMonthDates (pacificNow : string) : list string :=
  let parts := split "-" pacificNow in
  let year := default EmptyString (parts !! 0%nat) in
  let month := default EmptyString (parts !! 1%nat) in
  match toNumber year, toNumber month with
  | Some y, Some m =>
      let daysInMonth := lastDayOfMonth y m in
      filter (λ dateStr, String.leb dateStr pacificNow)
        ((λ day, year +:+ "-" +:+ month +:+ "-" +:+ padStart2 (toString day))
           <$> seq 1 (Z.to_nat daysInMonth))
  | _, _ => []
  end%string.

(** [loadMultipleDays]: [store] holds the daily files that exist, keyed by
    date; a missing file loads as [null] and is filtered out. The
    read-through cache returns what the store holds. *)
Definition loadMultipleDays (store : gmap string DailyData)
    (dates : list string) : list DailyData :=
  omap (λ d, store !! d) dates.

(** [case 'month'] of [getScoresForPeriod]. *)
Definition monthScores (store : gmap string DailyData) (pacificNow : string)
    : option (gmap string Leaderboard) :=
  let dates := getCurrentMonthDates pacificNow in
  let dailyData := loadMultipleDays store dates in
  if decide (length dailyData = 0%nat) then None
  else Some (aggregateScores dailyData PYesterday).

End App.

(** ** The user index seeding script ([seedUsersIndex]) *)

Module SeedUsers.
Import Js.

(** An entry of a daily file as the script reads it; [rank] may be
    missing. *)
Record ScoreEntry := mkScore {
  rank : option Z;
  username : string;
  score : Z
}.

(** [{ game, rank, date }] *)
Record Appearance := mkAppearance {
  a_game : string;
  a_rank : Z;
  a_date : string
}.

(** [{ bestScore, date, rank }] *)
Record GameStats := mkStats {
  bestScore : Z;
  s_date : option string;
  s_rank : option Z
}.

Record User := mkUser {
  avatar : option string;
  lastSeen : option string;
  lastAppearance : option Appearance;
  games : gmap string GameStats
}.

(** [entry.rank || idx + 1]: a missing rank and the number 0 are falsy. *)
Definition rankOf (entry : ScoreEntry) (idx : nat) : Z :=
  match rank entry with
  | Some r => if r =? 0 then Z.of_nat idx + 1 else r
  | None => Z.of_nat idx + 1
  end.

(** [user.lastAppearance?.rank || 999] *)
Definition storedRank (user : User) : Z :=
  match lastAppearance user with
  | Some a => if a_rank a =? 0 then 999 else a_rank a
  | None => 999
  end.

(** The [if] / [else if] that maintains [lastSeen] and [lastAppearance];
    [>] and [===] are on date strings. *)
Definition updateLastSeen (gameId : string) (rank : Z) (date : string)
    (user : User) : User :=
  let appearance := {| a_game := gameId; a_rank := rank; a_date := date |} in
  if negb (truthy (lastSeen user))
     || String.ltb (default EmptyString (lastSeen user)) date
  then {| avatar := avatar user; lastSeen := Some date;
          lastAppearance := Some appearance; games := games user |}
  else if bool_decide (Some date = lastSeen user) && (rank <? storedRank user)
  then {| avatar := avatar user; lastSeen := lastSeen user;
          lastAppearance := Some appearance; games := games user |}
  else user.

(** [if (rank === 1 && topAvatar) user.avatar = topAvatar] *)
Definition updateAvatar (rank : Z) (topAvatar : option string) (user : User) : User :=
  if (rank =? 1) && truthy topAvatar
  then {| avatar := topAvatar; lastSeen := lastSeen user;
          lastAppearance := lastAppearance user; games := games user |}
  else user.

(** Initialisation of [user.games[gameId]] and the best-score update. *)
Definition updateBest (gameId : string) (score rank : Z) (date : string)
    (user : User) : User :=
  let stats := default {| bestScore := 0; s_date := None; s_rank := None |}
                 (games user !! gameId) in
  let stats' := if bestScore stats <? score
                then {| bestScore := score; s_date := Some date; s_rank := Some rank |}
                else stats in
  {| avatar := avatar user; lastSeen := lastSeen user;
     lastAppearance := lastAppearance user;
     games := <[gameId := stats']> (games user) |}.

Definition newUser : User :=
  {| avatar := None; lastSeen := None; lastAppearance := None; games := ∅ |}.

(** The names of the properties that a plain object inherits from
    [Object.prototype]. *)
Definition PROTOTYPE_NAMES : list string :=
  ["constructor"; "__defineGetter__"; "__defineSetter__"; "hasOwnProperty";
   "__lookupGetter__"; "__lookupSetter__"; "isPrototypeOf";
   "propertyIsEnumerable"; "toString"; "valueOf"; "__proto__";
   "toLocaleString"]%string.

Definition inherited (name : string) : bool :=
  bool_decide (name ∈ PROTOTYPE_NAMES).

(** [users[username]] on the plain object [users]: a record of the index
    (an own property); or, for a name of [Object.prototype], the inherited
    value -- a function or the prototype itself, which is truthy and has
    no [games]; or [undefined]. *)
Inductive Lookup :=
| Own (user : User)
| Inherited
| Undefined.

Definition getUser (users : gmap string User) (username : string) : Lookup :=
  match users !! username with
  | Some user => Own user
  | None => if inherited username then Inherited else Undefined
  end.

(** The callback of [scores.forEach((entry, idx) => ...)]. For a username
    that finds an inherited value no record is created, the assignments
    of [avatar] and [lastSeen] go to that value, and [user.games[gameId]]
    throws a [TypeError], [user.games] being [undefined]. *)
Definition processEntry (date gameId : string) (topAvatar : option string)
    (users : gmap string User) (idx : nat) (entry : ScoreEntry)
    : Scraper.Outcome (gmap string User) :=
  let rank := rankOf entry idx in
  match getUser users (username entry) with
  | Inherited => Scraper.Thrown Scraper.TypeError
  | found =>
      let user := match found with Own user => user | _ => newUser end in
      Scraper.Returned
        (<[username entry :=
             updateBest gameId (score entry) rank date
               (updateLastSeen gameId rank date
                  (updateAvatar rank topAvatar user))]> users)
  end.

(** What the callback makes of [users] when it does not throw. *)
Definition recordEntry (date gameId : string) (topAvatar : option string)
    (users : gmap string User) (idx : nat) (entry : ScoreEntry)
    : gmap string User :=
  let rank := rankOf entry idx in
  let user := default newUser (users !! username entry) in
  <[username entry :=
      updateBest gameId (score entry) rank date
        (updateLastSeen gameId rank date (updateAvatar rank topAvatar user))]> users.

End SeedUsers.

(** ** Notions used to state the properties *)

(** Non-increasing lists of numbers. *)
Definition Desc (l : list Z) : Prop := StronglySorted (λ a b, b ≤ a) l.

(** The update rule that [mergeScore] (scraper) and [bestStep] (app) share:
    a candidate [c] is stored under its key when the key is new or the
    stored value has a strictly smaller score. [keepBest1] is the same rule
    seen from one key. *)
Definition keepBest {C V : Type} (keyOf : C → string) (mk : C → V)
    (scC : C → Z) (scV : V → Z) (m : Js.JsMap V) (c : C) : Js.JsMap V :=
  match Js.mapGet (keyOf c) m with
  | Some ex => if scV ex <? scC c then Js.mapSet (keyOf c) (mk c) m else m
  | None => Js.mapSet (keyOf c) (mk c) m
  end.

Definition keepBest1 {C V : Type} (mk : C → V) (scC : C → Z) (scV : V → Z)
    (o : option V) (c : C) : option V :=
  match o with
  | Some ex => if scV ex <? scC c then Some (mk c) else o
  | None => Some (mk c)
  end.

(** Every key of the map is the name carried by its value. *)
Definition KeyOK {V : Type} (keyV : V → string) (m : Js.JsMap V) : Prop :=
  Forall (λ kv, kv.1 = keyV kv.2) m.

(** The shape the merge gives a game's list: at most [n] entries, scores
    non-increasing along the list, ranks 1, 2, ... in order. *)
Definition TopN (n : nat) (l : list Scraper.AllTimeEntry) : Prop :=
  (length l ≤ n)%nat ∧
  (∀ i j a b, (i < j)%nat → l !! i = Some a → l !! j = Some b →
     Scraper.e_score b ≤ Scraper.e_score a) ∧
  (∀ i a, l !! i = Some a → Scraper.e_rank a = Z.of_nat i + 1).

(** [existing.scores.map(s => [s.username, s])] *)
Definition keyed (l : list Scraper.AllTimeEntry) : list (string * Scraper.AllTimeEntry) :=
  (λ s, (Scraper.e_username s, s)) <$> l.

(** At most one entry per user name, names being compared after [norm]. *)
Definition OnePerUser (norm : string → string) (l : list Scraper.AllTimeEntry) : Prop :=
  ∀ i j a b, l !! i = Some a → l !! j = Some b →
    norm (Scraper.e_username a) = norm (Scraper.e_username b) → i = j.

(** [String.prototype.toLowerCase] on ASCII letters. *)
Definition lowerAscii (c : ascii) : ascii :=
  let n := nat_of_ascii c in
  if ((65 <=? n) && (n <=? 90))%nat then ascii_of_nat (n + 32) else c.

Fixpoint toLowerCase (s : string) : string :=
  match s with
  | EmptyString => EmptyString
  | String c s' => String (lowerAscii c) (toLowerCase s')
  end.

(** ** Sample data *)

Module Sample.
Import Scraper.
Open Scope string_scope.

Definition emptyBlock : PeriodBlock := mkBlock None [].

(** A day whose today column has a player the highscores column lacks. *)
Definition piratesDay1 : GameData :=
  mkGameData "Pirates of the Caribbean"
    (mkBlock (Some "b.png") [mkScore 1 "Belle" 50])
    emptyBlock
    (mkBlock (Some "a.png") [mkScore 1 "Ariel" 100]).

Definition day1 : gmap string GameData := {[ "pirates" := piratesDay1 ]}.

(** A highscores column as [parseScores] leaves it when its second list
    item does not match ["Username - Score"]: ranks 1 and 3. *)
Definition dayGap : gmap string GameData :=
  {[ "pirates" :=
       mkGameData "Pirates of the Caribbean" emptyBlock emptyBlock
         (mkBlock (Some "a.png") [mkScore 1 "Ariel" 100; mkScore 3 "Belle" 90]) ]}.

(** The same player under another letter case. *)
Definition dayUpper : gmap string GameData :=
  {[ "pirates" :=
       mkGameData "Pirates of the Caribbean" emptyBlock emptyBlock
         (mkBlock (Some "a.png") [mkScore 1 "ARIEL" 50]) ]}.

Definition noRecord : AllTime := mkAllTime "" ∅.

Definition pirates1 : AllTimeGame :=
  mkAllTimeGame "Pirates of the Caribbean" (Some "a.png")
    [mkEntry 1 "Ariel" 100 "2025-01-01"; mkEntry 2 "Chip" 70 "2025-01-01"].

Definition record1 : AllTime := mkAllTime "2025-01-01" {[ "pirates" := pirates1 ]}.

(** A parsed file without its [games] property. *)
Definition noGames : AllTimeJson := mkJson (Some "2025-01-01") None.

End Sample.

(** ** Notions used for the dashboard queries *)

(** The avatar resolver, following the words of the specification: the
    period blocks are scanned snapshot by snapshot in the supplied order,
    within a snapshot in the priority order; the answer is the [topAvatar]
    of the first block whose first (rank-1) entry has the queried name, and
    is absent when there is none. *)
Module AvatarSpec.
Import App.



Definition rank1Is (name : string) (b : PeriodBlock) : Prop :=
  username <$> (scores b ≫= head) = Some name.

#[global] Instance rank1Is_dec name b : Decision (rank1Is name b).
Proof. unfold rank1Is. apply _. Defined.


End AvatarSpec.

(** The score observations that [aggregateScores] visits for a game, in
    visiting order, each with the date of its day. *)
Definition observations (dailyDataArray : list App.DailyData)
    (scoreType : App.Period) (gameId : string) : list (App.ScoreEntry * string) :=
  dailyDataArray ≫= λ dayData,
    match App.gameOf dayData gameId with
    | Some gameData => (λ e, (e, App.date dayData)) <$> App.sourceScores gameData scoreType
    | None => []
    end.

(** [{ username: entry.username, score: entry.score, date: dayData.date }] *)
Definition bestOf (c : App.ScoreEntry * string) : App.Best :=
  App.mkBest (App.username c.1) (App.score c.1) c.2.

Module SampleWeek.
Import App.
Open Scope string_scope.

Definition piratesDay (day : string) (ariel : Z) : DailyData :=
  mkDaily day
    (Some {[ "pirates" :=
               mkGameDay None
                 (Some (mkBlock (Some "ariel.png")
                          (Some [mkScore 1 "Ariel" ariel; mkScore 2 "Belle" 90])))
                 None ]}).

(** Three successive days on which Ariel scored 100, 250 and 180. *)
Definition threeDays : list DailyData :=
  [piratesDay "2025-03-01" 100; piratesDay "2025-03-02" 250;
   piratesDay "2025-03-03" 180].

End SampleWeek.

(** ** Notions used for the user index *)

(** What holds of every user record the seeding script builds: a stored
    [lastSeen] is a non-empty date string and a stored appearance has a
    rank other than 0 (ranks come from [entry.rank || idx + 1]). *)
Definition UserOK (user : SeedUsers.User) : Prop :=
  (∀ ls, SeedUsers.lastSeen user = Some ls → ls ≠ EmptyString)
  ∧ (∀ a, SeedUsers.lastAppearance user = Some a → SeedUsers.a_rank a ≠ 0).

(** The rank an observation is compared with: the rank of the recorded
    appearance, 999 when there is none. *)
Definition recordedRank (user : SeedUsers.User) : Z :=
  match SeedUsers.lastAppearance user with
  | Some a => SeedUsers.a_rank a
  | None => 999
  end.

(** The rank of an observation: the rank the entry carries, or, when it
    carries none (or 0), its position in the list counted from 1. *)
Definition observedRank (entry : SeedUsers.ScoreEntry) (idx : nat) : Z :=
  match SeedUsers.rank entry with
  | Some r => if decide (r = 0) then Z.of_nat idx + 1 else r
  | None => Z.of_nat idx + 1
  end.

(** [date] is strictly newer than the stored [lastSeen]; a user not seen
    before has no date to be older than. *)
Definition newerThanLastSeen (date : string) (user : SeedUsers.User) : Prop :=
  match SeedUsers.lastSeen user with
  | Some ls => String.ltb ls date = true
  | None => True
  end.

Module SampleMonth.
Import App.
Open Scope string_scope.

(** The only daily file is the one of the reference date itself. *)
Definition store : gmap string DailyData :=
  {[ "2025-03-05" := SampleWeek.piratesDay "2025-03-05" 250 ]}.

(** The days of February 2024, formatted. *)
Definition february (day : nat) : string :=
  "2024-02-" +:+ padStart2 (toString day).

End SampleMonth.

(** ** Notions used for the further properties *)

(** The date string [`${year}-${month}-${String(day).padStart(2, '0')}`]. *)
Definition monthDay (year month : string) (day : nat) : string :=
  (year +:+ "-" +:+ month +:+ "-" +:+ App.padStart2 (App.toString day))%string.

(** No character of the string is the separator ["-"]. *)
Fixpoint noDash (s : string) : Prop :=
  match s with
  | EmptyString => True
  | String c s' => c ≠ "-"%char ∧ noDash s'
  end.

(** ** The user index seeding script: the loops of [seedUsersIndex] *)

Module SeedRun.
Import Js SeedUsers.

(** A parsed daily file, as the script reads it: the [games] mapping, a
    game, a period and its [scores] may each be missing. *)
Record PeriodData := mkPeriodData {
  p_topAvatar : option string;
  p_scores : option (list ScoreEntry)
}.

Record GameData := mkGameData {
  g_yesterday : option PeriodData;
  g_today : option PeriodData;
  g_highscores : option PeriodData
}.

Record DailyFile := mkDailyFile {
  f_date : string;
  f_games : option (gmap string GameData)
}.

Definition GAME_IDS : list string :=
  ["castle-fireworks"; "pirates"; "haunted-mansion"; "jungle-cruise"]%string.

Inductive Period := Yesterday | Today | Highscores.

(** [['yesterday', 'today', 'highscores']] *)
Definition PERIODS : list Period := [Yesterday; Today; Highscores].

(** [gameData[period]] *)
Definition periodOf (gameData : GameData) (period : Period) : option PeriodData :=
  match period with
  | Yesterday => g_yesterday gameData
  | Today => g_today gameData
  | Highscores => g_highscores gameData
  end.

(** [scores.forEach((entry, idx) => ...)], from index [idx] on. *)
Fixpoint forEach {S A} (f : S → nat → A → S) (s : S) (idx : nat) (l : list A) : S :=
  match l with
  | [] => s
  | x :: l' => forEach f (f s idx x) (Datatypes.S idx) l'
  end.

(** The same with a callback that may throw: the loop ends at the first
    throw. *)
Fixpoint forEachM {S A} (f : S → nat → A → Scraper.Outcome S) (s : S) (idx : nat)
    (l : list A) : Scraper.Outcome S :=
  match l with
  | [] => Scraper.Returned s
  | x :: l' =>
      match f s idx x with
      | Scraper.Returned s' => forEachM f s' (Datatypes.S idx) l'
      | Scraper.Thrown e => Scraper.Thrown e
      end
  end.

(** [for (const x of l)] with a body that may throw. *)
Fixpoint forOf {S A} (f : S → A → Scraper.Outcome S) (s : S) (l : list A)
    : Scraper.Outcome S :=
  match l with
  | [] => Scraper.Returned s
  | x :: l' =>
      match f s x with
      | Scraper.Returned s' => forOf f s' l'
      | Scraper.Thrown e => Scraper.Thrown e
      end
  end.

(** Body of [for (const period of [...])]. *)
Definition processPeriod (date gameId : string) (gameData : GameData)
    (users : gmap string User) (period : Period)
    : Scraper.Outcome (gmap string User) :=
  match periodOf gameData period with
  | Some periodData =>
      match p_scores periodData with
      | Some scores =>
          forEachM (processEntry date gameId (p_topAvatar periodData)) users 0 scores
      | None => Scraper.Returned users
      end
  | None => Scraper.Returned users
  end.

(** Body of [for (const gameId of GAME_IDS)]. *)
Definition processGame (date : string) (games : gmap string GameData)
    (users : gmap string User) (gameId : string)
    : Scraper.Outcome (gmap string User) :=
  match games !! gameId with
  | Some gameData => forOf (processPeriod date gameId gameData) users PERIODS
  | None => Scraper.Returned users
  end.

(** Body of [for (const file of jsonFiles)], on the parsed file. *)
Definition processFile (users : gmap string User) (data : DailyFile)
    : Scraper.Outcome (gmap string User) :=
  match f_games data with
  | Some games => forOf (processGame (f_date data) games) users GAME_IDS
  | None => Scraper.Returned users
  end.

(** The first part of [seedUsersIndex]: [users] after all daily files, which
    are given in the order of the sorted file names. A throw of the
    callback ends [seedUsersIndex]: nothing is caught before
    [.catch(console.error)], and [users.json] is not written. *)
Definition seedUsers (files : list DailyFile) : Scraper.Outcome (gmap string User) :=
  forOf processFile ∅ files.

(** The second part: the all-time ranks. [allTimeScores gameId] is
    [allTime.games?.[gameId]?.scores || []], as a list of usernames. The
    script stores the rank in [users[username].games[gameId].allTimeRank];
    here the ranks are collected in a table keyed by username and game.
    For a username that finds an inherited value,
    [users[username].games[gameId]] throws. *)
Definition rankStep (users : gmap string User) (gameId : string)
    (ranks : gmap (string * string) Z) (idx : nat) (username : string)
    : Scraper.Outcome (gmap (string * string) Z) :=
  match getUser users username with
  | Own user =>
      Scraper.Returned
        (match SeedUsers.games user !! gameId with
         | Some _ => <[(username, gameId) := Z.of_nat idx + 1]> ranks
         | None => ranks
         end)
  | Inherited => Scraper.Thrown Scraper.TypeError
  | Undefined => Scraper.Returned ranks
  end.

(** A [forEach] inside a [try]: what has been done when the callback
    throws stays done; the flag tells whether it threw. *)
Fixpoint forEachTry {S A} (f : S → nat → A → Scraper.Outcome S) (s : S) (idx : nat)
    (l : list A) : S * bool :=
  match l with
  | [] => (s, false)
  | x :: l' =>
      match f s idx x with
      | Scraper.Returned s' => forEachTry f s' (Datatypes.S idx) l'
      | Scraper.Thrown _ => (s, true)
      end
  end.

(** The loop over the games inside the [try]: the [catch] ends it at the
    first throw, with a warning. *)
Fixpoint rankGames (users : gmap string User) (allTimeScores : string → list string)
    (ranks : gmap (string * string) Z) (gameIds : list string)
    : gmap (string * string) Z :=
  match gameIds with
  | [] => ranks
  | gameId :: rest =>
      match forEachTry (rankStep users gameId) ranks 0 (allTimeScores gameId) with
      | (ranks', true) => ranks'
      | (ranks', false) => rankGames users allTimeScores ranks' rest
      end
  end.

Definition allTimeRanks (users : gmap string User)
    (allTimeScores : string → list string) : gmap (string * string) Z :=
  rankGames users allTimeScores ∅ GAME_IDS.

(** *** The loops when no callback throws *)

(** Body of [for (const period of [...])]. *)
Definition recordPeriod (date gameId : string) (gameData : GameData)
    (users : gmap string User) (period : Period) : gmap string User :=
  match periodOf gameData period with
  | Some periodData =>
      match p_scores periodData with
      | Some scores =>
          forEach (recordEntry date gameId (p_topAvatar periodData)) users 0 scores
      | None => users
      end
  | None => users
  end.

(** Body of [for (const gameId of GAME_IDS)]. *)
Definition recordGame (date : string) (games : gmap string GameData)
    (users : gmap string User) (gameId : string) : gmap string User :=
  match games !! gameId with
  | Some gameData => foldl (recordPeriod date gameId gameData) users PERIODS
  | None => users
  end.

(** Body of [for (const file of jsonFiles)], on the parsed file. *)
Definition recordFile (users : gmap string User) (data : DailyFile)
    : gmap string User :=
  match f_games data with
  | Some games => foldl (recordGame (f_date data) games) users GAME_IDS
  | None => users
  end.

(** [users] after all daily files. *)
Definition recordAll (files : list DailyFile) : gmap string User :=
  foldl recordFile ∅ files.

(** The ranks. *)
Definition recordRank (users : gmap string User) (gameId : string)
    (ranks : gmap (string * string) Z) (idx : nat) (username : string)
    : gmap (string * string) Z :=
  match users !! username with
  | Some user =>
      match SeedUsers.games user !! gameId with
      | Some _ => <[(username, gameId) := Z.of_nat idx + 1]> ranks
      | None => ranks
      end
  | None => ranks
  end.

Definition recordRanks (users : gmap string User)
    (allTimeScores : string → list string) : gmap (string * string) Z :=
  foldl (λ ranks gameId,
           forEach (recordRank users gameId) ranks 0 (allTimeScores gameId))
    ∅ GAME_IDS.

(** One visit of the [forEach] callback: the arguments it runs with. *)
Record Visit := mkVisit {
  v_date : string;
  v_game : string;
  v_topAvatar : option string;
  v_idx : nat;
  v_entry : ScoreEntry
}.

Definition v_user (v : Visit) : string := username (v_entry v).
Definition v_rank (v : Visit) : Z := observedRank (v_entry v) (v_idx v).
Definition v_score (v : Visit) : Z := score (v_entry v).

Definition visit (users : gmap string User) (v : Visit) : gmap string User :=
  recordEntry (v_date v) (v_game v) (v_topAvatar v) users (v_idx v) (v_entry v).

(** The callback, run with the arguments of the visit. *)
Definition visitM (users : gmap string User) (v : Visit)
    : Scraper.Outcome (gmap string User) :=
  processEntry (v_date v) (v_game v) (v_topAvatar v) users (v_idx v) (v_entry v).

(** The visits of a run, in the order of the loops. *)
Definition periodVisits (date gameId : string) (gameData : GameData)
    (period : Period) : list Visit :=
  match periodOf gameData period with
  | Some periodData =>
      imap (mkVisit date gameId (p_topAvatar periodData))
        (default [] (p_scores periodData))
  | None => []
  end.

Definition gameVisits (date : string) (games : gmap string GameData)
    (gameId : string) : list Visit :=
  match games !! gameId with
  | Some gameData => PERIODS ≫= periodVisits date gameId gameData
  | None => []
  end.

Definition fileVisits (data : DailyFile) : list Visit :=
  match f_games data with
  | Some games => GAME_IDS ≫= gameVisits (f_date data) games
  | None => []
  end.

Definition visits (files : list DailyFile) : list Visit := files ≫= fileVisits.

(** What one visit does to the record of its user. *)
Definition visitUser (user : option User) (v : Visit) : option User :=
  Some (updateBest (v_game v) (v_score v) (v_rank v) (v_date v)
          (updateLastSeen (v_game v) (v_rank v) (v_date v)
             (updateAvatar (v_rank v) (v_topAvatar v) (default newUser user)))).

End SeedRun.

Module SampleSeed.
Import SeedUsers SeedRun.
Open Scope string_scope.

Definition fileOf (day : string) (rankAriel : Z) (scoreAriel : Z) : DailyFile :=
  mkDailyFile day
    (Some {[ "pirates" :=
               mkGameData
                 (Some (mkPeriodData (Some "top.png")
                          (Some [mkScore (Some 1) "Belle" 300;
                                 mkScore (Some rankAriel) "Ariel" scoreAriel])))
                 None
                 (Some (mkPeriodData None (Some [mkScore None "Ariel" 120]))) ]}).

Definition twoFiles : list DailyFile :=
  [fileOf "2025-03-01" 2 250; fileOf "2025-03-02" 4 180].

End SampleSeed.

(** What a run has established for a user after the visits [vs] of that
    user: the last-seen date is the latest date visited, and the last
    appearance is a visit of that date with the lowest rank of the date. *)
Definition SeenInv (vs : list SeedRun.Visit) (user : SeedUsers.User) : Prop :=
  UserOK user
  ∧ ∃ d a, SeedUsers.lastSeen user = Some d
      ∧ SeedUsers.lastAppearance user = Some a
      ∧ SeedUsers.a_date a = d
      ∧ (∃ v, v ∈ vs ∧ SeedRun.v_date v = d
              ∧ SeedRun.v_game v = SeedUsers.a_game a
              ∧ SeedRun.v_rank v = SeedUsers.a_rank a)
      ∧ (∀ v, v ∈ vs → String.ltb d (SeedRun.v_date v) = false)
      ∧ (∀ v, v ∈ vs → SeedRun.v_date v = d →
              SeedUsers.a_rank a ≤ SeedRun.v_rank v).

(** What a run has established for a user and a game: statistics exist
    exactly when the game was visited; the best score bounds every visited
    score and is 0 with no date and rank, or positive and taken, with date
    and rank, from a visit. *)
Definition BestInv (vs : list SeedRun.Visit) (user : SeedUsers.User)
    (gameId : string) : Prop :=
  match SeedUsers.games user !! gameId with
  | None => ∀ v, v ∈ vs → SeedRun.v_game v ≠ gameId
  | Some st =>
      (∃ v, v ∈ vs ∧ SeedRun.v_game v = gameId)
      ∧ (∀ v, v ∈ vs → SeedRun.v_game v = gameId →
              SeedRun.v_score v ≤ SeedUsers.bestScore st)
      ∧ ((SeedUsers.bestScore st = 0 ∧ SeedUsers.s_date st = None
          ∧ SeedUsers.s_rank st = None)
         ∨ (0 < SeedUsers.bestScore st
            ∧ ∃ v, v ∈ vs ∧ SeedRun.v_game v = gameId
                ∧ SeedRun.v_score v = SeedUsers.bestScore st
                ∧ SeedUsers.s_date st = Some (SeedRun.v_date v)
                ∧ SeedUsers.s_rank st = Some (SeedRun.v_rank v)))
  end.

(** The user is in the index and has statistics for the game:
    [users[username] && users[username].games[gameId]]. *)
Definition tracked (users : gmap string SeedUsers.User) (name gameId : string)
    : Prop :=
  is_Some (users !! name ≫= λ user, SeedUsers.games user !! gameId).

(** ** js/app.js: the other periods of [getScoresForPeriod], and the cache *)

Module Query.
Import Js App.

(** The loop [for (const gameId of GAMES) result[gameId] = { scores:
    gameData?.[period]?.scores || [], topAvatar: gameData?.[period]?.topAvatar }]
    of the cases ['today'] and ['yesterday']. *)
Definition periodBoard (data : DailyData) (period : Period) (gameId : string)
    : Leaderboard :=
  let periodData := gameOf data gameId ≫= λ gameData, block gameData period in
  {| l_scores := default [] (periodData ≫= scores);
     l_topAvatar := periodData ≫= topAvatar |}.

Definition periodBoards (data : DailyData) (period : Period)
    : gmap string Leaderboard :=
  foldl (λ result gameId, <[gameId := periodBoard data period gameId]> result)
    ∅ GAMES.

(** [case 'today']: [todayDate] and [yesterdayDate] are what
    [getPacificDate()] and [getYesterdayPacific()] return; [store] holds the
    daily files that exist. *)
Definition todayScores (store : gmap string DailyData)
    (todayDate yesterdayDate : string) : option (gmap string Leaderboard) :=
  let data :=
    match store !! todayDate with
    | Some data => Some data
    | None => store !! yesterdayDate
    end in
  match data with
  | Some data => Some (periodBoards data PToday)
  | None => None
  end.

(** [case 'yesterday'] *)
Definition yesterdayScores (store : gmap string DailyData)
    (todayDate yesterdayDate : string) : option (gmap string Leaderboard) :=
  match store !! yesterdayDate with
  | Some data => Some (periodBoards data PYesterday)
  | None =>
      match store !! todayDate with
      | Some todayData => Some (periodBoards todayData PYesterday)
      | None => None
      end
  end.

(** [case 'week']: [dates] is what [getLastNDays(7)] returns. *)
Definition weekScores (store : gmap string DailyData) (dates : list string)
    : option (gmap string Leaderboard) :=
  let dailyData := loadMultipleDays store dates in
  if decide (length dailyData = 0%nat) then None
  else Some (aggregateScores dailyData PYesterday).

(** [case 'alltime']: [allTimeData] is the parsed [all-time.json] (the file
    the scraper writes), [None] when it could not be fetched; [dates] is
    what [getLastNDays(30)] returns. *)
Record AllTimeBoard := mkAllTimeBoard {
  ab_scores : list Scraper.AllTimeEntry;
  ab_topAvatar : option string
}.

Definition alltimeBoard (allTimeData : Scraper.AllTimeJson)
    (dailyData : list DailyData) (gameId : string) : AllTimeBoard :=
  let gameData := Scraper.j_games allTimeData ≫= λ games, games !! gameId in
  let scores := default [] ((λ g, take 10 (Scraper.g_scores g)) <$> gameData) in
  {| ab_scores := scores;
     ab_topAvatar :=
       match scores with
       | topPlayer :: _ =>
           if decide (0 < length dailyData)%nat
           then findAvatarForUser dailyData gameId (Scraper.e_username topPlayer) true
           else gameData ≫= Scraper.g_topAvatar
       | [] => gameData ≫= Scraper.g_topAvatar
       end |}.

Definition alltimeScores (allTimeData : option Scraper.AllTimeJson)
    (store : gmap string DailyData) (dates : list string)
    : option (gmap string AllTimeBoard) :=
  match allTimeData with
  | None => None
  | Some allTime =>
      let dailyData := loadMultipleDays store dates in
      Some (foldl (λ result gameId,
                     <[gameId := alltimeBoard allTime dailyData gameId]> result)
              ∅ GAMES)
  end.

(** [loadDailyData] with its cache ([dailyDataCache]): the loaded data and
    the cache afterwards. A file that does not exist is not cached. *)
Definition loadDailyData (store cache : gmap string DailyData) (date : string)
    : option DailyData * gmap string DailyData :=
  match cache !! date with
  | Some data => (Some data, cache)
  | None =>
      match store !! date with
      | Some data => (Some data, <[date := data]> cache)
      | None => (None, cache)
      end
  end.

(** [loadMultipleDays] with the cache. [dates.map(loadDailyData)] starts
    every load before any fetch has returned, so each load tests the cache
    as it was at the call; the fetched files are cached as they arrive. *)
Definition loadMultipleDaysCached (store cache : gmap string DailyData)
    (dates : list string) : list DailyData * gmap string DailyData :=
  (omap (λ date, (loadDailyData store cache date).1) dates,
   foldl (λ c date,
            match cache !! date, store !! date with
            | None, Some data => <[date := data]> c
            | _, _ => c
            end) cache dates).

End Query.

(** ** scripts/scraper.js: reading the page

    Text is a list of characters, each a code unit below 256; in that
    range the character classes of the two regular expressions, [trim] and
    the comparison of a lower-cased title with an ASCII word are as
    below. *)

Module Parse.

(** [\s], and what [trim] removes: white space and line terminators. *)
Definition isWhiteSpace (c : ascii) : bool :=
  let n := N_of_ascii c in
  ((9 <=? n) && (n <=? 13) || (n =? 32) || (n =? 160))%N.

(** What [.] does not match. *)
Definition isLineTerminator (c : ascii) : bool :=
  let n := N_of_ascii c in
  ((n =? 10) || (n =? 13))%N.

(** [\d] *)
Definition isDigit (c : ascii) : bool :=
  let n := N_of_ascii c in
  ((48 <=? n) && (n <=? 57))%N.

(** [[a-f0-9]] under the flag [i]. *)
Definition isHexDigit (c : ascii) : bool :=
  let n := N_of_ascii c in
  isDigit c || ((97 <=? n) && (n <=? 102))%N || ((65 <=? n) && (n <=? 70))%N.

Fixpoint takeWhile (p : ascii → bool) (s : list ascii) : list ascii :=
  match s with
  | [] => []
  | c :: s' => if p c then c :: takeWhile p s' else []
  end.

Fixpoint dropWhile (p : ascii → bool) (s : list ascii) : list ascii :=
  match s with
  | [] => []
  | c :: s' => if p c then dropWhile p s' else s
  end.

(** [s.trim()] *)
Definition trimStart (s : list ascii) : list ascii := dropWhile isWhiteSpace s.
Definition trimEnd (s : list ascii) : list ascii :=
  rev (dropWhile isWhiteSpace (rev s)).
Definition trim (s : list ascii) : list ascii := trimEnd (trimStart s).

(** The number that a run of decimal digits spells. *)
Definition decimal (s : list ascii) : Z :=
  foldl (λ acc c, 10 * acc + (Z.of_N (N_of_ascii c) - 48)) 0 s.

(** The double nearest to a natural number [v]: [v] itself when it has at
    most 53 bits; otherwise the 53 leading bits [q], rounded up when the
    remainder [r] is more than half a unit of the last place, or exactly
    half with [q] odd (ties go to the even significand). *)
Definition toDouble (v : Z) : Z :=
  let e := Z.log2 v + 1 - 53 in
  if e <=? 0 then v
  else
    let q := Z.shiftr v e in
    let r := v - Z.shiftl q e in
    let half := Z.shiftl 1 (e - 1) in
    let q' := if (half <? r) || ((r =? half) && Z.odd q) then q + 1 else q in
    Z.shiftl q' e.

(** [parseInt(s, 10)] on a run of decimal digits: the result is a double,
    so a run that spells more than 2^53 is rounded. A run that spells more
    than the largest finite double (it has at least 309 digits) reads as
    [Infinity], which is no integer: the scores of the model are the
    finite ones, and what is stated of a score read from the page is
    stated for items of at most 308 characters. *)
Definition parseInt (s : list ascii) : Z := toDouble (decimal s).

(** *** parseScores *)

(** The end of the pattern, [\s*-\s*(\d+)$], matched at the start of [s];
    the result is the second group. The characters that [\s*] can take are
    neither the dash nor digits, so what it gives back changes nothing. *)
Definition matchScoreTail (s : list ascii) : option (list ascii) :=
  match dropWhile isWhiteSpace s with
  | c :: s2 =>
      if Ascii.eqb c "-" then
        let digits := dropWhile isWhiteSpace s2 in
        if forallb isDigit digits && negb (bool_decide (digits = []))
        then Some digits else None
      else None
  | [] => None
  end.

(** [text.match(/^(.+?)\s*-\s*(\d+)$/)]: the lazy first group takes one
    character and then one more each time the rest of the pattern does not
    match; [taken] is what it has taken so far. The result is the two
    groups. *)
Fixpoint matchScore (taken rest : list ascii) : option (list ascii * list ascii) :=
  match rest with
  | [] => None
  | c :: rest' =>
      if isLineTerminator c then None
      else match matchScoreTail rest' with
           | Some digits => Some (taken ++ [c], digits)
           | None => matchScore (taken ++ [c]) rest'
           end
  end.

(** The callback of [ul.find('li').each]; [li] is the text of the item. *)
Definition parseItem (index : nat) (li : list ascii) : option Scraper.ScoreEntry :=
  match matchScore [] (trim li) with
  | Some (group1, group2) =>
      Some {| Scraper.rank := Z.of_nat index + 1;
              Scraper.username := string_of_list_ascii (trim group1);
              Scraper.score := parseInt group2 |}
  | None => None
  end.

(** [ul] is the list of the texts of the items found. *)
Definition parseScores (ul : list (list ascii)) : list Scraper.ScoreEntry :=
  omap id (imap parseItem ul).

(** *** extractAvatarFilename *)

(** [[a-f0-9]+\.png$] under the flag [i], matched at the start of [s]. The
    characters that [[a-f0-9]+] can take are not the dot. *)
Definition matchAvatarAt (s : list ascii) : bool :=
  negb (bool_decide (takeWhile isHexDigit s = []))
  && bool_decide (lowerAscii <$> dropWhile isHexDigit s
                  = list_ascii_of_string ".png").

(** [url.match(/([a-f0-9]+\.png)$/i)]: the first position, from the left,
    at which the pattern matches. *)
Fixpoint matchAvatar (s : list ascii) : option (list ascii) :=
  if matchAvatarAt s then Some s
  else match s with
       | [] => None
       | _ :: s' => matchAvatar s'
       end.

Definition extractAvatarFilename (url : option (list ascii)) : option (list ascii) :=
  match url with
  | Some (c :: u) => matchAvatar (c :: u)
  | _ => None
  end.

(** *** parseGameSection, parseAllGames *)

(** What the code reads of a [.col-md-4] column: the text of its title,
    the [src] of its image and the texts of its list items. *)
Record Column := mkColumn {
  c_title : list ascii;
  c_src : option (list ascii);
  c_items : list (list ascii)
}.

(** [{ topAvatar, topAvatarUrl, scores }] *)
Record Block := mkBlock {
  topAvatar : option string;
  topAvatarUrl : option (list ascii);
  scores : list Scraper.ScoreEntry
}.

Record Game := mkGame {
  name : string;
  today : Block;
  yesterday : Block;
  highscores : Block
}.

(** [{ id, name }] of the game configuration. *)
Definition GAMES : list (string * string) :=
  [("castle-fireworks", "Castle Fireworks Remixed");
   ("pirates", "Pirates of the Caribbean");
   ("haunted-mansion", "Haunted Mansion");
   ("jungle-cruise", "Jungle Cruise")]%string.

Definition emptyBlock : Block :=
  {| topAvatar := None; topAvatarUrl := None; scores := [] |}.

(** The callback of [columns.each]. *)
Definition parseColumn (result : Game) (col : Column) : Game :=
  let title := lowerAscii <$> trim (c_title col) in
  let avatarUrl :=
    match c_src col with
    | Some (c :: u) => Some (c :: u)
    | _ => None
    end in
  let block :=
    {| topAvatar := string_of_list_ascii <$> extractAvatarFilename avatarUrl;
       topAvatarUrl := avatarUrl;
       scores := parseScores (c_items col) |} in
  if decide (title = list_ascii_of_string "today") then
    {| name := name result; today := block;
       yesterday := yesterday result; highscores := highscores result |}
  else if decide (title = list_ascii_of_string "yesterday") then
    {| name := name result; today := today result;
       yesterday := block; highscores := highscores result |}
  else if decide (title = list_ascii_of_string "highscores") then
    {| name := name result; today := today result;
       yesterday := yesterday result; highscores := block |}
  else result.

Definition parseGameSection (columns : list Column) (gameConfig : string * string)
    : Game :=
  foldl parseColumn
    {| name := gameConfig.2; today := emptyBlock;
       yesterday := emptyBlock; highscores := emptyBlock |}
    columns.

(** [html] is the list of the [.highscores] sections of the page, each the
    list of its columns. *)
Definition parseAllGames (html : list (list Column)) : gmap string Game :=
  SeedRun.forEach
    (λ games index div,
       match GAMES !! index with
       | Some gameConfig => <[gameConfig.1 := parseGameSection div gameConfig]> games
       | None => games
       end)
    ∅ 0%nat html.

End Parse.

(** ** scripts/scraper.js: a run of [main] on the files

    The state is what the run reads and writes: the daily snapshots by
    date, [all-time.json] as it parses ([None] when reading or parsing
    it throws) and the names of the files of the avatars directory.
    A file is held as the value it parses to, so what a run writes is
    what the next run reads. Writing a file is taken to succeed;
    [scrapedAt], the time of the run, is left out of the snapshot. *)

Module Run.
Import Js.

Record Snapshot := mkSnapshot {
  s_date : string;
  s_games : gmap string Scraper.GameData
}.

Record Files := mkFiles {
  daily : gmap string Snapshot;
  allTimeFile : option Scraper.AllTimeJson;
  avatars : gset string
}.

(** What [saveDailySnapshot] keeps of a block, and what
    [updateAllTimeScores] reads of it. *)
Definition strip (b : Parse.Block) : Scraper.PeriodBlock :=
  {| Scraper.topAvatar := Parse.topAvatar b; Scraper.scores := Parse.scores b |}.

Definition gameData (g : Parse.Game) : Scraper.GameData :=
  {| Scraper.name := Parse.name g;
     Scraper.today := strip (Parse.today g);
     Scraper.yesterday := strip (Parse.yesterday g);
     Scraper.highscores := strip (Parse.highscores g) |}.

Definition saveDailySnapshot (games : gmap string Parse.Game) (date : string)
    (fs : Files) : Files :=
  {| daily := <[date := {| s_date := date; s_games := gameData <$> games |}]> (daily fs);
     allTimeFile := allTimeFile fs;
     avatars := avatars fs |}.

(** [downloadAvatar]: [fetchOk url] tells whether the download of [url]
    succeeds in this run. *)
Definition downloadAvatar (fetchOk : list ascii → bool) (dir : gset string)
    (url : list ascii) (filename : string) : gset string :=
  if decide (filename ∈ dir) then dir
  else if fetchOk url then {[filename]} ∪ dir
  else dir.

(** [if (url) avatarUrls.add(url)] *)
Definition addUrl (avatarUrls : list (list ascii)) (url : option (list ascii))
    : list (list ascii) :=
  match url with
  | Some (c :: u) =>
      if decide (c :: u ∈ avatarUrls) then avatarUrls else avatarUrls ++ [c :: u]
  | _ => avatarUrls
  end.

Definition avatarUrls (games : gmap string Parse.Game) : list (list ascii) :=
  foldl (λ urls g,
           addUrl (addUrl (addUrl urls (Parse.topAvatarUrl (Parse.today g)))
                     (Parse.topAvatarUrl (Parse.yesterday g)))
             (Parse.topAvatarUrl (Parse.highscores g)))
    [] (map_to_list games).*2.

Definition downloadAllAvatars (fetchOk : list ascii → bool)
    (games : gmap string Parse.Game) (dir : gset string) : gset string :=
  foldl (λ dir url,
           match Parse.extractAvatarFilename (Some url) with
           | Some (c :: f) => downloadAvatar fetchOk dir url (string_of_list_ascii (c :: f))
           | _ => dir
           end)
    dir (avatarUrls games).

(** [main]: [page] is [None] when fetching the page throws; the [catch]
    ends the run with [process.exit(1)]. *)
Definition main (page : option (list (list Parse.Column)))
    (fetchOk : list ascii → bool) (pacificDate : string) (fs : Files)
    : Scraper.RunResult * Files :=
  match page with
  | None => (Scraper.Exit 1, fs)
  | Some html =>
      let games := Parse.parseAllGames html in
      let fs1 :=
        {| daily := daily fs; allTimeFile := allTimeFile fs;
           avatars := downloadAllAvatars fetchOk games (avatars fs) |} in
      let fs2 := saveDailySnapshot games pacificDate fs1 in
      match Scraper.updateAllTimeScores (allTimeFile fs2) (gameData <$> games)
              pacificDate with
      | Scraper.Returned allTime =>
          (Scraper.Completed,
           {| daily := daily fs2; allTimeFile := Some allTime;
              avatars := avatars fs2 |})
      | Scraper.Thrown _ => (Scraper.Exit 1, fs2)
      end
  end.

End Run.

(** The title of the column is [word], once trimmed and lower-cased. *)
Definition titled (word : string) (col : Parse.Column) : bool :=
  bool_decide (lowerAscii <$> Parse.trim (Parse.c_title col)
               = list_ascii_of_string word).

(** The block [parseGameSection] reads from a column. *)
Definition columnBlock (col : Parse.Column) : Parse.Block :=
  let avatarUrl :=
    match Parse.c_src col with
    | Some (c :: u) => Some (c :: u)
    | _ => None
    end in
  {| Parse.topAvatar :=
       string_of_list_ascii <$> Parse.extractAvatarFilename avatarUrl;
     Parse.topAvatarUrl := avatarUrl;
     Parse.scores := Parse.parseScores (Parse.c_items col) |}.

(** The block of the last column with the title, the empty block when
    there is none. *)
Definition lastTitled (word : string) (columns : list Parse.Column) : Parse.Block :=
  default Parse.emptyBlock (columnBlock <$> last (filter (λ col, titled word col = true) columns)).

(** A stored list that names a player twice, as a cold start leaves it when
    the source column does; and two days, one with a lower score for that
    player, one that does not name the player. *)
Module SampleRepeated.
Import Scraper.
Open Scope string_scope.

Definition pirates : AllTimeGame :=
  mkAllTimeGame "Pirates of the Caribbean" (Some "a.png")
    [mkEntry 1 "Ariel" 100 "2025-01-01"; mkEntry 2 "Ariel" 90 "2025-01-01";
     mkEntry 3 "Belle" 80 "2025-01-01"].

Definition record : AllTime := mkAllTime "2025-01-01" {[ "pirates" := pirates ]}.

Definition dayAriel95 : gmap string GameData :=
  {[ "pirates" :=
       mkGameData "Pirates of the Caribbean"
         (mkBlock None [mkScore 1 "Ariel" 95]) Sample.emptyBlock Sample.emptyBlock ]}.

Definition dayChip : gmap string GameData :=
  {[ "pirates" :=
       mkGameData "Pirates of the Caribbean"
         (mkBlock None [mkScore 1 "Chip" 60]) Sample.emptyBlock Sample.emptyBlock ]}.

(** A day on which the highscores and the today column both name a
    player on record. *)
Definition dayTwice : gmap string GameData :=
  {[ "pirates" :=
       mkGameData "Pirates of the Caribbean"
         (mkBlock None [mkScore 1 "Ariel" 150]) Sample.emptyBlock
         (mkBlock (Some "a.png") [mkScore 1 "Ariel" 200]) ]}.

End SampleRepeated.

(** ** The aggregation, in the words of the specification *)

Module AggSpec.
Import App.

(** The scores that a day contributes for a game: those of the requested
    block; when the day has no such block, or the block no scores, those of
    the day's own yesterday block; none when that is missing too, or when
    the day lacks the game. *)
Definition selected (scoreType : Period) (gameId : string) (dayData : DailyData)
    : list ScoreEntry :=
  match games dayData with
  | None => []
  | Some games =>
      match games !! gameId with
      | None => []
      | Some gameData =>
          let requested :=
            match scoreType with
            | PToday => today gameData
            | PYesterday => yesterday gameData
            | PHighscores => highscores gameData
            end in
          match requested with
          | Some (mkBlock _ (Some l)) => l
          | _ =>
              match yesterday gameData with
              | Some (mkBlock _ (Some l)) => l
              | _ => []
              end
          end
      end
  end.

(** The observations of a game: every selected score with the date of its
    day, the days in the order supplied. *)
Definition observed (scoreType : Period) (gameId : string) (days : list DailyData)
    : list (ScoreEntry * string) :=
  days ≫= λ dayData, (λ e, (e, date dayData)) <$> selected scoreType gameId dayData.

(** [s], on day [d], is the best of [name]: among the observations of
    [name], the first one that has the greatest score has score [s] and
    date [d]. *)
Definition IsBest (obs : list (ScoreEntry * string)) (name : string) (s : Z)
    (d : string) : Prop :=
  ∃ pre c post,
    filter (λ c, username c.1 = name) obs = pre ++ c :: post
    ∧ score c.1 = s ∧ c.2 = d
    ∧ (∀ x, x ∈ pre → score x.1 < s)
    ∧ (∀ x, x ∈ post → score x.1 ≤ s).

End AggSpec.

(** * Properties *)

Import Js.

(** ** The insertion-ordered map *)

Section JsMapFacts.
Context {V : Type}.
Implicit Types (m : JsMap V) (k : string) (v : V).

Lemma mapGet_None k m : mapGet k m = None ↔ k ∉ m.*1.
Proof.
  induction m as [|[k' v'] m IH]; simpl.
  - split; [intros _; apply not_elem_of_nil | done].
  - case_bool_decide as Hk.
    + subst. split; [done | intros H; exfalso; apply H; left].
    + rewrite IH, not_elem_of_cons. tauto.
Qed.

Lemma mapGet_Some_elem k v m : mapGet k m = Some v → (k, v) ∈ m.
Proof.
  induction m as [|[k' v'] m IH]; simpl; [done|].
  case_bool_decide; intros ?; simplify_eq; [left | right; auto].
Qed.

Lemma mapGet_elem_NoDup k v m : NoDup m.*1 → (k, v) ∈ m → mapGet k m = Some v.
Proof.
  induction m as [|[k' v'] m IH]; simpl; intros Hnd Hin.
  - by apply elem_of_nil in Hin.
  - apply NoDup_cons in Hnd as [Hk' Hnd].
    apply elem_of_cons in Hin as [?|Hin]; simplify_eq.
    + by rewrite bool_decide_eq_true_2.
    + case_bool_decide; [|auto]. subst. exfalso. apply Hk'.
      apply list_elem_of_fmap. by exists (k', v).
Qed.

Lemma mapGet_app k m1 m2 :
  mapGet k (m1 ++ m2) =
    match mapGet k m1 with Some v => Some v | None => mapGet k m2 end.
Proof.
  induction m1 as [|[k' v'] m1 IH]; simpl; [done|]. by case_bool_decide.
Qed.

Lemma mapGet_mapSet_eq k v m : mapGet k (mapSet k v m) = Some v.
Proof.
  induction m as [|[k' v'] m IH]; simpl.
  - by rewrite bool_decide_eq_true_2.
  - case_bool_decide; simpl.
    + by rewrite bool_decide_eq_true_2.
    + by rewrite bool_decide_eq_false_2.
Qed.

Lemma mapGet_mapSet_ne k k' v m : k ≠ k' → mapGet k' (mapSet k v m) = mapGet k' m.
Proof.
  intros Hne. induction m as [|[k0 v0] m IH]; simpl.
  - by rewrite bool_decide_eq_false_2.
  - case_bool_decide; simpl; subst.
    + by rewrite !bool_decide_eq_false_2.
    + case_bool_decide; auto.
Qed.

Lemma mapSet_absent k v m : mapGet k m = None → mapSet k v m = m ++ [(k, v)].
Proof.
  induction m as [|[k' v'] m IH]; simpl; [done|].
  case_bool_decide; [done|]. intros ?. f_equal. auto.
Qed.

Lemma mapSet_present_keys k v m : is_Some (mapGet k m) → (mapSet k v m).*1 = m.*1.
Proof.
  induction m as [|[k' v'] m IH]; simpl; [by intros [? ?]|].
  case_bool_decide; simpl; intros ?; subst; f_equal; auto.
Qed.

Lemma mapSet_app_l k v m1 m2 :
  is_Some (mapGet k m1) → mapSet k v (m1 ++ m2) = mapSet k v m1 ++ m2.
Proof.
  induction m1 as [|[k' v'] m1 IH]; simpl; [by intros [? ?]|].
  case_bool_decide; simpl; intros ?; f_equal; auto.
Qed.

Lemma mapSet_app_r k v m1 m2 :
  mapGet k m1 = None → mapSet k v (m1 ++ m2) = m1 ++ mapSet k v m2.
Proof.
  induction m1 as [|[k' v'] m1 IH]; simpl; [done|].
  case_bool_decide; simpl; intros ?; [done|]. f_equal; auto.
Qed.

Lemma mapSet_elem k v k' v' m :
  (k', v') ∈ mapSet k v m → (k', v') = (k, v) ∨ (k', v') ∈ m.
Proof.
  induction m as [|[k0 v0] m IH]; simpl.
  - intros ?%list_elem_of_singleton. by left.
  - case_bool_decide; intros [?|Hin]%elem_of_cons; simplify_eq.
    + by left.
    + right. by right.
    + right. left.
    + destruct (IH Hin) as [?|?]; [by left | right; by right].
Qed.

Lemma mapSet_NoDup k v m : NoDup m.*1 → NoDup (mapSet k v m).*1.
Proof.
  intros Hnd. destruct (mapGet k m) as [v0|] eqn:Hg.
  - by rewrite mapSet_present_keys.
  - rewrite mapSet_absent, fmap_app by done. simpl.
    apply NoDup_app. split_and!; [done | | apply NoDup_singleton].
    intros x Hx ->%list_elem_of_singleton. by apply mapGet_None in Hg.
Qed.

Lemma mapFrom_snoc (kvs : list (string * V)) k v :
  mapFrom (kvs ++ [(k, v)]) = mapSet k v (mapFrom kvs).
Proof. unfold mapFrom. by rewrite foldl_app. Qed.

Lemma mapFrom_NoDup_keys (kvs : list (string * V)) : NoDup (mapFrom kvs).*1.
Proof.
  induction kvs as [|[k v] kvs IH] using rev_ind.
  - constructor.
  - rewrite mapFrom_snoc. by apply mapSet_NoDup.
Qed.

(** A list of pairs without repeated keys is its own map. *)
Lemma mapFrom_NoDup_id (kvs : list (string * V)) : NoDup kvs.*1 → mapFrom kvs = kvs.
Proof.
  induction kvs as [|[k v] kvs IH] using rev_ind; [done|].
  rewrite fmap_app. simpl. intros [Hnd [Hk _]]%NoDup_app.
  rewrite mapFrom_snoc, IH by done. apply mapSet_absent, mapGet_None.
  intros Hin. apply (Hk k Hin). by apply list_elem_of_singleton.
Qed.

Lemma mapFrom_elem (kvs : list (string * V)) k v :
  (k, v) ∈ mapFrom kvs → (k, v) ∈ kvs.
Proof.
  induction kvs as [|[k0 v0] kvs IH] using rev_ind.
  - done.
  - rewrite mapFrom_snoc. intros [?|?]%mapSet_elem; simplify_eq.
    + apply elem_of_app. right. left.
    + apply elem_of_app. left. auto.
Qed.

End JsMapFacts.

Section KeyOKFacts.
Context {V : Type} (keyV : V → string).
Implicit Types (m : JsMap V).

Lemma KeyOK_fst m : KeyOK keyV m → m.*1 = keyV <$> m.*2.
Proof.
  induction 1 as [|[k v] m Hk _ IH]; [done|]. rewrite !fmap_cons. simpl in *. congruence.
Qed.

Lemma KeyOK_mapFrom (kvs : list (string * V)) :
  KeyOK keyV kvs → KeyOK keyV (mapFrom kvs).
Proof.
  unfold KeyOK. rewrite !Forall_forall. intros H [k v] Hin.
  apply H. by apply mapFrom_elem.
Qed.

Lemma KeyOK_elem m k v : KeyOK keyV m → (k, v) ∈ m → k = keyV v.
Proof. unfold KeyOK. rewrite Forall_forall. intros H Hin. apply (H _ Hin). Qed.

(** With distinct keys, a value is found under its own name. *)
Lemma KeyOK_value_get m v :
  KeyOK keyV m → NoDup m.*1 → v ∈ mapValues m → mapGet (keyV v) m = Some v.
Proof.
  intros HK Hnd ([k v'] & -> & Hin)%list_elem_of_fmap. simpl.
  rewrite <- (KeyOK_elem _ _ _ HK Hin). by apply mapGet_elem_NoDup.
Qed.

Lemma KeyOK_values_NoDup m :
  KeyOK keyV m → NoDup m.*1 → NoDup (keyV <$> mapValues m).
Proof. intros HK Hnd. unfold mapValues. by rewrite <- KeyOK_fst. Qed.

End KeyOKFacts.

(** ** The stable sort with a descending-by-key comparator *)

Lemma Desc_lookup (l : list Z) (i j : nat) (a b : Z) :
  Desc l → (i < j)%nat → l !! i = Some a → l !! j = Some b → b ≤ a.
Proof.
  intros Hs. revert i j. induction Hs as [|x l Hs IH Hx]; intros i j Hij Hi Hj.
  - done.
  - destruct j as [|j]; [lia|]. destruct i as [|i]; simpl in *.
    + simplify_eq. eapply Forall_forall in Hx; [exact Hx|].
      by eapply list_elem_of_lookup_2.
    + eapply (IH i j); [lia|done..].
  Qed.

Lemma Desc_app_inv (l1 l2 : list Z) :
  Desc (l1 ++ l2) → Desc l1 ∧ Desc l2 ∧ ∀ a b, a ∈ l1 → b ∈ l2 → b ≤ a.
Proof.
  induction l1 as [|x l1 IH]; simpl; intros Hs.
  - split_and!; [constructor | done | intros a b Ha; by apply elem_of_nil in Ha].
  - inversion Hs as [|? ? Hs' Hx]; subst. destruct (IH Hs') as (H1 & H2 & H3).
    split_and!; [|done|].
    + constructor; [done|]. by apply Forall_app in Hx as [? _].
    + intros a b [->|Ha]%elem_of_cons Hb; [|eauto].
      apply Forall_app in Hx as [_ Hx]. by eapply Forall_forall in Hx.
Qed.

Lemma Desc_take (n : nat) (zs : list Z) : Desc zs → Desc (take n zs).
Proof.
  intros Hs. rewrite <- (take_drop n zs) in Hs. by apply Desc_app_inv in Hs as [? _].
Qed.

Section SortFacts.
Context {A : Type} (key : A → Z) (cmp : A → A → Z).
Hypothesis cmp_key : ∀ a b, cmp a b = key b - key a.

Lemma sortInsert_Permutation x l : sortInsert cmp x l ≡ₚ x :: l.
Proof.
  induction l as [|y l IH]; simpl; [done|].
  destruct (cmp x y <=? 0); [done|]. rewrite IH. apply Permutation_swap.
Qed.

Lemma arraySort_Permutation l : arraySort cmp l ≡ₚ l.
Proof.
  induction l as [|x l IH]; simpl; [done|].
  unfold arraySort in *. simpl. by rewrite sortInsert_Permutation, IH.
Qed.

Lemma arraySort_length l : length (arraySort cmp l) = length l.
Proof. by rewrite arraySort_Permutation. Qed.

Lemma sortInsert_Desc x l : Desc (key <$> l) → Desc (key <$> sortInsert cmp x l).
Proof.
  induction l as [|y l IH]; simpl; intros Hs.
  - repeat constructor.
  - inversion Hs as [|? ? Hs' Hy]; subst.
    destruct (Z.leb_spec (cmp x y) 0) as [Hle|Hgt]; rewrite cmp_key in *; simpl.
    + constructor; [done|]. constructor; [lia|].
      eapply Forall_impl; [exact Hy|]. simpl. intros; lia.
    + constructor; [by apply IH|].
      rewrite sortInsert_Permutation. simpl. constructor; [lia | done].
Qed.

Lemma arraySort_Desc l : Desc (key <$> arraySort cmp l).
Proof.
  induction l as [|x l IH]; [constructor|].
  unfold arraySort in *. simpl. by apply sortInsert_Desc.
Qed.

(** An element at least as large as the head goes in front. *)
Lemma sortInsert_front x l :
  (∀ y, head l = Some y → key y ≤ key x) → sortInsert cmp x l = x :: l.
Proof.
  destruct l as [|y l]; simpl; [done|]. intros Hy.
  rewrite cmp_key. destruct (Z.leb_spec (key y - key x) 0); [done|].
  specialize (Hy y eq_refl). lia.
Qed.

(** Sorting leaves a sorted prefix in place when nothing after it is
    larger: on ties the elements that came first stay first. *)
Lemma arraySort_sorted_prefix l1 l2 :
  Desc (key <$> l1) → (∀ a b, a ∈ l1 → b ∈ l2 → key b ≤ key a) →
  arraySort cmp (l1 ++ l2) = l1 ++ arraySort cmp l2.
Proof.
  induction l1 as [|x l1 IH]; simpl; intros Hs Hdom; [done|].
  inversion Hs as [|? ? Hs' Hx]; subst.
  unfold arraySort in *. simpl. rewrite IH; [|done|].
  - apply sortInsert_front. intros y Hy.
    destruct l1 as [|z l1]; simpl in *.
    + apply Hdom; [left|]. apply head_Some_elem_of in Hy.
      by rewrite <- (arraySort_Permutation l2).
    + simplify_eq. by inversion Hx.
  - intros a b Ha Hb. apply Hdom; [by right | done].
Qed.

Lemma arraySort_sorted_id l : Desc (key <$> l) → arraySort cmp l = l.
Proof.
  intros Hs. rewrite <- (app_nil_r l) at 1.
  rewrite arraySort_sorted_prefix; [by rewrite app_nil_r | done |].
  intros a b _ Hb. by apply elem_of_nil in Hb.
Qed.

(** What sorting and keeping the first [n] does to an element of a list
    with distinct names: it is kept, or it falls behind [n] elements that
    all have at least its key. *)
Lemma take_sort_cases (name : A → string) (n : nat) l y :
  NoDup (name <$> l) → y ∈ l →
  (∃ i, take n (arraySort cmp l) !! i = Some y)
  ∨ ((name y ∉ name <$> take n (arraySort cmp l))
     ∧ length (take n (arraySort cmp l)) = n
     ∧ ∀ a, a ∈ take n (arraySort cmp l) → key y ≤ key a).
Proof.
  intros Hnd Hy. set (S := arraySort cmp l).
  assert (y ∈ take n S ++ drop n S) as Hin.
  { rewrite take_drop. unfold S. by rewrite arraySort_Permutation. }
  apply elem_of_app in Hin as [Hin|Hin].
  - left. by apply list_elem_of_lookup_1 in Hin.
  - right.
    assert (NoDup (name <$> take n S ++ drop n S)) as Hnd'.
    { rewrite take_drop. unfold S. by rewrite arraySort_Permutation. }
    assert (Desc (key <$> take n S ++ drop n S)) as Hs.
    { rewrite take_drop. apply arraySort_Desc. }
    rewrite fmap_app in Hnd'. rewrite fmap_app in Hs.
    apply NoDup_app in Hnd' as (_ & Hdisj & _).
    apply Desc_app_inv in Hs as (_ & _ & Hle).
    split_and!.
    + intros Hu. apply (Hdisj _ Hu). apply list_elem_of_fmap. by exists y.
    + rewrite length_take.
      assert (length (drop n S) ≠ 0%nat) as Hlen.
      { destruct (drop n S); [by apply elem_of_nil in Hin | done]. }
      rewrite length_drop in Hlen. lia.
    + intros a Ha. apply Hle; apply list_elem_of_fmap; eauto.
Qed.

End SortFacts.

Lemma filter_none {A} (P : A → Prop) `{∀ x, Decision (P x)} (l : list A) :
  (∀ x, x ∈ l → ¬ P x) → filter P l = [].
Proof.
  induction l as [|x l IH]; intros Hl; [done|].
  rewrite filter_cons, decide_False by (apply Hl; left).
  apply IH. intros y ?. apply Hl. by right.
Qed.

(** ** Folding candidates into a map, keeping the best per key *)

Section KeepBest.
Context {C V : Type} (keyOf : C → string) (mk : C → V).
Context (scC : C → Z) (scV : V → Z) (keyV : V → string).
Hypothesis mk_score : ∀ c, scV (mk c) = scC c.
Hypothesis mk_key : ∀ c, keyV (mk c) = keyOf c.

Local Abbreviation step := (keepBest keyOf mk scC scV).
Local Abbreviation step1 := (keepBest1 mk scC scV).
Implicit Types (m : JsMap V) (c : C) (cs : list C) (k : string).

Lemma keepBest_get_ne m c k : keyOf c ≠ k → mapGet k (step m c) = mapGet k m.
Proof.
  intros Hne. unfold keepBest.
  destruct (mapGet (keyOf c) m) as [ex|]; [destruct (scV ex <? scC c)|];
    by rewrite ?mapGet_mapSet_ne.
Qed.

Lemma keepBest_get_eq m c :
  mapGet (keyOf c) (step m c) = step1 (mapGet (keyOf c) m) c.
Proof.
  unfold keepBest, keepBest1.
  destruct (mapGet (keyOf c) m) as [ex|] eqn:Hg;
    [destruct (scV ex <? scC c)|]; by rewrite ?mapGet_mapSet_eq.
Qed.

(** The fold seen from one key [k]: only the candidates for [k] matter. *)
Lemma keepBest_fold_get cs m k :
  mapGet k (foldl step m cs) =
    foldl step1 (mapGet k m) (filter (λ c, keyOf c = k) cs).
Proof.
  revert m. induction cs as [|c cs IH]; intros m; simpl; [done|].
  rewrite IH, filter_cons. case_decide as Hk; simpl.
  - subst k. by rewrite keepBest_get_eq.
  - by rewrite keepBest_get_ne.
Qed.

Lemma keepBest_NoDup m c : NoDup m.*1 → NoDup (step m c).*1.
Proof.
  intros ?. unfold keepBest.
  destruct (mapGet (keyOf c) m) as [ex|]; [destruct (scV ex <? scC c)|];
    auto using mapSet_NoDup.
Qed.

Lemma keepBest_fold_NoDup cs m : NoDup m.*1 → NoDup (foldl step m cs).*1.
Proof. revert m. induction cs; simpl; auto using keepBest_NoDup. Qed.

Lemma keepBest_elem m c k v :
  (k, v) ∈ step m c → (k, v) = (keyOf c, mk c) ∨ (k, v) ∈ m.
Proof.
  unfold keepBest.
  destruct (mapGet (keyOf c) m) as [ex|]; [destruct (scV ex <? scC c)|];
    eauto using mapSet_elem.
Qed.

Lemma keepBest_KeyOK m c : KeyOK keyV m → KeyOK keyV (step m c).
Proof.
  unfold KeyOK. rewrite !Forall_forall. intros Hm [k v] Hin.
  apply keepBest_elem in Hin as [?|?]; simplify_eq; simpl; auto.
  by apply (Hm (k, v)).
Qed.

Lemma keepBest_fold_KeyOK cs m : KeyOK keyV m → KeyOK keyV (foldl step m cs).
Proof. revert m. induction cs; simpl; auto using keepBest_KeyOK. Qed.

(** *** One key *)

Lemma keepBest1_is_Some o c : is_Some (step1 o c).
Proof. destruct o as [ex|]; simpl; [destruct (scV ex <? scC c)|]; eauto. Qed.

Lemma keepBest1_fold_mono cs e :
  ∃ e', foldl step1 (Some e) cs = Some e' ∧ scV e ≤ scV e'.
Proof.
  revert e. induction cs as [|c cs IH]; intros e; simpl.
  - exists e. split; [done | lia].
  - destruct (Z.ltb_spec (scV e) (scC c)).
    + destruct (IH (mk c)) as (e' & -> & ?). exists e'.
      split; [done|]. rewrite mk_score in *. lia.
    + apply IH.
Qed.

(** The stored value is at least as good as every candidate folded in. *)
Lemma keepBest1_fold_dominates cs o c :
  c ∈ cs → ∃ e', foldl step1 o cs = Some e' ∧ scC c ≤ scV e'.
Proof.
  revert o. induction cs as [|c0 cs IH]; intros o Hin.
  - by apply elem_of_nil in Hin.
  - apply elem_of_cons in Hin as [->|Hin]; simpl; [|by apply IH].
    destruct (keepBest1_is_Some o c0) as [e1 He1]. rewrite He1.
    destruct (keepBest1_fold_mono cs e1) as (e' & -> & ?).
    exists e'. split; [done|].
    assert (scC c0 ≤ scV e1); [|lia].
    destruct o as [ex|]; simpl in He1.
    + destruct (Z.ltb_spec (scV ex) (scC c0)); simplify_eq;
        rewrite ?mk_score; lia.
    + simplify_eq. rewrite mk_score. lia.
Qed.

Lemma keepBest1_fold_unchanged cs e :
  (∀ c, c ∈ cs → scC c ≤ scV e) → foldl step1 (Some e) cs = Some e.
Proof.
  induction cs as [|c cs IH]; intros Hle; simpl; [done|].
  destruct (Z.ltb_spec (scV e) (scC c)) as [Hlt|_].
  - assert (scC c ≤ scV e) by (apply Hle; left). lia.
  - apply IH. intros c' ?. apply Hle. by right.
Qed.

Lemma keepBest1_fold_None cs o : foldl step1 o cs = None → o = None ∧ cs = [].
Proof.
  destruct cs as [|c cs]; simpl; [done|]. intros Hf. exfalso.
  destruct (keepBest1_is_Some o c) as [e He]. rewrite He in Hf.
  destruct (keepBest1_fold_mono cs e) as (e' & He' & _). congruence.
Qed.

(** The stored value is either the initial one, when no candidate beats
    it, or the first candidate that attains the largest score. *)
Lemma keepBest1_fold_first_max cs o r :
  foldl step1 o cs = Some r →
  (o = Some r ∧ ∀ c, c ∈ cs → scC c ≤ scV r)
  ∨ (∃ pre c post, cs = pre ++ c :: post ∧ r = mk c ∧
       (∀ x, x ∈ pre → scC x < scC c) ∧
       (∀ x, x ∈ post → scC x ≤ scC c) ∧
       (∀ e, o = Some e → scV e < scC c)).
Proof.
  revert r. induction cs as [|c cs IH] using rev_ind; intros r.
  - simpl. intros ->. left. split; [done|]. intros c Hc. by apply elem_of_nil in Hc.
  - rewrite foldl_app. simpl. destruct (foldl step1 o cs) as [e'|] eqn:Hf.
    + specialize (IH e' eq_refl). simpl.
      destruct (Z.ltb_spec (scV e') (scC c)) as [Hlt|Hge]; intros ?; simplify_eq.
      * right. exists cs, c, []. split_and!; [done..| | |].
        -- intros x Hx. destruct IH as [[_ Hall]|(pre & c0 & post & -> & -> & Hpre & Hpost & _)].
           ++ specialize (Hall x Hx). lia.
           ++ rewrite mk_score in Hlt.
              apply elem_of_app in Hx as [Hx|[->|Hx]%elem_of_cons];
                [specialize (Hpre x Hx) | | specialize (Hpost x Hx)]; lia.
        -- intros x Hx. by apply elem_of_nil in Hx.
        -- intros e ->. destruct IH as [[? _]|(pre & c0 & post & _ & -> & _ & _ & Ho)].
           ++ by simplify_eq.
           ++ specialize (Ho e eq_refl). rewrite mk_score in Hlt. lia.
      * destruct IH as [[-> Hall]|(pre & c0 & post & -> & -> & Hpre & Hpost & Ho)].
        -- left. split; [done|]. intros x [Hx| ->%list_elem_of_singleton]%elem_of_app; auto.
        -- right. exists pre, c0, (post ++ [c]).
           split_and!; [by rewrite <- app_assoc | done | done | | done].
           rewrite mk_score in Hge.
           intros x [Hx| ->%list_elem_of_singleton]%elem_of_app; auto.
    + apply keepBest1_fold_None in Hf as [-> ->]. simpl. intros ?; simplify_eq.
      right. exists [], c, []. split_and!; [done..| | |].
      * intros x Hx. by apply elem_of_nil in Hx.
      * intros x Hx. by apply elem_of_nil in Hx.
      * intros e ?. done.
Qed.

(** *** A map that already dominates the candidates

    Candidates whose key is present with a score at least as large leave
    the map alone; the others are appended behind it. *)
Lemma keepBest_fold_dominated cs m :
  (∀ c e, c ∈ cs → mapGet (keyOf c) m = Some e → scC c ≤ scV e) →
  ∃ extra, foldl step m cs = m ++ extra ∧
    ∀ k v, (k, v) ∈ extra →
      mapGet k m = None ∧ ∃ c, c ∈ cs ∧ keyOf c = k ∧ v = mk c.
Proof.
  induction cs as [|c cs IH] using rev_ind; intros Hdom.
  - exists []. split; [by rewrite app_nil_r|]. intros k v Hin. by apply elem_of_nil in Hin.
  - destruct IH as (extra & Hfold & Hextra).
    { intros c' e Hc'. apply Hdom, elem_of_app. by left. }
    assert (∀ k v, (k, v) ∈ extra →
              mapGet k m = None ∧ ∃ c', c' ∈ cs ++ [c] ∧ keyOf c' = k ∧ v = mk c')
      as Hextra'.
    { intros k v Hin. destruct (Hextra k v Hin) as (? & c' & ? & ? & ?).
      split; [done|]. exists c'. split_and!; [|done..]. apply elem_of_app. by left. }
    rewrite foldl_app, Hfold. simpl. unfold keepBest. rewrite mapGet_app.
    destruct (mapGet (keyOf c) m) as [e|] eqn:Hm.
    + assert (scC c ≤ scV e) as Hle.
      { eapply Hdom; [|done]. apply elem_of_app. right. left. }
      destruct (Z.ltb_spec (scV e) (scC c)); [lia|]. by exists extra.
    + assert (∀ k v, (k, v) ∈ mapSet (keyOf c) (mk c) extra →
                mapGet k m = None ∧
                ∃ c', c' ∈ cs ++ [c] ∧ keyOf c' = k ∧ v = mk c') as Hset.
      { intros k v [?|Hin]%mapSet_elem; [simplify_eq|by apply Hextra'].
        split; [done|]. exists c. split_and!; [|done..].
        apply elem_of_app. right. left. }
      destruct (mapGet (keyOf c) extra) as [e|] eqn:He;
        [destruct (scV e <? scC c)|].
      * exists (mapSet (keyOf c) (mk c) extra). by rewrite mapSet_app_r.
      * by exists extra.
      * exists (mapSet (keyOf c) (mk c) extra). by rewrite mapSet_app_r.
Qed.

End KeepBest.

(** ** scraper.js: the merge of one game *)

Section MergeGame.
Import Scraper.
Implicit Types (l : list AllTimeEntry) (date : string) (existing : AllTimeGame).
Implicit Types (gameData : GameData).

Lemma mergeScore_keepBest date :
  mergeScore date = keepBest username (stamp date) score e_score.
Proof. reflexivity. Qed.

(** The two loops are one fold over the highscores entries followed by the
    today entries. *)
Lemma mergedMap_fold date existing gameData :
  mergedMap date existing gameData =
    foldl (keepBest username (stamp date) score e_score)
      (mapFrom (keyed (g_scores existing)))
      (scores (highscores gameData) ++ scores (today gameData)).
Proof. unfold mergedMap. by rewrite foldl_app. Qed.

Lemma keyed_fst l : (keyed l).*1 = e_username <$> l.
Proof. unfold keyed. rewrite <- list_fmap_compose. done. Qed.

Lemma keyed_snd l : (keyed l).*2 = l.
Proof. unfold keyed. rewrite <- list_fmap_compose. apply list_fmap_id. Qed.

Lemma keyed_KeyOK l : KeyOK e_username (keyed l).
Proof. unfold KeyOK, keyed. apply Forall_fmap, Forall_true. done. Qed.

Lemma mergedMap_NoDup date existing gameData :
  NoDup (mergedMap date existing gameData).*1.
Proof. rewrite mergedMap_fold. apply keepBest_fold_NoDup, mapFrom_NoDup_keys. Qed.

Lemma mergedMap_KeyOK date existing gameData :
  KeyOK e_username (mergedMap date existing gameData).
Proof.
  rewrite mergedMap_fold. apply keepBest_fold_KeyOK; [done|].
  apply KeyOK_mapFrom, keyed_KeyOK.
Qed.

Lemma mergedMap_values_NoDup date existing gameData :
  NoDup (e_username <$> mapValues (mergedMap date existing gameData)).
Proof.
  apply KeyOK_values_NoDup; [apply mergedMap_KeyOK | apply mergedMap_NoDup].
Qed.

(** *** Re-ranking *)

Lemma rerank_length l : length (rerank l) = length l.
Proof. apply length_imap. Qed.

Lemma rerank_lookup l i :
  rerank l !! i =
    (λ s, {| e_rank := Z.of_nat i + 1; e_username := e_username s;
             e_score := e_score s; achievedOn := achievedOn s |}) <$> l !! i.
Proof. unfold rerank. by rewrite list_lookup_imap. Qed.

Lemma rerank_username l : e_username <$> rerank l = e_username <$> l.
Proof. unfold rerank. rewrite fmap_imap. by rewrite <- (imap_const e_username l). Qed.

Lemma rerank_score l : e_score <$> rerank l = e_score <$> l.
Proof. unfold rerank. rewrite fmap_imap. by rewrite <- (imap_const e_score l). Qed.

Lemma rerank_idem l : rerank (rerank l) = rerank l.
Proof.
  apply list_eq. intros i. rewrite !rerank_lookup.
  by destruct (l !! i).
Qed.

(** An entry of the re-ranked list is an entry of the list with its rank
    replaced. *)
Lemma rerank_elem l x :
  x ∈ rerank l →
  ∃ y, y ∈ l ∧ e_username y = e_username x ∧ e_score y = e_score x
       ∧ achievedOn y = achievedOn x.
Proof.
  intros (i & Hi)%list_elem_of_lookup_1. rewrite rerank_lookup in Hi.
  destruct (l !! i) as [y|] eqn:Hy; simplify_eq/=. exists y.
  split; [by eapply list_elem_of_lookup_2 | by split_and!].
Qed.

(** *** Sorting, truncating, re-ranking *)

Lemma byScoreDesc_key (a b : AllTimeEntry) : byScoreDesc a b = e_score b - e_score a.
Proof. reflexivity. Qed.

Lemma sortedScores_Desc date existing gameData :
  Desc (e_score <$> sortedScores date existing gameData).
Proof.
  unfold sortedScores. rewrite rerank_score, fmap_take.
  apply Desc_take, (arraySort_Desc e_score byScoreDesc byScoreDesc_key).
Qed.

Lemma sortedScores_TopN date existing gameData :
  TopN 50 (sortedScores date existing gameData).
Proof.
  split_and!.
  - unfold sortedScores. rewrite rerank_length, length_take. lia.
  - intros i j a b Hij Ha Hb.
    eapply (Desc_lookup _ i j); [apply (sortedScores_Desc date existing gameData)|done|..];
      rewrite list_lookup_fmap; [by rewrite Ha | by rewrite Hb].
  - intros i a. unfold sortedScores. rewrite rerank_lookup.
    destruct (_ !! i); intros ?; by simplify_eq/=.
Qed.

Lemma sortedScores_NoDup date existing gameData :
  NoDup (e_username <$> sortedScores date existing gameData).
Proof.
  unfold sortedScores. rewrite rerank_username.
  eapply sublist_NoDup; [|apply fmap_sublist, sublist_take].
  rewrite (arraySort_Permutation byScoreDesc).
  apply mergedMap_values_NoDup.
Qed.

(** A value of the merged map is stored under its own username. *)
Lemma mergedMap_value_get date existing gameData y :
  y ∈ mapValues (mergedMap date existing gameData) →
  mapGet (e_username y) (mergedMap date existing gameData) = Some y.
Proof.
  apply KeyOK_value_get; [apply mergedMap_KeyOK | apply mergedMap_NoDup].
Qed.

(** The merged map holds, for every incoming entry, a value for its user
    with at least its score. *)
Lemma mergedMap_dominates date existing gameData c :
  c ∈ scores (highscores gameData) ++ scores (today gameData) →
  ∃ e, mapGet (username c) (mergedMap date existing gameData) = Some e
       ∧ score c ≤ e_score e.
Proof.
  intros Hc. rewrite mergedMap_fold, keepBest_fold_get.
  apply (keepBest1_fold_dominates (stamp date) score e_score); [done|].
  apply list_elem_of_filter. by split.
Qed.

(** What sorting and truncation do to a value of the merged map: it is
    kept, with a new rank, or it falls behind 50 entries that all have at
    least its score. *)
Lemma sortedScores_cases date existing gameData y :
  y ∈ mapValues (mergedMap date existing gameData) →
  (∃ i, (sortedScores date existing gameData) !! i =
          Some {| e_rank := Z.of_nat i + 1; e_username := e_username y;
                  e_score := e_score y; achievedOn := achievedOn y |})
  ∨ ((e_username y ∉ e_username <$> sortedScores date existing gameData)
     ∧ length (sortedScores date existing gameData) = 50%nat
     ∧ ∀ a, a ∈ sortedScores date existing gameData → e_score y ≤ e_score a).
Proof.
  intros Hy. unfold sortedScores.
  destruct (take_sort_cases e_score byScoreDesc byScoreDesc_key e_username 50
              _ y (mergedMap_values_NoDup date existing gameData) Hy)
    as [(i & Hi)|(Hu & Hlen & Hall)].
  - left. exists i. by rewrite rerank_lookup, Hi.
  - right. rewrite rerank_username, rerank_length. split_and!; [done..|].
    intros a (a0 & Ha0 & _ & Hsc & _)%rerank_elem. rewrite <- Hsc. by apply Hall.
Qed.

(** Merging the same day into the merged game changes nothing in the
    list. *)
Lemma sortedScores_idem date existing gameData :
  sortedScores date (mergeGame date existing gameData) gameData =
    sortedScores date existing gameData.
Proof.
  set (res := sortedScores date existing gameData).
  set (cands := scores (highscores gameData) ++ scores (today gameData)).
  unfold sortedScores at 1. rewrite mergedMap_fold. simpl. fold res cands.
  rewrite mapFrom_NoDup_id
    by (rewrite keyed_fst; apply sortedScores_NoDup).
  destruct (keepBest_fold_dominated username (stamp date) score e_score
              cands (keyed res)) as (extra & -> & Hextra).
  { intros c e Hc Hget.
    apply mapGet_Some_elem in Hget.
    apply list_elem_of_fmap in Hget as (e0 & [= Hu ->] & He).
    apply rerank_elem in He as (y & Hy & Hyu & Hys & _).
    assert (y ∈ mapValues (mergedMap date existing gameData)) as Hyv.
    { rewrite <- (arraySort_Permutation byScoreDesc).
      eapply elem_of_sublist; [exact Hy | apply sublist_take]. }
    apply mergedMap_value_get in Hyv.
    destruct (mergedMap_dominates date existing gameData c Hc) as (e' & He' & Hle).
    rewrite Hu, <- Hyu, Hyv in He'. simplify_eq. lia. }
  unfold mapValues. rewrite fmap_app, keyed_snd.
  assert (∀ b, b ∈ extra.*2 →
            length res = 50%nat ∧ ∀ a, a ∈ res → e_score b ≤ e_score a) as Hb.
  { intros b ([k b'] & -> & Hin)%list_elem_of_fmap. simpl.
    destruct (Hextra k b' Hin) as (Hnone & c & Hc & <- & ->).
    destruct (mergedMap_dominates date existing gameData c Hc) as (e' & He' & Hle).
    assert (e' ∈ mapValues (mergedMap date existing gameData)) as Hv.
    { apply mapGet_Some_elem in He'. apply list_elem_of_fmap. by exists (username c, e'). }
    assert (e_username e' = username c) as Hu.
    { pose proof (mergedMap_value_get _ _ _ _ Hv) as Hg.
      apply mapGet_Some_elem in He'.
      pose proof (mergedMap_KeyOK date existing gameData) as HK.
      unfold KeyOK in HK. rewrite Forall_forall in HK. symmetry. apply (HK _ He'). }
    apply mapGet_None in Hnone. rewrite keyed_fst in Hnone.
    destruct (sortedScores_cases date existing gameData e' Hv)
      as [(i & Hi)|(_ & Hlen & Hall)].
    - exfalso. apply Hnone. fold res in Hi. rewrite <- Hu.
      apply list_elem_of_fmap. eexists. split; [|by eapply list_elem_of_lookup_2]. done.
    - split; [done|]. intros a Ha. specialize (Hall a Ha). simpl. lia. }
  rewrite (arraySort_sorted_prefix e_score byScoreDesc byScoreDesc_key).
  - destruct extra as [|[k b] extra].
    + simpl. rewrite app_nil_r, take_ge.
      * apply rerank_idem.
      * unfold res, sortedScores. rewrite rerank_length, length_take. lia.
    + destruct (Hb b) as [Hlen _]; [left|].
      rewrite take_app_length' by done. apply rerank_idem.
  - apply sortedScores_Desc.
  - intros a b Ha Hb'. by apply Hb.
Qed.

(** The avatar choice is stable as well. *)
Lemma mergeGame_idem date existing gameData :
  mergeGame date (mergeGame date existing gameData) gameData =
    mergeGame date existing gameData.
Proof.
  unfold mergeGame at 1. rewrite sortedScores_idem. unfold mergeGame. simpl.
  f_equal. destruct (topAchievedToday date _); [|done].
  unfold orElse. destruct (truthy (topAvatar (today gameData))) eqn:Ht.
  - by rewrite Ht.
  - by destruct (truthy (topAvatar (highscores gameData))).
Qed.

End MergeGame.

(** ** scraper.js: the whole record *)

Section MergeAllTime.
Import Scraper.
Implicit Types (R : AllTime) (D : gmap string GameData) (date g : string).

(** The loop, game by game: each key of [games] is visited once and only
    its own entry of the record is touched. *)
Lemma updateGame_fold_lookup date (l : list (string * GameData))
    (gs : gmap string AllTimeGame) g :
  NoDup l.*1 →
  foldl (updateGame date) gs l !! g =
    match (list_to_map l : gmap string GameData) !! g with
    | Some gameData =>
        Some (match gs !! g with
              | Some existing => mergeGame date existing gameData
              | None => seedGame date gameData
              end)
    | None => gs !! g
    end.
Proof.
  revert gs. induction l as [|[g0 gd0] l IH]; intros gs Hnd; simpl.
  - by rewrite lookup_empty.
  - apply NoDup_cons in Hnd as [Hg0 Hnd]. rewrite IH by done.
    destruct (decide (g0 = g)) as [->|Hne].
    + rewrite lookup_insert_eq.
      rewrite (not_elem_of_list_to_map_1 _ g) by done.
      unfold updateGame. simpl. destruct (gs !! g); by rewrite lookup_insert_eq.
    + rewrite lookup_insert_ne by done.
      assert (updateGame date gs (g0, gd0) !! g = gs !! g) as ->; [|done].
      unfold updateGame. simpl. destruct (gs !! g0); by rewrite lookup_insert_ne.
Qed.

Lemma mergeAllTime_lookup R D date g :
  games (mergeAllTime R D date) !! g =
    match D !! g with
    | Some gameData =>
        Some (match games R !! g with
              | Some existing => mergeGame date existing gameData
              | None => seedGame date gameData
              end)
    | None => games R !! g
    end.
Proof.
  unfold mergeAllTime. simpl.
  rewrite updateGame_fold_lookup by apply NoDup_fst_map_to_list.
  by rewrite list_to_map_to_list.
Qed.

(** [updateAllTimeScores] on a file that parsed with its [games] mapping is
    [mergeAllTime]. *)
Lemma updateAllTimeScores_parsed lu gs D date :
  updateAllTimeScores (Some (mkJson lu (Some gs))) D date =
    Returned (mkJson (Some date)
                (Some (games (mergeAllTime (mkAllTime (default "" lu) gs) D date)))).
Proof. reflexivity. Qed.

Lemma mergeAllTime_idem_known R D date :
  dom D ⊆ dom (games R) →
  mergeAllTime (mergeAllTime R D date) D date = mergeAllTime R D date.
Proof.
  intros Hdom.
  assert (games (mergeAllTime (mergeAllTime R D date) D date)
          = games (mergeAllTime R D date)) as Hg.
  { apply map_eq. intros g. rewrite (mergeAllTime_lookup (mergeAllTime R D date)).
    rewrite !mergeAllTime_lookup.
    destruct (D !! g) as [gd|] eqn:HD; [|done].
    assert (is_Some (games R !! g)) as [ex Hex].
    { apply elem_of_dom, Hdom, elem_of_dom. eauto. }
    rewrite Hex. by rewrite mergeGame_idem. }
  unfold mergeAllTime in *. simpl in *. by f_equal.
Qed.

(** After one merge every game of the day is on record. *)
Lemma mergeAllTime_dom R D date : dom D ⊆ dom (games (mergeAllTime R D date)).
Proof.
  intros g [gd Hg]%elem_of_dom. apply elem_of_dom.
  rewrite mergeAllTime_lookup, Hg. eauto.
Qed.

(** From the second merge of a day on, nothing changes any more. *)
Lemma mergeAllTime_idem_after_first R D date :
  let R1 := mergeAllTime R D date in
  mergeAllTime (mergeAllTime R1 D date) D date = mergeAllTime R1 D date.
Proof. apply mergeAllTime_idem_known, mergeAllTime_dom. Qed.

End MergeAllTime.

(** ** The all-time merge: results *)

Section MergeClaims.
Import Scraper.
Implicit Types (R : AllTime) (D : gmap string GameData) (date g : string).

(** C1, as amended. Merging a day is idempotent on a record that already
    has an entry for every game of the day: merging the day a second time
    gives the same record, entry for entry, with the same scores,
    [achievedOn] dates, ranks and [topAvatar]. (A game that is not yet on
    record is seeded from the highscores column alone, so the property does
    not extend to it.) *)
Theorem merge_idempotent_known_games R D date :
  dom D ⊆ dom (games R) →
  mergeAllTime (mergeAllTime R D date) D date = mergeAllTime R D date.
Proof. apply mergeAllTime_idem_known. Qed.

Lemma merge_idempotent_known_games_witness :
  dom Sample.day1 ⊆ dom (games Sample.record1)
  ∧ mergeAllTime (mergeAllTime Sample.record1 Sample.day1 "2025-01-02")
      Sample.day1 "2025-01-02"
    = mergeAllTime Sample.record1 Sample.day1 "2025-01-02".
Proof.
  split.
  - apply (bool_decide_unpack _). vm_compute. exact I.
  - apply merge_idempotent_known_games.
    apply (bool_decide_unpack _). vm_compute. exact I.
Defined.

(** C1 as stated fails on a cold start: the first merge seeds the game from
    the highscores column only; the second merge of the same day then also
    folds in the today column. *)
Lemma merge_twice_differs_on_cold_start :
  let once := mergeAllTime Sample.noRecord Sample.day1 "2025-01-02" in
  let twice := mergeAllTime once Sample.day1 "2025-01-02" in
  g_scores <$> games once !! "pirates"
    = Some [mkEntry 1 "Ariel" 100 "2025-01-02"]
  ∧ g_scores <$> games twice !! "pirates"
    = Some [mkEntry 1 "Ariel" 100 "2025-01-02"; mkEntry 2 "Belle" 50 "2025-01-02"]
  ∧ twice ≠ once.
Proof.
  split_and!; [by vm_compute..|].
  intros H. apply (f_equal (λ r, g_scores <$> games r !! "pirates")) in H.
  vm_compute in H. discriminate.
Qed.

(** C2, as amended. For a game of the incoming day that was already on
    record, the merged list has at most 50 entries, is sorted by score in
    non-increasing order and carries the ranks 1, 2, ..., length in order.
    For a game that was not on record the list is the incoming highscores
    list as it came, each entry stamped with the date: its length, order
    and ranks are those of the source. *)
Theorem merged_game_top50 R D date g gameData :
  D !! g = Some gameData →
  ∃ res, games (mergeAllTime R D date) !! g = Some res
    ∧ (is_Some (games R !! g) → TopN 50 (g_scores res))
    ∧ (games R !! g = None →
         g_scores res = stamp date <$> scores (highscores gameData)).
Proof.
  intros HD. rewrite mergeAllTime_lookup, HD.
  destruct (games R !! g) as [existing|]; eexists; (split; [done|]).
  - split; [|done]. intros _. apply sortedScores_TopN.
  - split; [by intros [? ?] | done].
Qed.

Lemma merged_game_top50_witness :
  Sample.day1 !! "pirates" = Some Sample.piratesDay1
  ∧ ∃ res, games (mergeAllTime Sample.record1 Sample.day1 "2025-01-02") !! "pirates"
             = Some res
      ∧ (is_Some (games Sample.record1 !! "pirates") → TopN 50 (g_scores res))
      ∧ (games Sample.record1 !! "pirates" = None →
           g_scores res
             = stamp "2025-01-02" <$> scores (highscores Sample.piratesDay1)).
Proof.
  split; [reflexivity|].
  apply (merged_game_top50 Sample.record1 Sample.day1 "2025-01-02" "pirates"
           Sample.piratesDay1).
  reflexivity.
Defined.

(** C2 as stated fails for a seeded game: the ranks of the source column
    are kept, here 1 and 3. *)
Lemma seeded_game_keeps_source_ranks :
  ∃ res, games (mergeAllTime Sample.noRecord Sample.dayGap "2025-01-02") !! "pirates"
           = Some res
    ∧ e_rank <$> g_scores res = [1; 3]
    ∧ ¬ TopN 50 (g_scores res).
Proof.
  eexists. split_and!; [by vm_compute | by vm_compute |].
  intros (_ & _ & Hrank).
  specialize (Hrank 1%nat (mkEntry 3 "Belle" 90 "2025-01-02") eq_refl).
  discriminate.
Qed.

(** The same rule over the two loops together: the entry stored for a
    user on record is the old one when no incoming entry of that user has a
    greater score, and otherwise the first incoming entry, highscores
    before today, that attains the user's largest incoming score. *)
Lemma mergedMap_stored_entry date existing gameData (e : AllTimeEntry) :
  NoDup (e_username <$> g_scores existing) →
  e ∈ g_scores existing →
  let incoming := filter (λ c, username c = e_username e)
                    (scores (highscores gameData) ++ scores (today gameData)) in
  ∃ r, mapGet (e_username e) (mergedMap date existing gameData) = Some r
    ∧ ((r = e ∧ ∀ c, c ∈ incoming → score c ≤ e_score e)
       ∨ (∃ pre c post, incoming = pre ++ c :: post ∧ r = stamp date c
            ∧ (∀ x, x ∈ pre → score x < score c)
            ∧ (∀ x, x ∈ post → score x ≤ score c)
            ∧ e_score e < score c)).
Proof.
  intros Hnd He incoming.
  rewrite mergedMap_fold, keepBest_fold_get. fold incoming.
  rewrite mapFrom_NoDup_id by by rewrite keyed_fst.
  rewrite (mapGet_elem_NoDup (e_username e) e) by
    (by rewrite keyed_fst || (apply list_elem_of_fmap; by exists e)).
  destruct (keepBest1_fold_mono (stamp date) score e_score (λ _, eq_refl)
              incoming e) as (r & Hr & _).
  exists r. split; [done|].
  apply (keepBest1_fold_first_max (stamp date) score e_score) in Hr
    as [[[= ->] Hall]|(pre & c & post & Heq & -> & Hpre & Hpost & Hlt)];
    [by left | | done].
  right. exists pre, c, post. split_and!; [done..|]. by apply Hlt.
Qed.

(** C3, as amended. For a game on record whose stored usernames are
    distinct, and a stored entry [(u, s1, d1)]: after the merge the entry
    of [u] has score [s] and date [d], where
    - if no incoming candidate of [u], in the highscores or the today
      column, has a score strictly greater than [s1] -- equal scores
      included -- then [s = s1] and [d = d1]: score and [achievedOn] are
      left as they were;
    - otherwise [d] is the date of the merge and [s] is the greatest
      incoming score of [u], which is greater than [s1].
    So with one candidate [(u, s2)] the entry becomes [(u, s2, date)] when
    [s2 > s1] and keeps [(u, s1, d1)] when [s2 <= s1], and the score changes
    if and only if some candidate is strictly greater. Every entry of [u]
    in the merged list has these values; it is there with the rank of its
    position, unless 50 entries with at least its score precede it. *)
Theorem best_score_wins R D date g gameData existing (e : AllTimeEntry) :
  D !! g = Some gameData →
  games R !! g = Some existing →
  NoDup (e_username <$> g_scores existing) →
  e ∈ g_scores existing →
  let incoming := filter (λ c, username c = e_username e)
                    (scores (highscores gameData) ++ scores (today gameData)) in
  ∃ res s d,
    games (mergeAllTime R D date) !! g = Some res
    ∧ ((∀ c, c ∈ incoming → score c ≤ e_score e) →
         s = e_score e ∧ d = achievedOn e)
    ∧ ((∃ c, c ∈ incoming ∧ e_score e < score c) →
         d = date ∧ e_score e < s
         ∧ (∃ c, c ∈ incoming ∧ score c = s)
         ∧ ∀ c, c ∈ incoming → score c ≤ s)
    ∧ (∀ c, incoming = [c] →
         (e_score e < score c → s = score c ∧ d = date)
         ∧ (score c ≤ e_score e → s = e_score e ∧ d = achievedOn e))
    ∧ (s ≠ e_score e ↔ ∃ c, c ∈ incoming ∧ e_score e < score c)
    ∧ (∀ x, x ∈ g_scores res → e_username x = e_username e →
         e_score x = s ∧ achievedOn x = d)
    ∧ ((∃ i, g_scores res !! i
               = Some {| e_rank := Z.of_nat i + 1; e_username := e_username e;
                         e_score := s; achievedOn := d |})
       ∨ ((e_username e ∉ e_username <$> g_scores res)
          ∧ length (g_scores res) = 50%nat
          ∧ ∀ a, a ∈ g_scores res → s ≤ e_score a)).
Proof.
  intros HD HR Hnd He incoming. rewrite mergeAllTime_lookup, HD, HR.
  destruct (mergedMap_stored_entry date existing gameData e Hnd He)
    as (r & Hget & Hcase). fold incoming in Hcase.
  exists (mergeGame date existing gameData), (e_score r), (achievedOn r).
  split; [done|]. simpl.
  assert (r ∈ mapValues (mergedMap date existing gameData)) as Hv.
  { apply mapGet_Some_elem in Hget. apply list_elem_of_fmap.
    by exists (e_username e, r). }
  assert (e_username r = e_username e) as Hru.
  { apply mergedMap_value_get in Hv. 
    destruct Hcase as [[-> _]|(pre & c & post & Hin & -> & _)]; [done|]. simpl.
    assert (c ∈ incoming) as Hc by (rewrite Hin; apply elem_of_app; right; left).
    by apply list_elem_of_filter in Hc as [? _]. }
  assert ((r = e ∧ ∀ c, c ∈ incoming → score c ≤ e_score e)
          ∨ (achievedOn r = date ∧ e_score e < e_score r
             ∧ (∃ c, c ∈ incoming ∧ score c = e_score r)
             ∧ ∀ c, c ∈ incoming → score c ≤ e_score r)) as Hrule.
  { destruct Hcase as [?|(pre & c & post & Hin & -> & Hpre & Hpost & Hlt)];
      [by left|]. right. simpl. split_and!; [done | done | |].
    - exists c. split; [|done]. rewrite Hin. apply elem_of_app. right. left.
    - intros x. rewrite Hin.
      intros [Hx|[->|Hx]%elem_of_cons]%elem_of_app;
        [specialize (Hpre x Hx); lia | lia | by apply Hpost]. }
  split_and!.
  - intros Hall. destruct Hrule as [[-> _]|(_ & Hlt & (c & Hc & Hs) & _)]; [done|].
    specialize (Hall c Hc). lia.
  - intros (c & Hc & Hlt).
    destruct Hrule as [[_ Hall]|?]; [|done]. specialize (Hall c Hc). lia.
  - intros c Hin. split.
    + intros Hlt. destruct Hrule as [[_ Hall]|(Hd & _ & (c' & Hc' & Hs) & _)].
      * specialize (Hall c). rewrite Hin in Hall.
        specialize (Hall ltac:(left)). lia.
      * rewrite Hin in Hc'. apply list_elem_of_singleton in Hc' as ->. done.
    + intros Hle. destruct Hrule as [[-> _]|(_ & Hlt & (c' & Hc' & Hs) & _)]; [done|].
      rewrite Hin in Hc'. apply list_elem_of_singleton in Hc' as ->. lia.
  - split.
    + intros Hne. destruct Hrule as [[-> _]|(_ & Hlt & (c & Hc & Hs) & _)]; [done|].
      exists c. split; [done | lia].
    + intros (c & Hc & Hlt).
      destruct Hrule as [[_ Hall]|(_ & ? & _)]; [|lia]. specialize (Hall c Hc). lia.
  - intros x (y & Hy & Hyu & Hys & Hyd)%rerank_elem Hxe.
    assert (y ∈ mapValues (mergedMap date existing gameData)) as Hyv.
    { rewrite <- (arraySort_Permutation byScoreDesc).
      eapply elem_of_sublist; [exact Hy | apply sublist_take]. }
    apply mergedMap_value_get in Hyv. rewrite Hyu, Hxe, Hget in Hyv.
    simplify_eq. done.
  - rewrite <- Hru. by apply sortedScores_cases.
Qed.

Lemma best_score_wins_witness :
  let e := mkEntry 1 "Ariel" 100 "2025-01-01" in
  SampleRepeated.dayTwice !! "pirates"
    = Some (mkGameData "Pirates of the Caribbean"
              (mkBlock None [mkScore 1 "Ariel" 150]) Sample.emptyBlock
              (mkBlock (Some "a.png") [mkScore 1 "Ariel" 200]))
  ∧ games Sample.record1 !! "pirates" = Some Sample.pirates1
  ∧ NoDup (e_username <$> g_scores Sample.pirates1)
  ∧ e ∈ g_scores Sample.pirates1
  ∧ g_scores <$> games (mergeAllTime Sample.record1 SampleRepeated.dayTwice "2025-01-02")
                   !! "pirates"
    = Some [mkEntry 1 "Ariel" 200 "2025-01-02"; mkEntry 2 "Chip" 70 "2025-01-01"]
  ∧ ∃ res s d,
      games (mergeAllTime Sample.record1 SampleRepeated.dayTwice "2025-01-02") !! "pirates"
        = Some res
      ∧ (∀ x, x ∈ g_scores res → e_username x = "Ariel"%string →
           e_score x = s ∧ achievedOn x = d)
      ∧ s ≠ 100.
Proof.
  intros e.
  assert (NoDup (e_username <$> g_scores Sample.pirates1)) as Hnd
    by (apply (bool_decide_unpack _); vm_compute; exact I).
  assert (e ∈ g_scores Sample.pirates1) as Hin by left.
  split_and!; [reflexivity | reflexivity | exact Hnd | exact Hin | by vm_compute |].
  destruct (best_score_wins Sample.record1 SampleRepeated.dayTwice "2025-01-02"
              "pirates" _ Sample.pirates1 e eq_refl eq_refl Hnd Hin)
    as (res & s & d & Hres & _ & _ & _ & Hchg & Hall & _).
  exists res, s, d. split_and!; [exact Hres | exact Hall |].
  apply Hchg. exists (mkScore 1 "Ariel" 200). split; [|simpl; lia].
  apply list_elem_of_filter. split; [reflexivity | left].
Defined.

(** C3 as stated fails when the stored list names a player twice: the
    [Map] keeps the later of the two entries, here Ariel with 90, so the
    candidate 95, which is not greater than the stored 100, replaces
    it, and no entry with 100 is left. *)
Lemma lower_candidate_replaces_repeated_name :
  let e := mkEntry 1 "Ariel" 100 "2025-01-01" in
  let c := mkScore 1 "Ariel" 95 in
  ∃ gameData res,
    SampleRepeated.dayAriel95 !! "pirates" = Some gameData
    ∧ games SampleRepeated.record !! "pirates" = Some SampleRepeated.pirates
    ∧ e ∈ g_scores SampleRepeated.pirates
    ∧ scores (highscores gameData) ++ scores (today gameData) = [c]
    ∧ score c ≤ e_score e
    ∧ games (mergeAllTime SampleRepeated.record SampleRepeated.dayAriel95 "2025-01-02")
        !! "pirates" = Some res
    ∧ g_scores res
      = [mkEntry 1 "Ariel" 95 "2025-01-02"; mkEntry 2 "Belle" 80 "2025-01-01"].
Proof.
  intros e c. eexists _, _.
  split_and!; [reflexivity | reflexivity | left | reflexivity | simpl; lia
              | by vm_compute | reflexivity].
Qed.

(** C4, as amended. When [all-time.json] cannot be read or does not
    parse, the merge starts from an empty record: every incoming game is
    seeded from its highscores column and the run completes. A file that
    parses but has no [games] mapping is not recovered: unless the incoming
    day has no game at all, the merge throws a [TypeError], which [main]
    turns into exit code 1. *)
Theorem unreadable_file_cold_start (D : gmap string GameData) date lu :
  updateAllTimeScores None D date
    = Returned (mkJson (Some date) (Some (seedGame date <$> D)))
  ∧ mainUpdate None D date = Completed
  ∧ updateAllTimeScores (Some (mkJson lu None)) D date
    = (if decide (D = ∅) then Returned (mkJson (Some date) None)
       else Thrown TypeError)
  ∧ mainUpdate (Some (mkJson lu None)) D date
    = (if decide (D = ∅) then Completed else Exit 1).
Proof.
  assert (updateAllTimeScores None D date
          = Returned (mkJson (Some date) (Some (seedGame date <$> D)))) as Hcold.
  { unfold updateAllTimeScores. simpl. do 3 f_equal. apply map_eq. intros g.
    rewrite updateGame_fold_lookup by apply NoDup_fst_map_to_list.
    rewrite list_to_map_to_list, lookup_fmap, lookup_empty.
    by destruct (D !! g). }
  assert (updateAllTimeScores (Some (mkJson lu None)) D date
          = (if decide (D = ∅) then Returned (mkJson (Some date) None)
             else Thrown TypeError)) as Hmissing.
  { unfold updateAllTimeScores. simpl.
    destruct (map_to_list D) as [|x l] eqn:Hl.
    - apply map_to_list_empty_iff in Hl. by rewrite decide_True.
    - rewrite decide_False; [done|]. intros ->.
      by rewrite map_to_list_empty in Hl. }
  split_and!; [done | | done |].
  - unfold mainUpdate. by rewrite Hcold.
  - unfold mainUpdate. rewrite Hmissing. by destruct (decide (D = ∅)).
Qed.

(** C4 as stated fails: a parsed file without [games] is not treated like an
    absent one; the run ends with exit code 1. *)
Lemma missing_games_mapping_is_fatal :
  updateAllTimeScores (Some Sample.noGames) Sample.day1 "2025-01-02"
    = Thrown TypeError
  ∧ updateAllTimeScores (Some Sample.noGames) Sample.day1 "2025-01-02"
    ≠ updateAllTimeScores None Sample.day1 "2025-01-02"
  ∧ mainUpdate (Some Sample.noGames) Sample.day1 "2025-01-02" = Exit 1.
Proof.
  assert (updateAllTimeScores (Some Sample.noGames) Sample.day1 "2025-01-02"
          = Thrown TypeError) as H by (by vm_compute).
  split_and!; [done | | by vm_compute].
  rewrite H. by vm_compute.
Qed.

(** C8, as amended. Usernames are compared as exact strings, letter case
    included: after merging into a game that was on record, the game's list
    has at most one entry per exact username. *)
Theorem merged_game_one_entry_per_exact_name R D date g gameData existing :
  D !! g = Some gameData →
  games R !! g = Some existing →
  ∃ res, games (mergeAllTime R D date) !! g = Some res
    ∧ OnePerUser id (g_scores res).
Proof.
  intros HD HR. rewrite mergeAllTime_lookup, HD, HR. eexists. split; [done|].
  simpl. intros i j a b Ha Hb Hab. simpl in Hab.
  pose proof (sortedScores_NoDup date existing gameData) as Hnd.
  eapply NoDup_lookup; [exact Hnd|..]; rewrite list_lookup_fmap.
  - by rewrite Ha.
  - rewrite Hb. simpl. by rewrite Hab.
Qed.

Lemma merged_game_one_entry_per_exact_name_witness :
  Sample.day1 !! "pirates" = Some Sample.piratesDay1
  ∧ games Sample.record1 !! "pirates" = Some Sample.pirates1
  ∧ ∃ res, games (mergeAllTime Sample.record1 Sample.day1 "2025-01-02") !! "pirates"
             = Some res
      ∧ OnePerUser id (g_scores res).
Proof.
  split_and!; [reflexivity..|].
  apply (merged_game_one_entry_per_exact_name Sample.record1 Sample.day1
           "2025-01-02" "pirates" Sample.piratesDay1 Sample.pirates1);
    reflexivity.
Defined.

(** C8 as stated fails: "Ariel" on record and "ARIEL" incoming give two
    entries that differ only in letter case. *)
Lemma names_differing_in_case_give_two_entries :
  ∃ res, games (mergeAllTime Sample.record1 Sample.dayUpper "2025-01-02") !! "pirates"
           = Some res
    ∧ e_username <$> g_scores res = ["Ariel"; "Chip"; "ARIEL"]
    ∧ ¬ OnePerUser toLowerCase (g_scores res).
Proof.
  eexists. split_and!; [by vm_compute | by vm_compute |].
  intros H.
  specialize (H 0%nat 2%nat (mkEntry 1 "Ariel" 100 "2025-01-01")
                (mkEntry 3 "ARIEL" 50 "2025-01-02") eq_refl eq_refl eq_refl).
  discriminate.
Qed.

(** C10, as amended. Frame property of the merge, for a stored list in
    which each username occurs once: an entry whose username is not in the incoming
    highscores or today column keeps its username, score and [achievedOn]
    -- it is in the merged list with only its rank reassigned -- or it is
    dropped by the truncation, behind 50 entries with at least its score. *)
Theorem merge_frame R D date g gameData existing (e : AllTimeEntry) :
  D !! g = Some gameData →
  games R !! g = Some existing →
  NoDup (e_username <$> g_scores existing) →
  e ∈ g_scores existing →
  e_username e ∉ username <$> (scores (highscores gameData) ++ scores (today gameData)) →
  ∃ res, games (mergeAllTime R D date) !! g = Some res
    ∧ (∀ x, x ∈ g_scores res → e_username x = e_username e →
         e_score x = e_score e ∧ achievedOn x = achievedOn e)
    ∧ ((∃ i, g_scores res !! i
               = Some {| e_rank := Z.of_nat i + 1; e_username := e_username e;
                         e_score := e_score e; achievedOn := achievedOn e |})
       ∨ ((e_username e ∉ e_username <$> g_scores res)
          ∧ length (g_scores res) = 50%nat
          ∧ ∀ a, a ∈ g_scores res → e_score e ≤ e_score a)).
Proof.
  intros HD HR Hnd He Hnew. rewrite mergeAllTime_lookup, HD, HR.
  eexists. split; [done|]. simpl.
  assert (mapGet (e_username e) (mergedMap date existing gameData) = Some e) as Hget.
  { rewrite mergedMap_fold, keepBest_fold_get.
    rewrite filter_none.
    - simpl. rewrite mapFrom_NoDup_id by by rewrite keyed_fst.
      apply mapGet_elem_NoDup; [by rewrite keyed_fst|].
      apply list_elem_of_fmap. by exists e.
    - intros c Hc Hu. apply Hnew. apply list_elem_of_fmap. by exists c. }
  assert (e ∈ mapValues (mergedMap date existing gameData)) as Hv.
  { apply mapGet_Some_elem in Hget. apply list_elem_of_fmap.
    by exists (e_username e, e). }
  split; [|by apply sortedScores_cases].
  intros x (y & Hy & Hyu & Hys & Hyd)%rerank_elem Hxe.
  assert (y ∈ mapValues (mergedMap date existing gameData)) as Hyv.
  { rewrite <- (arraySort_Permutation byScoreDesc).
    eapply elem_of_sublist; [exact Hy | apply sublist_take]. }
  apply mergedMap_value_get in Hyv. rewrite Hyu, Hxe, Hget in Hyv.
  simplify_eq. done.
Qed.

Lemma merge_frame_witness :
  let chip := mkEntry 2 "Chip" 70 "2025-01-01" in
  Sample.day1 !! "pirates" = Some Sample.piratesDay1
  ∧ games Sample.record1 !! "pirates" = Some Sample.pirates1
  ∧ NoDup (e_username <$> g_scores Sample.pirates1)
  ∧ chip ∈ g_scores Sample.pirates1
  ∧ (e_username chip ∉ username <$> (scores (highscores Sample.piratesDay1)
                                      ++ scores (today Sample.piratesDay1)))
  ∧ ∃ res, games (mergeAllTime Sample.record1 Sample.day1 "2025-01-02") !! "pirates"
             = Some res
      ∧ (∀ x, x ∈ g_scores res → e_username x = e_username chip →
           e_score x = e_score chip ∧ achievedOn x = achievedOn chip)
      ∧ ((∃ i, g_scores res !! i
                 = Some {| e_rank := Z.of_nat i + 1; e_username := e_username chip;
                           e_score := e_score chip; achievedOn := achievedOn chip |})
         ∨ ((e_username chip ∉ e_username <$> g_scores res)
            ∧ length (g_scores res) = 50%nat
            ∧ ∀ a, a ∈ g_scores res → e_score chip ≤ e_score a)).
Proof.
  intros chip.
  assert (NoDup (e_username <$> g_scores Sample.pirates1)) as Hnd
    by (apply (bool_decide_unpack _); vm_compute; exact I).
  assert (chip ∈ g_scores Sample.pirates1) as Hin by (right; left).
  assert (e_username chip ∉ username <$> (scores (highscores Sample.piratesDay1)
                                           ++ scores (today Sample.piratesDay1)))
    as Hnew by (apply (bool_decide_unpack _); vm_compute; exact I).
  split_and!; [reflexivity | reflexivity | exact Hnd | exact Hin | exact Hnew |].
  exact (merge_frame Sample.record1 Sample.day1 "2025-01-02" "pirates"
           Sample.piratesDay1 Sample.pirates1 chip eq_refl eq_refl Hnd Hin Hnew).
Defined.

(** C10 as stated fails when the stored list names a player twice: the
    [Map] built from the list keeps one entry per username, the later
    one, so the stored entry of Ariel with 100 is neither in the merged
    list nor cut off by the truncation, although the day does not name
    Ariel at all. *)
Lemma repeated_name_breaks_frame :
  let e := mkEntry 1 "Ariel" 100 "2025-01-01" in
  ∃ gameData res,
    SampleRepeated.dayChip !! "pirates" = Some gameData
    ∧ games SampleRepeated.record !! "pirates" = Some SampleRepeated.pirates
    ∧ e ∈ g_scores SampleRepeated.pirates
    ∧ (e_username e
         ∉ username <$> (scores (highscores gameData) ++ scores (today gameData)))
    ∧ games (mergeAllTime SampleRepeated.record SampleRepeated.dayChip "2025-01-02")
        !! "pirates" = Some res
    ∧ g_scores res
      = [mkEntry 1 "Ariel" 90 "2025-01-01"; mkEntry 2 "Belle" 80 "2025-01-01";
         mkEntry 3 "Chip" 60 "2025-01-02"].
Proof.
  intros e. eexists _, _.
  split_and!; [reflexivity | reflexivity | left | | by vm_compute | reflexivity].
  simpl. by intros [=]%list_elem_of_singleton.
Qed.

End MergeClaims.

(** ** app.js: the avatar resolver *)

Section Avatar.
Import App AvatarSpec.





(** The comparison of names is by exact string: a name in another letter
    case does not match. *)
Example findAvatarForUser_case_sensitive :
  findAvatarForUser SampleWeek.threeDays "pirates" "Ariel" false = Some "ariel.png"
  ∧ findAvatarForUser SampleWeek.threeDays "pirates" "ariel" false = None.
Proof. split; reflexivity. Qed.

End Avatar.

(** ** app.js: the aggregation *)

Section Aggregate.
Import App.
Implicit Types (ds : list DailyData) (scoreType : Period) (gameId : string).

Local Abbreviation obsStep :=
  (keepBest (λ c : ScoreEntry * string, username c.1) bestOf (λ c, score c.1) b_score).

Lemma bestStep_fold day (l : list ScoreEntry) (m : JsMap Best) :
  foldl (bestStep day) m l = foldl obsStep m ((λ e, (e, day)) <$> l).
Proof. revert m. induction l as [|e l IH]; intros m; simpl; [done|]. by rewrite IH. Qed.

(** The nested loops are one fold over the observations. *)
Lemma userBestScores_fold ds scoreType gameId :
  userBestScores ds scoreType gameId =
    foldl obsStep [] (observations ds scoreType gameId).
Proof.
  unfold userBestScores, observations. generalize (@nil (string * Best)).
  induction ds as [|day ds IH]; intros m; [done|].
  rewrite bind_cons, foldl_app. simpl. rewrite IH. f_equal.
  unfold dayStep. destruct (gameOf day gameId); [apply bestStep_fold | done].
Qed.

Lemma userBestScores_NoDup ds scoreType gameId :
  NoDup (userBestScores ds scoreType gameId).*1.
Proof. rewrite userBestScores_fold. apply keepBest_fold_NoDup. constructor. Qed.

Lemma userBestScores_KeyOK ds scoreType gameId :
  KeyOK b_username (userBestScores ds scoreType gameId).
Proof.
  rewrite userBestScores_fold. apply keepBest_fold_KeyOK; [done | constructor].
Qed.

Lemma App_byScoreDesc_key (a b : Best) : byScoreDesc a b = b_score b - b_score a.
Proof. reflexivity. Qed.

Lemma sorted_lookup ds scoreType gameId i :
  sorted ds scoreType gameId !! i =
    (λ entry, {| rank := Z.of_nat i + 1; username := b_username entry;
                 score := b_score entry |})
      <$> take 10 (arraySort byScoreDesc
                     (mapValues (userBestScores ds scoreType gameId))) !! i.
Proof. unfold sorted. by rewrite list_lookup_imap. Qed.

Lemma sorted_scores ds scoreType gameId :
  score <$> sorted ds scoreType gameId =
    b_score <$> take 10 (arraySort byScoreDesc
                           (mapValues (userBestScores ds scoreType gameId))).
Proof.
  unfold sorted. rewrite fmap_imap.
  by rewrite <- (imap_const b_score (take 10 _)).
Qed.

Lemma sorted_usernames ds scoreType gameId :
  username <$> sorted ds scoreType gameId =
    b_username <$> take 10 (arraySort byScoreDesc
                              (mapValues (userBestScores ds scoreType gameId))).
Proof.
  unfold sorted. rewrite fmap_imap.
  by rewrite <- (imap_const b_username (take 10 _)).
Qed.

(** Every game of [GAMES] gets its leaderboard. *)
Lemma aggregateScores_lookup ds scoreType gameId :
  gameId ∈ GAMES →
  aggregateScores ds scoreType !! gameId = Some (aggregateGame ds scoreType gameId).
Proof.
  unfold aggregateScores, GAMES. simpl. intros Hin.
  repeat (apply elem_of_cons in Hin as [->|Hin]);
    [| | | | by apply elem_of_nil in Hin];
    rewrite ?lookup_insert_eq; try done;
    repeat (rewrite lookup_insert_ne by done); by rewrite lookup_insert_eq.
Qed.

(** A tracked best is in the output with the rank of its position, or it
    is behind ten entries with at least its score. *)
Lemma sorted_cases ds scoreType gameId (b : Best) :
  b ∈ mapValues (userBestScores ds scoreType gameId) →
  (∃ i, sorted ds scoreType gameId !! i
          = Some (mkScore (Z.of_nat i + 1) (b_username b) (b_score b)))
  ∨ ((b_username b ∉ username <$> sorted ds scoreType gameId)
     ∧ length (sorted ds scoreType gameId) = 10%nat
     ∧ ∀ a, a ∈ sorted ds scoreType gameId → b_score b ≤ score a).
Proof.
  intros Hb.
  destruct (take_sort_cases b_score byScoreDesc App_byScoreDesc_key b_username 10
              _ b (KeyOK_values_NoDup b_username _
                     (userBestScores_KeyOK ds scoreType gameId)
                     (userBestScores_NoDup ds scoreType gameId)) Hb)
    as [(i & Hi)|(Hu & Hlen & Hall)].
  - left. exists i. by rewrite sorted_lookup, Hi.
  - right. rewrite sorted_usernames. split_and!; [done| |].
    + unfold sorted. by rewrite length_imap.
    + intros a (i & Hi)%list_elem_of_lookup_1. rewrite sorted_lookup in Hi.
      destruct (_ !! i) as [y|] eqn:Hy; simplify_eq/=.
      apply Hall. by eapply list_elem_of_lookup_2.
Qed.

Lemma observations_observed ds scoreType gameId :
  observations ds scoreType gameId = AggSpec.observed scoreType gameId ds.
Proof.
  unfold observations, AggSpec.observed.
  induction ds as [|day ds IH]; [done|]. rewrite !bind_cons, IH. f_equal.
  unfold gameOf, AggSpec.selected, sourceScores, block.
  destruct (games day) as [g|]; simpl; [|done].
  destruct (g !! gameId) as [gd|]; simpl; [|done].
  destruct scoreType, (today gd) as [[? [?|]]|], (yesterday gd) as [[? [?|]]|],
    (highscores gd) as [[? [?|]]|]; done.
Qed.

(** The first observation with the greatest score is determined. *)
Lemma first_max_unique {C} (sc : C → Z) (pre pre' post post' : list C) (c c' : C) :
  pre ++ c :: post = pre' ++ c' :: post' →
  (∀ x, x ∈ pre → sc x < sc c) → (∀ x, x ∈ post → sc x ≤ sc c) →
  (∀ x, x ∈ pre' → sc x < sc c') → (∀ x, x ∈ post' → sc x ≤ sc c') →
  c = c'.
Proof.
  revert pre'. induction pre as [|a pre IH]; intros pre' Heq Hpre Hpost Hpre' Hpost'.
  - destruct pre' as [|a' pre']; simpl in Heq.
    + by injection Heq.
    + injection Heq as Hc Hp.
      assert (sc c < sc c') by (apply Hpre'; rewrite Hc; left).
      assert (sc c' ≤ sc c) by (apply Hpost; rewrite Hp; apply elem_of_app; right; left).
      lia.
  - destruct pre' as [|a' pre']; simpl in Heq.
    + injection Heq as Hc Hp.
      assert (sc c' < sc c) by (apply Hpre; rewrite Hc; left).
      assert (sc c ≤ sc c') by (apply Hpost'; rewrite <- Hp; apply elem_of_app; right; left).
      lia.
    + injection Heq as _ Hp. apply (IH pre'); [done| |done| |done].
      * intros x Hx. apply Hpre. by right.
      * intros x Hx. apply Hpre'. by right.
Qed.

(** What the map holds for a user is the user's best. *)
Lemma userBestScores_get ds scoreType gameId name (b : Best) :
  mapGet name (userBestScores ds scoreType gameId) = Some b ↔
  b_username b = name
  ∧ AggSpec.IsBest (AggSpec.observed scoreType gameId ds) name (b_score b) (b_date b).
Proof.
  pose proof (keepBest_fold_get (λ c : ScoreEntry * string, username c.1)
                bestOf (λ c, score c.1) b_score
                (observations ds scoreType gameId) [] name) as Hget.
  rewrite <- userBestScores_fold in Hget. simpl in Hget.
  rewrite observations_observed in Hget. rewrite Hget. clear Hget.
  set (obs := filter (λ c, username c.1 = name) (AggSpec.observed scoreType gameId ds)).
  assert (∀ c, c ∈ obs → username c.1 = name) as Hname.
  { intros c Hc. by apply list_elem_of_filter in Hc as [? _]. }
  split.
  - intros Hr.
    apply (keepBest1_fold_first_max bestOf (λ c, score c.1) b_score) in Hr
      as [[? _]|(pre & c & post & Heq & -> & Hpre & Hpost & _)]; [done| |done].
    assert (c ∈ obs) as Hc by (rewrite Heq; apply elem_of_app; right; left).
    split; [by apply Hname|]. exists pre, c, post. by split_and!.
  - intros [Hb (pre & c & post & Heq & Hs & Hd & Hpre & Hpost)]. fold obs in Heq.
    destruct (foldl (keepBest1 bestOf (λ c, score c.1) b_score) None obs)
      as [r|] eqn:Hr.
    2:{ apply keepBest1_fold_None in Hr as [_ Hnil]; [|done].
        rewrite Hnil in Heq. by destruct pre. }
    apply (keepBest1_fold_first_max bestOf (λ c, score c.1) b_score) in Hr
      as [[? _]|(pre' & c' & post' & Heq' & -> & Hpre' & Hpost' & _)]; [done| |done].
    rewrite Heq in Heq'.
    assert (c = c') as <-.
    { apply (first_max_unique (λ c, score c.1) pre pre' post post'); try done;
        intros x Hx; rewrite Hs; auto. }
    assert (c ∈ obs) as Hc by (rewrite Heq; apply elem_of_app; right; left).
    f_equal. destruct b. unfold bestOf. simpl in *. rewrite (Hname c Hc).
    congruence.
Qed.

(** C5. For a game of [GAMES], with the observations taken from the
    selected blocks of the supplied days: the output has at most 10
    entries, names no user twice, is ranked 1, 2, ... in order and sorted
    by score in non-increasing order; every entry carries a user's best
    score -- the greatest score observed for that user; and every user
    observed has the best tracked with the date of the first day that
    attained it (a stored best is replaced only by a strictly greater
    score), and is in the output with that best and the rank of its
    position unless ten entries with at least that score come before. *)
Theorem aggregate_best_per_user ds scoreType gameId :
  let obs := AggSpec.observed scoreType gameId ds in
  gameId ∈ GAMES →
  ∃ out,
    l_scores <$> aggregateScores ds scoreType !! gameId = Some out
    ∧ (length out ≤ 10)%nat
    ∧ NoDup (username <$> out)
    ∧ (∀ i a, out !! i = Some a → rank a = Z.of_nat i + 1)
    ∧ (∀ i j a b, (i < j)%nat → out !! i = Some a → out !! j = Some b →
         score b ≤ score a)
    ∧ (∀ a, a ∈ out → ∃ d, AggSpec.IsBest obs (username a) (score a) d)
    ∧ (∀ name s d, AggSpec.IsBest obs name s d →
         mapGet name (userBestScores ds scoreType gameId) = Some (mkBest name s d)
         ∧ ((∃ i, out !! i = Some (mkScore (Z.of_nat i + 1) name s))
            ∨ ((name ∉ username <$> out)
               ∧ length out = 10%nat
               ∧ ∀ a, a ∈ out → s ≤ score a))).
Proof.
  intros obs Hgame. exists (sorted ds scoreType gameId).
  assert (NoDup (b_username <$> mapValues (userBestScores ds scoreType gameId)))
    as Hnd.
  { apply (KeyOK_values_NoDup b_username);
      [apply userBestScores_KeyOK | apply userBestScores_NoDup]. }
  split_and!.
  - by rewrite aggregateScores_lookup.
  - unfold sorted. rewrite length_imap, length_take. lia.
  - rewrite sorted_usernames. eapply sublist_NoDup.
    + rewrite <- (arraySort_Permutation byScoreDesc) in Hnd. exact Hnd.
    + apply fmap_sublist, sublist_take.
  - intros i a. rewrite sorted_lookup.
    destruct (_ !! i); intros ?; by simplify_eq/=.
  - intros i j a b Hij Ha Hb.
    assert (Desc (score <$> sorted ds scoreType gameId)) as Hs.
    { rewrite sorted_scores, fmap_take.
      apply Desc_take, (arraySort_Desc b_score byScoreDesc App_byScoreDesc_key). }
    eapply (Desc_lookup _ i j); [exact Hs | done | ..];
      rewrite list_lookup_fmap; [by rewrite Ha | by rewrite Hb].
  - intros a (i & Hi)%list_elem_of_lookup_1. rewrite sorted_lookup in Hi.
    destruct (_ !! i) as [b|] eqn:Hb; simplify_eq/=.
    assert (b ∈ mapValues (userBestScores ds scoreType gameId)) as Hv.
    { rewrite <- (arraySort_Permutation byScoreDesc).
      eapply elem_of_sublist; [|apply (sublist_take _ 10)].
      by eapply list_elem_of_lookup_2. }
    apply (KeyOK_value_get b_username) in Hv;
      [|apply userBestScores_KeyOK | apply userBestScores_NoDup].
    apply userBestScores_get in Hv as [_ Hbest]. by exists (b_date b).
  - intros name s d Hbest.
    assert (mapGet name (userBestScores ds scoreType gameId) = Some (mkBest name s d))
      as Hget by (by apply userBestScores_get).
    split; [done|].
    assert (mkBest name s d ∈ mapValues (userBestScores ds scoreType gameId)) as Hv.
    { apply mapGet_Some_elem in Hget. apply list_elem_of_fmap.
      by exists (name, mkBest name s d). }
    apply sorted_cases in Hv. exact Hv.
Qed.

(** The scenario of the specification: Ariel scores 100, 250 and 180 on
    three successive days; the aggregate has Ariel at 250, and the tracked
    best carries the date of the second day. (The entries of the output
    have no date field.) *)
Lemma aggregate_best_per_user_witness :
  let obs := AggSpec.observed PYesterday "pirates" SampleWeek.threeDays in
  "pirates" ∈ GAMES
  ∧ (score <$> obs.*1) = [100; 90; 250; 90; 180; 90]
  ∧ AggSpec.IsBest obs "Ariel" 250 "2025-03-02"
  ∧ l_scores <$> aggregateScores SampleWeek.threeDays PYesterday !! "pirates"
    = Some [mkScore 1 "Ariel" 250; mkScore 2 "Belle" 90]
  ∧ mapGet "Ariel" (userBestScores SampleWeek.threeDays PYesterday "pirates")
    = Some (mkBest "Ariel" 250 "2025-03-02").
Proof.
  intros obs.
  assert ("pirates" ∈ GAMES) as Hgame by (right; left).
  assert (AggSpec.IsBest obs "Ariel" 250 "2025-03-02") as Hbest.
  { exists [(mkScore 1 "Ariel" 100, "2025-03-01"%string)],
           (mkScore 1 "Ariel" 250, "2025-03-02"%string),
           [(mkScore 1 "Ariel" 180, "2025-03-03"%string)].
    split_and!; [reflexivity | reflexivity | reflexivity | |].
    - intros x ->%list_elem_of_singleton. simpl. lia.
    - intros x ->%list_elem_of_singleton. simpl. lia. }
  destruct (aggregate_best_per_user SampleWeek.threeDays PYesterday "pirates" Hgame)
    as (out & Hout & _ & _ & _ & _ & _ & Hall).
  destruct (Hall "Ariel"%string 250 "2025-03-02"%string Hbest) as [Hget _].
  split_and!; [exact Hgame | reflexivity | exact Hbest | | exact Hget].
  rewrite Hout. f_equal. vm_compute in Hout. by injection Hout as <-.
Defined.

End Aggregate.

(** ** app.js: the month query *)

Section Month.
Import App.

(** C6 does not hold of the code: the dates of the month query run from
    the 1st through the reference date itself ([dateStr <= pacificNow]),
    so the snapshot of the reference date is aggregated too. On 5 March
    2025, with that day's file as the only one, the month view is not
    empty. *)
Theorem month_includes_reference_date :
  getCurrentMonthDates "2025-03-05"
    = ["2025-03-01"; "2025-03-02"; "2025-03-03"; "2025-03-04"; "2025-03-05"]
  ∧ loadMultipleDays SampleMonth.store (getCurrentMonthDates "2025-03-05")
    = [SampleWeek.piratesDay "2025-03-05" 250]
  ∧ (λ boards, l_scores <$> boards !! "pirates")
      <$> monthScores SampleMonth.store "2025-03-05"
    = Some (Some [mkScore 1 "Ariel" 250; mkScore 2 "Belle" 90]).
Proof. split_and!; by vm_compute. Qed.

(** The same on every day of a month: the list ends with the reference
    date. *)
Lemma month_dates_end_with_reference_date :
  Forall (λ day,
            last (getCurrentMonthDates (SampleMonth.february day))
              = Some (SampleMonth.february day)
            ∧ length (getCurrentMonthDates (SampleMonth.february day)) = day)
    (seq 1 29).
Proof.
  apply (bool_decide_unpack _). by vm_compute.
Qed.

End Month.

(** ** The user index: last seen and last appearance *)

Section LastSeen.
Import SeedUsers.

Lemma rankOf_nonzero entry idx : rankOf entry idx ≠ 0.
Proof.
  unfold rankOf. destruct (rank entry) as [r|]; [|lia].
  destruct (Z.eqb_spec r 0); lia.
Qed.

Lemma rankOf_observed entry idx : rankOf entry idx = observedRank entry idx.
Proof.
  unfold rankOf, observedRank. destruct (rank entry) as [r|]; [|done].
  destruct (Z.eqb_spec r 0); by case_decide.
Qed.

Lemma observedRank_nonzero entry idx : observedRank entry idx ≠ 0.
Proof. rewrite <- rankOf_observed. apply rankOf_nonzero. Qed.

Lemma storedRank_recorded user : UserOK user → storedRank user = recordedRank user.
Proof.
  intros [_ Hr]. unfold storedRank, recordedRank.
  destruct (lastAppearance user) as [a|]; [|done].
  destruct (Z.eqb_spec (a_rank a) 0) as [H0|]; [|done]. by destruct (Hr a).
Qed.

(** The rule of the [if] / [else if], on a record. *)
Lemma updateLastSeen_rule (gameId : string) (rank : Z) (date : string)
    (user : User) :
  UserOK user →
  let update := newerThanLastSeen date user
                ∨ (lastSeen user = Some date ∧ rank < recordedRank user) in
  let user' := updateLastSeen gameId rank date user in
  (update → lastSeen user' = Some date
            ∧ lastAppearance user' = Some (mkAppearance gameId rank date))
  ∧ (¬ update → user' = user)
  ∧ avatar user' = avatar user
  ∧ games user' = games user.
Proof.
  intros HOK update user'. pose proof (storedRank_recorded user HOK) as Hsr.
  destruct HOK as [Hls _]. subst update user'.
  unfold updateLastSeen, newerThanLastSeen. rewrite Hsr.
  destruct (lastSeen user) as [ls|] eqn:Hseen; simpl.
  - rewrite (bool_decide_eq_false_2 (ls = "")) by by apply Hls. simpl.
    destruct (String.ltb ls date) eqn:Hlt; simpl.
    + split_and!; [done | | done..]. intros H. destruct H. by left.
    + destruct (decide (date = ls)) as [->|Hne].
      * rewrite bool_decide_eq_true_2 by done. simpl.
        destruct (Z.ltb_spec rank (recordedRank user)).
        -- simpl. split_and!; [done | | done..].
           intros Hno. destruct Hno. by right.
        -- split_and!; [|done..]. intros [?|[_ ?]]; [done | lia].
      * rewrite bool_decide_eq_false_2 by congruence. simpl.
        split_and!; [|done..]. intros [?|[? _]]; [done | congruence].
  - split_and!; [done | | done..]. intros H. destruct H. by left.
Qed.

Lemma updateAvatar_seen rank topAvatar user :
  lastSeen (updateAvatar rank topAvatar user) = lastSeen user
  ∧ lastAppearance (updateAvatar rank topAvatar user) = lastAppearance user.
Proof. unfold updateAvatar. by destruct (_ && _). Qed.

(** The rule, for one run of the callback. *)
Lemma processEntry_rule (date gameId : string) (topAvatar : option string)
    (users : gmap string User) (idx : nat) (entry : ScoreEntry) :
  let name := username entry in
  let rank := observedRank entry idx in
  let old := default newUser (users !! name) in
  let update := newerThanLastSeen date old
                ∨ (lastSeen old = Some date ∧ rank < recordedRank old) in
  getUser users name ≠ Inherited →
  UserOK old →
  ∃ users' user',
    processEntry date gameId topAvatar users idx entry = Scraper.Returned users'
    ∧ users' !! name = Some user'
    ∧ (update → lastSeen user' = Some date
                ∧ lastAppearance user' = Some (mkAppearance gameId rank date))
    ∧ (¬ update → lastSeen user' = lastSeen old
                  ∧ lastAppearance user' = lastAppearance old)
    ∧ (∀ other, other ≠ name → users' !! other = users !! other).
Proof.
  intros name rank old update Hfound HOK.
  assert (rankOf entry idx = rank) as Hrank by apply rankOf_observed.
  assert (match getUser users name with Own user => user | _ => newUser end = old)
    as Hold.
  { unfold getUser, old. destruct (users !! name); [done|]. by destruct (inherited name). }
  unfold processEntry. rewrite Hrank. fold name.
  destruct (getUser users name) as [user| |] eqn:Hget; [|done|]; rewrite Hold;
    (eexists _, _; split; [reflexivity|]; rewrite lookup_insert_eq;
     split; [reflexivity|]; simpl).
  all: destruct (updateAvatar_seen rank topAvatar old) as [Hs Ha].
  all: assert (UserOK (updateAvatar rank topAvatar old)) as HOK'
         by (unfold updateAvatar; by destruct (_ && _)).
  all: destruct (updateLastSeen_rule gameId rank date _ HOK') as (Hupd & Hno & _).
  all: unfold newerThanLastSeen, recordedRank in Hupd, Hno; rewrite Hs, Ha in Hupd, Hno.
  all: split_and!;
         [ intros Hu; by apply Hupd
         | intros Hn; rewrite (Hno Hn); by rewrite Hs, Ha
         | intros other Hne; by rewrite lookup_insert_ne ].
Qed.

(** The well-formedness assumed of user records is an invariant of the
    script: it holds of a fresh record and every processed entry keeps it,
    as long as the daily files carry non-empty dates. *)
Lemma newUser_OK : UserOK newUser.
Proof. split; by intros ? [=]. Qed.

Lemma updateLastSeen_OK gameId rank date user :
  date ≠ "" → rank ≠ 0 → UserOK user → UserOK (updateLastSeen gameId rank date user).
Proof.
  intros Hd Hr [H1 H2]. unfold updateLastSeen.
  destruct (_ || _); [|destruct (_ && _)]; split; simpl; try done;
    intros ? [= <-]; done.
Qed.

Lemma recordEntry_OK date gameId topAvatar (users : gmap string User) idx entry :
  date ≠ "" →
  map_Forall (λ _ user, UserOK user) users →
  map_Forall (λ _ user, UserOK user)
    (recordEntry date gameId topAvatar users idx entry).
Proof.
  intros Hd Hall. unfold recordEntry. apply map_Forall_insert_2; [|done].
  assert (UserOK (default newUser (users !! username entry))) as H0.
  { destruct (users !! username entry) as [u|] eqn:Hu; simpl;
      [by apply (Hall _ _ Hu) | apply newUser_OK]. }
  assert (UserOK (updateAvatar (rankOf entry idx) topAvatar
                    (default newUser (users !! username entry)))) as H1.
  { unfold updateAvatar. by destruct (_ && _). }
  pose proof (updateLastSeen_OK gameId (rankOf entry idx) date _ Hd
                (rankOf_nonzero entry idx) H1) as H2.
  exact H2.
Qed.

End LastSeen.

(** * Further properties of the code *)

Lemma filter_all {A} (P : A → Prop) `{∀ x, Decision (P x)} (l : list A) :
  (∀ x, x ∈ l → P x) → filter P l = l.
Proof.
  induction l as [|x l IH]; intros Hl; [done|].
  rewrite filter_cons, decide_True by (apply Hl; left).
  f_equal. apply IH. intros y ?. apply Hl. by right.
Qed.

(** ** Strings: the order used on dates, and splitting *)

Section StringOrder.

Lemma ascii_compare_refl (c : ascii) : Ascii.compare c c = Eq.
Proof. apply N.compare_refl. Qed.

Lemma string_compare_refl (s : string) : String.compare s s = Eq.
Proof. induction s as [|c s IH]; simpl; [done|]. by rewrite ascii_compare_refl. Qed.

Lemma string_compare_prefix (p a b : string) :
  String.compare (p +:+ a) (p +:+ b) = String.compare a b.
Proof. induction p as [|c p IH]; simpl; [done|]. by rewrite ascii_compare_refl. Qed.

Lemma string_leb_prefix (p a b : string) :
  String.leb (p +:+ a) (p +:+ b) = String.leb a b.
Proof. unfold String.leb. by rewrite string_compare_prefix. Qed.

Lemma string_compare_lt_trans (a b c : string) :
  String.compare a b = Lt → String.compare b c = Lt → String.compare a c = Lt.
Proof.
  revert b c. induction a as [|x a IH]; intros [|y b] [|z c]; simpl; try done.
  unfold Ascii.compare.
  destruct (N.compare_spec (N_of_ascii x) (N_of_ascii y)) as [Hxy|Hxy|Hxy];
    destruct (N.compare_spec (N_of_ascii y) (N_of_ascii z)) as [Hyz|Hyz|Hyz];
    try done; intros H1 H2.
  - rewrite Hxy, Hyz, N.compare_refl. by eapply IH.
  - rewrite Hxy. by apply N.compare_lt_iff in Hyz as ->.
  - rewrite <- Hyz. by apply N.compare_lt_iff in Hxy as ->.
  - assert (N_of_ascii x < N_of_ascii z)%N as Hxz by lia.
    by apply N.compare_lt_iff in Hxz as ->.
Qed.

Lemma string_ltb_trans (a b c : string) :
  String.ltb a b = true → String.ltb b c = true → String.ltb a c = true.
Proof.
  unfold String.ltb. intros H1 H2.
  destruct (String.compare a b) eqn:Hab; try done.
  destruct (String.compare b c) eqn:Hbc; try done.
  by rewrite (string_compare_lt_trans a b c).
Qed.

Lemma string_ltb_irrefl (a : string) : String.ltb a a = false.
Proof. unfold String.ltb. by rewrite string_compare_refl. Qed.

(** Trichotomy, in the form the date comparisons need. *)
Lemma string_ltb_false (a b : string) :
  String.ltb a b = false → a = b ∨ String.ltb b a = true.
Proof.
  unfold String.ltb. rewrite (String.compare_antisym a b).
  destruct (String.compare b a) eqn:Hba; simpl; try done; intros _.
  - left. symmetry. by apply String.compare_eq_iff.
  - by right.
Qed.

End StringOrder.

(** ** app.js: the dates of the month query, in general *)

Section MonthDates.
Import App.

Lemma split_noDash (s : string) : noDash s → split "-" s = [s].
Proof.
  induction s as [|c s IH]; simpl; [done|]. intros [Hc Hs].
  rewrite (proj2 (Ascii.eqb_neq c "-")) by done. by rewrite IH.
Qed.

Lemma split_first (s rest : string) :
  noDash s → split "-" (s +:+ String "-" rest) = s :: split "-" rest.
Proof.
  induction s as [|c s IH]; simpl; [done|]. intros [Hc Hs].
  rewrite (proj2 (Ascii.eqb_neq c "-")) by done. by rewrite IH.
Qed.

Lemma toNumber_noDash (s : string) (n : Z) : toNumber s = Some n → noDash s.
Proof.
  unfold toNumber. intros H.
  assert (is_Some (NilEmpty.uint_of_string s)) as Hs.
  { destruct (NilEmpty.uint_of_string s); [eauto | done]. }
  clear H. induction s as [|c s IH]; simpl; [done|].
  simpl in Hs. split.
  - intros ->. by destruct Hs as [? Hs], (NilEmpty.uint_of_string s).
  - apply IH. destruct (NilEmpty.uint_of_string s); [eauto|].
    destruct Hs as [? Hs]. exfalso. revert Hs.
    destruct c as [[] [] [] [] [] [] [] []]; done.
Qed.

Lemma lastDayOfMonth_bounds (y m : Z) : 28 ≤ lastDayOfMonth y m ≤ 31.
Proof.
  unfold lastDayOfMonth, daysIn.
  repeat match goal with |- context [if ?b then _ else _] => destruct b end; lia.
Qed.

(** On two-digit day numbers the string order is the numeric order. *)
Lemma padded_days_order (a b : nat) :
  (1 ≤ a ≤ 31)%nat → (1 ≤ b ≤ 31)%nat →
  String.leb (padStart2 (toString a)) (padStart2 (toString b)) = (a <=? b)%nat.
Proof.
  intros Ha Hb.
  assert (Forall (λ a, Forall (λ b,
            String.leb (padStart2 (toString a)) (padStart2 (toString b))
            = (a <=? b)%nat) (seq 1 31)) (seq 1 31)) as Hall.
  { apply (bool_decide_unpack _). by vm_compute. }
  rewrite Forall_forall in Hall.
  specialize (Hall a). rewrite Forall_forall in Hall.
  apply Hall; apply elem_of_seq; lia.
Qed.

Lemma filter_seq_le (d n : nat) :
  (d ≤ n)%nat → filter (λ day, (day <=? d)%nat) (seq 1 n) = seq 1 d.
Proof.
  intros Hdn. replace n with (d + (n - d))%nat by lia.
  rewrite seq_app, filter_app, filter_all.
  - rewrite filter_none; [by rewrite app_nil_r|].
    intros x Hx%elem_of_seq Hle. apply Is_true_true, Nat.leb_le in Hle. lia.
  - intros x Hx%elem_of_seq. apply Is_true_true, Nat.leb_le. lia.
Qed.

End MonthDates.

Lemma filter_ext_in {A} (P Q : A → Prop) `{∀ x, Decision (P x)}
    `{∀ x, Decision (Q x)} (l : list A) :
  (∀ x, x ∈ l → P x ↔ Q x) → filter P l = filter Q l.
Proof.
  induction l as [|x l IH]; intros Hl; [done|].
  rewrite !filter_cons. rewrite IH by (intros y ?; apply Hl; by right).
  destruct (decide (P x)) as [HP|HP], (decide (Q x)) as [HQ|HQ]; try done;
    exfalso; apply (Hl x (list_elem_of_here _ _)) in HP || apply HP, (Hl x);
    try done; left.
Qed.

Lemma filter_fmap_list {A B} (f : A → B) (P : B → Prop) `{∀ x, Decision (P x)}
    (l : list A) :
  filter P (f <$> l) = f <$> filter (λ x, P (f x)) l.
Proof.
  induction l as [|x l IH]; [done|].
  rewrite fmap_cons, !filter_cons, IH. by destruct (decide (P (f x))).
Qed.

Section MonthRange.
Import App.

(** X1. For a reference date [year-month-dd] whose year and month are
    decimal numbers and whose day lies in the month, the dates of the month
    query are exactly the days from the 1st through the reference date
    itself, in ascending order. *)
Theorem month_dates_first_through_reference (year month : string) (y m : Z)
    (d : nat) :
  toNumber year = Some y →
  toNumber month = Some m →
  (1 ≤ d)%nat →
  Z.of_nat d ≤ lastDayOfMonth y m →
  getCurrentMonthDates (monthDay year month d) = monthDay year month <$> seq 1 d.
Proof.
  intros Hy Hm Hd1 Hd.
  pose proof (toNumber_noDash _ _ Hy) as Hny.
  pose proof (toNumber_noDash _ _ Hm) as Hnm.
  pose proof (lastDayOfMonth_bounds y m) as Hb.
  unfold getCurrentMonthDates.
  assert (split "-" (monthDay year month d)
          = year :: month :: split "-" (padStart2 (toString d))) as ->.
  { unfold monthDay. change ("-" +:+ ?x)%string with (String "-" x).
    rewrite split_first by done.
    change ("-" +:+ padStart2 (toString d))%string
      with (String "-" (padStart2 (toString d))).
    by rewrite split_first. }
  simpl. rewrite Hy, Hm. simpl.
  change (λ day : nat, (year +:+ "-" +:+ month +:+ "-" +:+ padStart2 (toString day))%string)
    with (monthDay year month).
  rewrite filter_fmap_list.
  rewrite (filter_ext_in _ (λ day, (day <=? d)%nat)).
  - rewrite filter_seq_le by lia. done.
  - intros day Hday%elem_of_seq. unfold monthDay.
    rewrite !string_leb_prefix, padded_days_order by lia. done.
Qed.

Lemma month_dates_first_through_reference_witness :
  toNumber "2025" = Some 2025
  ∧ toNumber "03" = Some 3
  ∧ (1 ≤ 5)%nat
  ∧ Z.of_nat 5 ≤ lastDayOfMonth 2025 3
  ∧ getCurrentMonthDates (monthDay "2025" "03" 5)
    = monthDay "2025" "03" <$> seq 1 5.
Proof.
  split_and!; [reflexivity | reflexivity | lia | by vm_compute |].
  apply (month_dates_first_through_reference "2025" "03" 2025 3 5);
    [reflexivity | reflexivity | lia | by vm_compute].
Defined.

End MonthRange.

(** ** scraper.js: more on the merge *)

Section MergeMore.
Import Scraper.
Implicit Types (R : AllTime) (D : gmap string GameData) (date g : string).

Lemma keepBest_fold_elem {C V} (keyOf : C → string) (mk : C → V)
    (scC : C → Z) (scV : V → Z) (cs : list C) (m : JsMap V) k v :
  (k, v) ∈ foldl (keepBest keyOf mk scC scV) m cs →
  (k, v) ∈ m ∨ ∃ c, c ∈ cs ∧ v = mk c.
Proof.
  revert m. induction cs as [|c cs IH]; intros m; simpl; [by left|].
  intros [Hin|(c' & ? & ?)]%IH.
  - apply keepBest_elem in Hin as [?|?]; simplify_eq; [|by left].
    right. exists c. split; [left | done].
  - right. exists c'. split; [by right | done].
Qed.

(** X2. A merge never removes a game and never touches a game that the
    incoming day lacks: the games on record afterwards are the old ones
    together with the incoming ones, and a game absent from the day keeps
    its entry as it was. *)
Theorem merge_keeps_other_games R D date g :
  D !! g = None →
  games (mergeAllTime R D date) !! g = games R !! g
  ∧ dom (games (mergeAllTime R D date)) = dom (games R) ∪ dom D
  ∧ lastUpdated (mergeAllTime R D date) = date.
Proof.
  intros HD. split_and!; [by rewrite mergeAllTime_lookup, HD | | done].
  apply set_eq. intros g'. rewrite elem_of_union, !elem_of_dom, mergeAllTime_lookup.
  destruct (D !! g') as [gd|] eqn:Hg'.
  - split; [intros _; right; eauto | eauto].
  - split; [by left | intros [?|[? ?]]; done].
Qed.

Lemma merge_keeps_other_games_witness :
  Sample.day1 !! "jungle-cruise" = None
  ∧ games (mergeAllTime Sample.record1 Sample.day1 "2025-01-02") !! "jungle-cruise"
    = games Sample.record1 !! "jungle-cruise"
  ∧ dom (games (mergeAllTime Sample.record1 Sample.day1 "2025-01-02"))
    = dom (games Sample.record1) ∪ dom Sample.day1
  ∧ lastUpdated (mergeAllTime Sample.record1 Sample.day1 "2025-01-02") = "2025-01-02".
Proof.
  split; [reflexivity|].
  apply (merge_keeps_other_games Sample.record1 Sample.day1 "2025-01-02"
           "jungle-cruise").
  reflexivity.
Defined.

(** X3. Every entry of a merged list is either an entry that was on record,
    with its username, score and [achievedOn] unchanged, or an incoming
    entry stamped with the date of the merge; and its score is at least
    every incoming score of the same username. *)
Theorem merged_entry_provenance R D date g gameData existing :
  D !! g = Some gameData →
  games R !! g = Some existing →
  ∃ res, games (mergeAllTime R D date) !! g = Some res
    ∧ ∀ x, x ∈ g_scores res →
        ((∃ e, e ∈ g_scores existing ∧ e_username e = e_username x
               ∧ e_score e = e_score x ∧ achievedOn e = achievedOn x)
         ∨ (achievedOn x = date
            ∧ ∃ c, c ∈ scores (highscores gameData) ++ scores (today gameData)
                   ∧ username c = e_username x ∧ score c = e_score x))
        ∧ ∀ c, c ∈ scores (highscores gameData) ++ scores (today gameData) →
               username c = e_username x → score c ≤ e_score x.
Proof.
  intros HD HR. rewrite mergeAllTime_lookup, HD, HR. eexists. split; [done|].
  simpl. intros x (y & Hy & Hyu & Hys & Hyd)%rerank_elem.
  assert (y ∈ mapValues (mergedMap date existing gameData)) as Hyv.
  { rewrite <- (arraySort_Permutation byScoreDesc).
    eapply elem_of_sublist; [exact Hy | apply sublist_take]. }
  split.
  - apply list_elem_of_fmap in Hyv as ([k y'] & -> & Hin). simpl in *.
    rewrite mergedMap_fold in Hin.
    apply keepBest_fold_elem in Hin as [Hin|(c & Hc & ->)].
    + left. apply mapFrom_elem, list_elem_of_fmap in Hin as (e & [= -> ->] & He).
      by exists e.
    + right. split; [by rewrite <- Hyd|]. exists c. by rewrite <- Hyu, <- Hys.
  - intros c Hc Hu.
    destruct (mergedMap_dominates date existing gameData c Hc) as (e' & He' & Hle).
    apply mergedMap_value_get in Hyv. rewrite Hyu, <- Hu, He' in Hyv.
    simplify_eq. lia.
Qed.

Lemma merged_entry_provenance_witness :
  Sample.day1 !! "pirates" = Some Sample.piratesDay1
  ∧ games Sample.record1 !! "pirates" = Some Sample.pirates1
  ∧ ∃ res, games (mergeAllTime Sample.record1 Sample.day1 "2025-01-02") !! "pirates"
             = Some res
      ∧ e_username <$> g_scores res = ["Ariel"; "Chip"; "Belle"].
Proof.
  split_and!; [reflexivity..|].
  destruct (merged_entry_provenance Sample.record1 Sample.day1 "2025-01-02"
              "pirates" Sample.piratesDay1 Sample.pirates1 eq_refl eq_refl)
    as (res & Hres & _).
  exists res. split; [exact Hres|].
  vm_compute in Hres. by injection Hres as <-.
Defined.

(** X4. The first entry of a merged list has the highest score in sight:
    its score is at least every incoming score, of the highscores and of
    the today column, whatever the stored list is; and when the stored
    usernames are distinct it is at least every stored score too. *)
Theorem merged_top_is_highest R D date g gameData existing (first : AllTimeEntry) :
  D !! g = Some gameData →
  games R !! g = Some existing →
  (g_scores <$> games (mergeAllTime R D date) !! g) ≫= head = Some first →
  (∀ c, c ∈ scores (highscores gameData) ++ scores (today gameData) →
        score c ≤ e_score first)
  ∧ (NoDup (e_username <$> g_scores existing) →
     ∀ e, e ∈ g_scores existing → e_score e ≤ e_score first).
Proof.
  intros HD HR. rewrite mergeAllTime_lookup, HD, HR. simpl. intros Hhead.
  assert (∀ v, v ∈ mapValues (mergedMap date existing gameData) →
               e_score v ≤ e_score first) as Hmax.
  { intros v Hv. unfold sortedScores in Hhead.
    pose proof (arraySort_Desc e_score byScoreDesc byScoreDesc_key
                  (mapValues (mergedMap date existing gameData))) as Hs.
    rewrite <- (arraySort_Permutation byScoreDesc) in Hv.
    destruct (arraySort byScoreDesc _) as [|s0 S]; [by apply elem_of_nil in Hv|].
    simpl in Hhead. simplify_eq/=. inversion Hs as [|? ? _ Hall]; subst.
    apply elem_of_cons in Hv as [->|Hv]; [done|].
    rewrite Forall_forall in Hall. apply Hall, list_elem_of_fmap. by exists v. }
  split.
  - intros c Hc.
    destruct (mergedMap_dominates date existing gameData c Hc) as (e' & He' & Hle).
    etrans; [exact Hle|]. apply Hmax.
    apply mapGet_Some_elem in He'. apply list_elem_of_fmap.
    by exists (username c, e').
  - intros Hnd e He.
    destruct (mergedMap_stored_entry date existing gameData e Hnd He)
      as (r & Hr & Hcase).
    assert (e_score e ≤ e_score r) as Hle.
    { destruct Hcase as [[-> _]|(_ & c & _ & _ & -> & _ & _ & ?)]; simpl; lia. }
    etrans; [exact Hle|]. apply Hmax.
    apply mapGet_Some_elem in Hr. apply list_elem_of_fmap.
    by exists (e_username e, r).
Qed.

Lemma merged_top_is_highest_witness :
  let first := mkEntry 1 "Ariel" 100 "2025-01-01" in
  Sample.day1 !! "pirates" = Some Sample.piratesDay1
  ∧ games Sample.record1 !! "pirates" = Some Sample.pirates1
  ∧ NoDup (e_username <$> g_scores Sample.pirates1)
  ∧ (g_scores <$> games (mergeAllTime Sample.record1 Sample.day1 "2025-01-02")
                    !! "pirates") ≫= head = Some first
  ∧ (∀ c, c ∈ scores (highscores Sample.piratesDay1)
              ++ scores (today Sample.piratesDay1) →
          score c ≤ e_score first)
  ∧ (∀ e, e ∈ g_scores Sample.pirates1 → e_score e ≤ e_score first).
Proof.
  intros first.
  assert (NoDup (e_username <$> g_scores Sample.pirates1)) as Hnd
    by (apply (bool_decide_unpack _); vm_compute; exact I).
  assert ((g_scores <$> games (mergeAllTime Sample.record1 Sample.day1 "2025-01-02")
                          !! "pirates") ≫= head = Some first) as Hhead
    by (by vm_compute).
  destruct (merged_top_is_highest Sample.record1 Sample.day1 "2025-01-02" "pirates"
              Sample.piratesDay1 Sample.pirates1 first eq_refl eq_refl Hhead)
    as [Hin Hst].
  split_and!; [reflexivity | reflexivity | exact Hnd | exact Hhead | exact Hin
              | exact (Hst Hnd)].
Defined.

End MergeMore.

(** ** The user index: a whole run *)

Section SeedRunFacts.
Import SeedUsers SeedRun.

Lemma foldl_bind {A B S} (f : S → B → S) (g : A → list B) (s : S) (l : list A) :
  foldl f s (l ≫= g) = foldl (λ s x, foldl f s (g x)) s l.
Proof.
  revert s. induction l as [|x l IH]; intros s; [done|].
  rewrite bind_cons, foldl_app. apply IH.
Qed.

Lemma foldl_ext_fun {A S} (f g : S → A → S) (s : S) (l : list A) :
  (∀ s x, f s x = g s x) → foldl f s l = foldl g s l.
Proof. intros H. revert s. induction l; intros s; simpl; [done|]. by rewrite H. Qed.

Lemma forEach_imap {S A B} (f : S → B → S) (h : nat → A → B) (s : S)
    (k : nat) (l : list A) :
  forEach (λ s i x, f s (h i x)) s k l = foldl f s (imap (λ i, h (k + i)%nat) l).
Proof.
  revert s k. induction l as [|x l IH]; intros s k; simpl; [done|].
  rewrite IH, Nat.add_0_r. f_equal. apply imap_ext. intros i y _. simpl.
  f_equal. lia.
Qed.

(** The nested loops are one fold over the visits. *)
Lemma recordAll_visits files : recordAll files = foldl visit ∅ (visits files).
Proof.
  unfold recordAll, visits. rewrite foldl_bind. apply foldl_ext_fun.
  intros users data. unfold recordFile, fileVisits.
  destruct (f_games data) as [games|]; [|done].
  rewrite foldl_bind. apply foldl_ext_fun. intros users' gameId.
  unfold recordGame, gameVisits. destruct (games !! gameId) as [gameData|]; [|done].
  rewrite foldl_bind. apply foldl_ext_fun. intros users'' period.
  unfold recordPeriod, periodVisits.
  destruct (periodOf gameData period) as [pd|]; [|done].
  destruct (p_scores pd) as [l|]; [|done]. simpl.
  apply (forEach_imap visit (mkVisit (f_date data) gameId (p_topAvatar pd))).
Qed.

(** A visit touches the record of its user only. *)
Lemma visit_lookup users v u :
  visit users v !! u =
    if decide (v_user v = u) then visitUser (users !! u) v else users !! u.
Proof.
  unfold visit, recordEntry, visitUser, v_user, v_rank, v_score.
  rewrite rankOf_observed. case_decide as Hu.
  - subst u. by rewrite lookup_insert_eq.
  - by rewrite lookup_insert_ne.
Qed.

Lemma visits_lookup (vs : list Visit) users u :
  foldl visit users vs !! u =
    foldl visitUser (users !! u) (filter (λ v, v_user v = u) vs).
Proof.
  revert users. induction vs as [|v vs IH]; intros users; simpl; [done|].
  rewrite IH, visit_lookup, filter_cons. by case_decide.
Qed.

(** *** The run with its failures *)

Lemma forOf_app {S A} (f : S → A → Scraper.Outcome S) (s : S) (l1 l2 : list A) :
  forOf f s (l1 ++ l2)
  = match forOf f s l1 with
    | Scraper.Returned s' => forOf f s' l2
    | Scraper.Thrown e => Scraper.Thrown e
    end.
Proof.
  revert s. induction l1 as [|x l1 IH]; intros s; simpl; [done|].
  destruct (f s x); [apply IH | done].
Qed.

Lemma forOf_ext {S A} (f g : S → A → Scraper.Outcome S) (s : S) (l : list A) :
  (∀ s x, f s x = g s x) → forOf f s l = forOf g s l.
Proof.
  intros H. revert s. induction l as [|x l IH]; intros s; simpl; [done|].
  rewrite H. destruct (g s x); [apply IH | done].
Qed.

Lemma forOf_bind {A B S} (f : S → B → Scraper.Outcome S) (g : A → list B) (s : S)
    (l : list A) :
  forOf f s (l ≫= g) = forOf (λ s x, forOf f s (g x)) s l.
Proof.
  revert s. induction l as [|x l IH]; intros s; [done|].
  rewrite bind_cons, forOf_app. simpl. destruct (forOf f s (g x)); [apply IH | done].
Qed.

Lemma forEachM_imap {S A B} (f : S → B → Scraper.Outcome S) (h : nat → A → B)
    (s : S) (k : nat) (l : list A) :
  forEachM (λ s i x, f s (h i x)) s k l = forOf f s (imap (λ i, h (k + i)%nat) l).
Proof.
  revert s k. induction l as [|x l IH]; intros s k; simpl; [done|].
  rewrite Nat.add_0_r. destruct (f s (h k x)); [|done].
  rewrite IH. f_equal. apply imap_ext. intros i y _. simpl. f_equal. lia.
Qed.

(** The nested loops run the callback on the visits, in order. *)
Lemma seedUsers_visits files : seedUsers files = forOf visitM ∅ (visits files).
Proof.
  unfold seedUsers, visits. rewrite forOf_bind. apply forOf_ext.
  intros users data. unfold processFile, fileVisits.
  destruct (f_games data) as [games|]; [|done].
  rewrite forOf_bind. apply forOf_ext. intros users' gameId.
  unfold processGame, gameVisits. destruct (games !! gameId) as [gameData|]; [|done].
  rewrite forOf_bind. apply forOf_ext. intros users'' period.
  unfold processPeriod, periodVisits.
  destruct (periodOf gameData period) as [pd|]; [|done].
  destruct (p_scores pd) as [l|]; [|done]. simpl.
  apply (forEachM_imap visitM (mkVisit (f_date data) gameId (p_topAvatar pd))).
Qed.

(** On an index without inherited names as keys -- the index of the run
    is one -- the callback throws exactly on an inherited name. *)
Lemma visitM_cases users v :
  (∀ name, inherited name = true → users !! name = None) →
  visitM users v
  = if inherited (v_user v) then Scraper.Thrown Scraper.TypeError
    else Scraper.Returned (visit users v).
Proof.
  intros Hkeys. unfold visitM, visit, processEntry, recordEntry, getUser, v_user.
  destruct (inherited (username (v_entry v))) eqn:Hin.
  - by rewrite (Hkeys _ Hin).
  - by destruct (users !! username (v_entry v)).
Qed.

Lemma visit_keys users v :
  (∀ name, inherited name = true → users !! name = None) →
  inherited (v_user v) = false →
  ∀ name, inherited name = true → visit users v !! name = None.
Proof.
  intros Hkeys Hv name Hname. unfold visit, recordEntry.
  rewrite lookup_insert_ne; [by apply Hkeys|]. unfold v_user in Hv. congruence.
Qed.

Lemma forOf_visits users (vs : list Visit) :
  (∀ name, inherited name = true → users !! name = None) →
  forOf visitM users vs
  = if forallb (λ v, negb (inherited (v_user v))) vs
    then Scraper.Returned (foldl visit users vs)
    else Scraper.Thrown Scraper.TypeError.
Proof.
  revert users. induction vs as [|v vs IH]; intros users Hkeys; simpl; [done|].
  rewrite visitM_cases by done.
  destruct (inherited (v_user v)) eqn:Hv; simpl; [done|].
  apply IH. by apply visit_keys.
Qed.

(** The run completes when no visited username is an inherited name, with
    the index that the loops build, and throws otherwise. *)
Lemma seedUsers_outcome files :
  seedUsers files
  = if forallb (λ v, negb (inherited (v_user v))) (visits files)
    then Scraper.Returned (recordAll files)
    else Scraper.Thrown Scraper.TypeError.
Proof.
  rewrite seedUsers_visits, recordAll_visits. apply forOf_visits.
  intros name _. apply lookup_empty.
Qed.

Lemma seedUsers_completes files :
  (∀ v, v ∈ visits files → inherited (v_user v) = false) →
  seedUsers files = Scraper.Returned (recordAll files).
Proof.
  intros Hnone. rewrite seedUsers_outcome.
  assert (forallb (λ v, negb (inherited (v_user v))) (visits files) = true) as ->;
    [|done].
  apply forallb_forall. intros v Hv. by rewrite (Hnone v) by by apply list_elem_of_In.
Qed.

Lemma seedUsers_Returned files users :
  seedUsers files = Scraper.Returned users → users = recordAll files.
Proof.
  rewrite seedUsers_outcome. destruct (forallb _ _); [|done]. by intros [= <-].
Qed.

End SeedRunFacts.

Section SeedRunInvariants.
Import SeedUsers SeedRun.

(** The three outcomes of the [if] / [else if] on [lastSeen]. *)
Lemma updateLastSeen_cases gameId rank date user :
  UserOK user →
  let user' := updateLastSeen gameId rank date user in
  let appearance := mkAppearance gameId rank date in
  (newerThanLastSeen date user
   ∧ lastSeen user' = Some date ∧ lastAppearance user' = Some appearance)
  ∨ (lastSeen user = Some date ∧ rank < recordedRank user
     ∧ lastSeen user' = Some date ∧ lastAppearance user' = Some appearance)
  ∨ (¬ newerThanLastSeen date user
     ∧ ¬ (lastSeen user = Some date ∧ rank < recordedRank user)
     ∧ user' = user).
Proof.
  intros HOK user' appearance. pose proof (storedRank_recorded user HOK) as Hsr.
  destruct HOK as [Hls _]. subst user' appearance.
  unfold updateLastSeen, newerThanLastSeen. rewrite Hsr.
  destruct (lastSeen user) as [ls|] eqn:Hseen; simpl; [|by left].
  rewrite (bool_decide_eq_false_2 (ls = "")) by by apply Hls. simpl.
  destruct (String.ltb ls date) eqn:Hlt; simpl; [by left|].
  destruct (decide (date = ls)) as [->|Hne].
  - rewrite bool_decide_eq_true_2 by done. simpl.
    destruct (Z.ltb_spec rank (recordedRank user)).
    + right. by left.
    + right. right. split_and!; [done | | done]. intros [_ ?]. lia.
  - rewrite bool_decide_eq_false_2 by congruence. simpl.
    right. right. split_and!; [done | | done]. intros [? _]. congruence.
Qed.

Lemma seen_inv_step vs v user :
  v_date v ≠ "" →
  (vs = [] ∧ user = None ∨ ∃ u, user = Some u ∧ SeenInv vs u) →
  ∃ u', visitUser user v = Some u' ∧ SeenInv (vs ++ [v]) u'.
Proof.
  intros Hd Hprev. eexists. split; [reflexivity|].
  assert (UserOK (default newUser user)) as H0.
  { destruct Hprev as [[_ ->]|(u & -> & [? _])]; [apply newUser_OK | done]. }
  assert (UserOK (updateAvatar (v_rank v) (v_topAvatar v) (default newUser user)))
    as H1.
  { unfold updateAvatar. by destruct (_ && _). }
  set (base := updateAvatar (v_rank v) (v_topAvatar v) (default newUser user)) in *.
  assert (lastSeen base = lastSeen (default newUser user)
          ∧ lastAppearance base = lastAppearance (default newUser user))
    as [Hbs Hba].
  { unfold base, updateAvatar. by destruct (_ && _). }
  split.
  { exact (updateLastSeen_OK (v_game v) (v_rank v) (v_date v) _ Hd
             (observedRank_nonzero _ _) H1). }
  simpl.
  destruct (updateLastSeen_cases (v_game v) (v_rank v) (v_date v) base H1)
    as [(Hnew & Hs & Ha)|[(Hsame & Hlt & Hs & Ha)|(Hnn & Hns & Heq)]].
  - (* a newer date, or the first visit *)
    exists (v_date v), (mkAppearance (v_game v) (v_rank v) (v_date v)).
    split_and!; [done | done | done | | |].
    + exists v. split_and!; [apply elem_of_app; right; left | done..].
    + intros w [Hw| ->%list_elem_of_singleton]%elem_of_app;
        [|apply string_ltb_irrefl].
      destruct Hprev as [[-> _]|(u & -> & _ & d & a & Hd0 & _ & _ & _ & Hmax & _)];
        [by apply elem_of_nil in Hw|].
      unfold newerThanLastSeen in Hnew. rewrite Hbs in Hnew. simpl in Hnew.
      rewrite Hd0 in Hnew. specialize (Hmax w Hw).
      destruct (String.ltb (v_date v) (v_date w)) eqn:Hvw; [|done].
      by rewrite (string_ltb_trans _ _ _ Hnew Hvw) in Hmax.
    + intros w [Hw| ->%list_elem_of_singleton]%elem_of_app Hwd; [|simpl; lia].
      destruct Hprev as [[-> _]|(u & -> & _ & d & a & Hd0 & _ & _ & _ & Hmax & _)];
        [by apply elem_of_nil in Hw|].
      unfold newerThanLastSeen in Hnew. rewrite Hbs in Hnew. simpl in Hnew.
      rewrite Hd0 in Hnew. specialize (Hmax w Hw). rewrite Hwd in Hmax. congruence.
  - (* the same date, a better rank *)
    destruct Hprev as [[_ ->]|(u & -> & _ & d & a & Hd0 & Ha0 & Had & _ & Hmax & Hmin)].
    { by rewrite Hbs in Hsame. }
    rewrite Hbs in Hsame. simpl in Hsame. rewrite Hd0 in Hsame.
    injection Hsame as Hdv. subst d.
    unfold recordedRank in Hlt. rewrite Hba in Hlt. simpl in Hlt. rewrite Ha0 in Hlt.
    exists (v_date v), (mkAppearance (v_game v) (v_rank v) (v_date v)).
    split_and!; [done | done | done | | |].
    + exists v. split_and!; [apply elem_of_app; right; left | done..].
    + intros w [Hw| ->%list_elem_of_singleton]%elem_of_app;
        [by apply Hmax | apply string_ltb_irrefl].
    + intros w [Hw| ->%list_elem_of_singleton]%elem_of_app Hwd; simpl; [|lia].
      specialize (Hmin w Hw Hwd). lia.
  - (* nothing changes *)
    destruct Hprev as [[_ ->]|(u & -> & _ & d & a & Hd0 & Ha0 & Had & Hex & Hmax & Hmin)].
    { exfalso. apply Hnn. unfold newerThanLastSeen. by rewrite Hbs. }
    rewrite Heq, Hbs, Hba. simpl.
    unfold newerThanLastSeen in Hnn. rewrite Hbs in Hnn. simpl in Hnn.
    rewrite Hd0 in Hnn. apply not_true_is_false in Hnn.
    exists d, a. split_and!; [done | done | done | | |].
    + destruct Hex as (w & ? & ?). exists w. split; [apply elem_of_app; by left | done].
    + intros w [Hw| ->%list_elem_of_singleton]%elem_of_app; [by apply Hmax | done].
    + intros w [Hw| ->%list_elem_of_singleton]%elem_of_app Hwd; [by apply Hmin|].
      destruct (Z.le_gt_cases (a_rank a) (v_rank v)) as [?|Hgt]; [done|].
      exfalso. apply Hns. rewrite Hbs. simpl. split; [congruence|].
      unfold recordedRank. rewrite Hba. simpl. rewrite Ha0. lia.
Qed.

Lemma seen_inv_fold vs :
  (∀ v, v ∈ vs → v_date v ≠ "") →
  vs = [] ∧ foldl visitUser None vs = None
  ∨ ∃ u, foldl visitUser None vs = Some u ∧ SeenInv vs u.
Proof.
  induction vs as [|v vs IH] using rev_ind; intros Hd; [by left|].
  right. rewrite foldl_app. simpl.
  apply seen_inv_step.
  - apply Hd, elem_of_app. right. left.
  - destruct IH as [[-> ->]|(u & -> & ?)]; [| |right; eauto].
    + intros w Hw. apply Hd, elem_of_app. by left.
    + by left.
Qed.

(** A record exists exactly when a visit was made. *)
Lemma seen_inv_fold_any (vs : list Visit) :
  vs = [] ∧ foldl visitUser None vs = None ∨ ∃ u, foldl visitUser None vs = Some u.
Proof.
  induction vs as [|v vs IH] using rev_ind; [by left|].
  right. rewrite foldl_app. simpl. eauto.
Qed.

End SeedRunInvariants.

Section SeedRunResults.
Import SeedUsers SeedRun.

Lemma visits_date files v :
  v ∈ visits files → ∃ f, f ∈ files ∧ v_date v = f_date f.
Proof.
  unfold visits. intros (f & Hv & Hf)%list_elem_of_bind. exists f. split; [done|].
  unfold fileVisits in Hv. destruct (f_games f) as [games|];
    [|by apply elem_of_nil in Hv].
  apply list_elem_of_bind in Hv as (g & Hv & _). unfold gameVisits in Hv.
  destruct (games !! g) as [gd|]; [|by apply elem_of_nil in Hv].
  apply list_elem_of_bind in Hv as (p & Hv & _). unfold periodVisits in Hv.
  destruct (periodOf gd p) as [pd|]; [|by apply elem_of_nil in Hv].
  apply elem_of_lookup_imap in Hv as (i & e & -> & _). done.
Qed.

Lemma recordAll_user files u :
  recordAll files !! u
    = foldl visitUser None (filter (λ v, v_user v = u) (visits files)).
Proof. by rewrite recordAll_visits, visits_lookup, lookup_empty. Qed.

Lemma lastSeen_of_run (files : list DailyFile)
    (users : gmap string User) (u : string) (user : User) :
  (∀ f, f ∈ files → f_date f ≠ "") →
  seedUsers files = Scraper.Returned users →
  users !! u = Some user →
  ∃ d, lastSeen user = Some d
    ∧ (∃ v, v ∈ visits files ∧ v_user v = u ∧ v_date v = d)
    ∧ ∀ v, v ∈ visits files → v_user v = u → String.ltb d (v_date v) = false.
Proof.
  intros Hdates ->%seedUsers_Returned Hu. rewrite recordAll_user in Hu.
  destruct (seen_inv_fold (filter (λ v, v_user v = u) (visits files)))
    as [[_ Hnone]|(u' & Hu' & _ & d & a & Hd & _ & _ & (w & Hw & Hwd & _) & Hmax & _)].
  - intros v [_ Hv]%list_elem_of_filter.
    destruct (visits_date files v Hv) as (f & Hf & ->). by apply Hdates.
  - congruence.
  - rewrite Hu in Hu'. injection Hu' as <-. exists d. split_and!; [done | |].
    + apply list_elem_of_filter in Hw as [? ?]. by exists w.
    + intros v Hv Hvu. apply Hmax, list_elem_of_filter. by split.
Qed.

(** X5. A run over well-formed daily files with non-empty dates, in
    whatever order, none of whose visited usernames is the name of an inherited property,
    completes; and in its index the [lastSeen] of a user is the latest date
    on which the user was visited: it is the date of one of the user's
    visits and no visit of the user has a later date. *)
Theorem seed_lastSeen_is_latest (files : list DailyFile) :
  (∀ f, f ∈ files → f_date f ≠ "") →
  (∀ v, v ∈ visits files → inherited (v_user v) = false) →
  ∃ users, seedUsers files = Scraper.Returned users
    ∧ ∀ u user, users !! u = Some user →
        ∃ d, lastSeen user = Some d
          ∧ (∃ v, v ∈ visits files ∧ v_user v = u ∧ v_date v = d)
          ∧ ∀ v, v ∈ visits files → v_user v = u → String.ltb d (v_date v) = false.
Proof.
  intros Hdates Hnone. exists (recordAll files).
  split; [by apply seedUsers_completes|]. intros u user.
  apply lastSeen_of_run; [done | by apply seedUsers_completes].
Qed.

Lemma seed_files_dated :
  ∀ f, f ∈ SampleSeed.twoFiles → f_date f ≠ "".
Proof. apply Forall_forall, (bool_decide_unpack _). by vm_compute. Qed.

Lemma seed_run_completes :
  seedUsers SampleSeed.twoFiles = Scraper.Returned (recordAll SampleSeed.twoFiles).
Proof. rewrite seedUsers_outcome. reflexivity. Qed.

Lemma seed_names_found :
  ∀ v, v ∈ visits SampleSeed.twoFiles → inherited (v_user v) = false.
Proof. apply Forall_forall, (bool_decide_unpack _). by vm_compute. Qed.

Lemma seed_lastSeen_is_latest_witness :
  (∀ f, f ∈ SampleSeed.twoFiles → f_date f ≠ "")
  ∧ (∀ v, v ∈ visits SampleSeed.twoFiles → inherited (v_user v) = false)
  ∧ ∃ users user,
      seedUsers SampleSeed.twoFiles = Scraper.Returned users
      ∧ users !! "Ariel" = Some user
      ∧ ∃ d, lastSeen user = Some d
          ∧ (∃ v, v ∈ visits SampleSeed.twoFiles ∧ v_user v = "Ariel" ∧ v_date v = d)
          ∧ ∀ v, v ∈ visits SampleSeed.twoFiles → v_user v = "Ariel" →
                 String.ltb d (v_date v) = false.
Proof.
  split_and!; [apply seed_files_dated | apply seed_names_found |].
  destruct (seed_lastSeen_is_latest SampleSeed.twoFiles seed_files_dated
              seed_names_found) as (users & Hrun & Hall).
  destruct (users !! "Ariel") as [user|] eqn:Hu.
  - exists users, user. split_and!; [exact Hrun | exact Hu | exact (Hall _ _ Hu)].
  - exfalso. rewrite seed_run_completes in Hrun. injection Hrun as <-.
    by vm_compute in Hu.
Defined.

Lemma lastAppearance_of_run (files : list DailyFile)
    (users : gmap string User) (u : string) (user : User) :
  (∀ f, f ∈ files → f_date f ≠ "") →
  seedUsers files = Scraper.Returned users →
  users !! u = Some user →
  ∃ a, lastAppearance user = Some a
    ∧ lastSeen user = Some (a_date a)
    ∧ (∃ v, v ∈ visits files ∧ v_user v = u ∧ v_date v = a_date a
            ∧ v_game v = a_game a ∧ v_rank v = a_rank a)
    ∧ ∀ v, v ∈ visits files → v_user v = u → v_date v = a_date a →
           a_rank a ≤ v_rank v.
Proof.
  intros Hdates ->%seedUsers_Returned Hu. rewrite recordAll_user in Hu.
  destruct (seen_inv_fold (filter (λ v, v_user v = u) (visits files)))
    as [[_ Hnone]|(u' & Hu' & _ & d & a & Hd & Ha & Had
                   & (w & Hw & Hwd & Hwg & Hwr) & _ & Hmin)].
  - intros v [_ Hv]%list_elem_of_filter.
    destruct (visits_date files v Hv) as (f & Hf & ->). by apply Hdates.
  - congruence.
  - rewrite Hu in Hu'. injection Hu' as <-. exists a. subst d.
    split_and!; [done | done | |].
    + apply list_elem_of_filter in Hw as [? ?]. by exists w.
    + intros v Hv Hvu Hvd. apply Hmin; [|done]. apply list_elem_of_filter. by split.
Qed.

(** X6. Such a run completes, and in its index the [lastAppearance] of a
    user is one of the user's visits on the [lastSeen] date, with its game
    and rank, and no visit of the user on that date has a lower rank. *)
Theorem seed_lastAppearance_is_best_of_last_day (files : list DailyFile) :
  (∀ f, f ∈ files → f_date f ≠ "") →
  (∀ v, v ∈ visits files → inherited (v_user v) = false) →
  ∃ users, seedUsers files = Scraper.Returned users
    ∧ ∀ u user, users !! u = Some user →
        ∃ a, lastAppearance user = Some a
          ∧ lastSeen user = Some (a_date a)
          ∧ (∃ v, v ∈ visits files ∧ v_user v = u ∧ v_date v = a_date a
                  ∧ v_game v = a_game a ∧ v_rank v = a_rank a)
          ∧ ∀ v, v ∈ visits files → v_user v = u → v_date v = a_date a →
                 a_rank a ≤ v_rank v.
Proof.
  intros Hdates Hnone. exists (recordAll files).
  split; [by apply seedUsers_completes|]. intros u user.
  apply lastAppearance_of_run; [done | by apply seedUsers_completes].
Qed.

Lemma seed_lastAppearance_is_best_of_last_day_witness :
  (∀ f, f ∈ SampleSeed.twoFiles → f_date f ≠ "")
  ∧ (∀ v, v ∈ visits SampleSeed.twoFiles → inherited (v_user v) = false)
  ∧ ∃ users user,
      seedUsers SampleSeed.twoFiles = Scraper.Returned users
      ∧ users !! "Ariel" = Some user
      ∧ lastAppearance user = Some (mkAppearance "pirates" 1 "2025-03-02")
      ∧ ∃ a, lastAppearance user = Some a
          ∧ lastSeen user = Some (a_date a)
          ∧ (∃ v, v ∈ visits SampleSeed.twoFiles ∧ v_user v = "Ariel"
                  ∧ v_date v = a_date a ∧ v_game v = a_game a
                  ∧ v_rank v = a_rank a)
          ∧ ∀ v, v ∈ visits SampleSeed.twoFiles → v_user v = "Ariel" →
                 v_date v = a_date a → a_rank a ≤ v_rank v.
Proof.
  split_and!; [apply seed_files_dated | apply seed_names_found |].
  destruct (seed_lastAppearance_is_best_of_last_day SampleSeed.twoFiles
              seed_files_dated seed_names_found) as (users & Hrun & Hall).
  pose proof Hrun as Hrun'. rewrite seed_run_completes in Hrun'.
  injection Hrun' as <-.
  destruct (recordAll SampleSeed.twoFiles !! "Ariel") as [user|] eqn:Hu;
    [|by vm_compute in Hu].
  exists (recordAll SampleSeed.twoFiles), user.
  split_and!; [exact Hrun | exact Hu | | exact (Hall _ _ Hu)].
  vm_compute in Hu. by injection Hu as <-.
Defined.

Lemma recordAll_users (files : list DailyFile) (u : string) :
  is_Some (recordAll files !! u) ↔ ∃ v, v ∈ visits files ∧ v_user v = u.
Proof.
  rewrite recordAll_user.
  destruct (seen_inv_fold_any (filter (λ v, v_user v = u) (visits files)))
    as [[Hnil Hnone]|[u' Hsome]].
  - rewrite Hnone. split; [by intros [? ?]|]. intros (v & Hv & Hvu).
    assert (v ∈ filter (λ v, v_user v = u) (visits files)) as Hin
      by (apply list_elem_of_filter; by split).
    rewrite Hnil in Hin. by apply elem_of_nil in Hin.
  - rewrite Hsome. split; [|eauto]. intros _.
    destruct (filter (λ v, v_user v = u) (visits files)) as [|v l] eqn:Hl.
    + done.
    + assert (v ∈ filter (λ v, v_user v = u) (visits files)) as Hin
        by (rewrite Hl; left).
      apply list_elem_of_filter in Hin as [? ?]. eauto.
Qed.

(** X8. For daily files that parse to well-formed snapshots (the [games]
    mapping, a game, a period and its [scores] may each be missing; a
    [scores] list holds entries with a username and a score): the run over
    the files throws, and writes no index, exactly when some visited
    username is the name of a property inherited from [Object.prototype]
    ([constructor], [toString], ...); otherwise it completes, and the index
    has a record for exactly the usernames that were visited. *)
Theorem seed_users_are_the_visited (files : list DailyFile) :
  (seedUsers files = Scraper.Thrown Scraper.TypeError
   ↔ ∃ v, v ∈ visits files ∧ inherited (v_user v) = true)
  ∧ ((∀ v, v ∈ visits files → inherited (v_user v) = false)
     → ∃ users, seedUsers files = Scraper.Returned users)
  ∧ ∀ users, seedUsers files = Scraper.Returned users →
      ∀ u, is_Some (users !! u) ↔ ∃ v, v ∈ visits files ∧ v_user v = u.
Proof.
  rewrite seedUsers_outcome.
  destruct (forallb (λ v, negb (inherited (v_user v))) (visits files)) eqn:Hall.
  - rewrite forallb_forall in Hall. split_and!.
    + split; [done|]. intros (v & Hv & Hin). apply list_elem_of_In, Hall in Hv.
      by rewrite Hin in Hv.
    + eauto.
    + intros users [= <-] u. apply recordAll_users.
  - assert (∃ v, v ∈ visits files ∧ inherited (v_user v) = true) as Hex.
    { assert (¬ Forall (λ v, negb (inherited (v_user v)) = true) (visits files)) as Hn.
      { rewrite Forall_forall. intros H.
        assert (forallb (λ v, negb (inherited (v_user v))) (visits files) = true);
          [|congruence].
        apply forallb_forall. intros v Hv. by apply H, list_elem_of_In. }
      apply not_Forall_Exists in Hn; [|intros v; apply _].
      apply Exists_exists in Hn as (v & Hv & Hin). exists v. split; [done|].
      simpl in Hin. by destruct (inherited (v_user v)). }
    split_and!.
    + by split.
    + intros Hnone. destruct Hex as (v & Hv & Hin). by rewrite (Hnone v Hv) in Hin.
    + by intros users [=].
Qed.

End SeedRunResults.

Section LastSeenRun.
Import SeedUsers SeedRun.

Lemma visits_OK (vs : list Visit) (users : gmap string User) :
  (∀ w, w ∈ vs → v_date w ≠ "") →
  map_Forall (λ _ user, UserOK user) users →
  map_Forall (λ _ user, UserOK user) (foldl visit users vs).
Proof.
  revert users. induction vs as [|w vs IH]; intros users Hd HOK; simpl; [done|].
  apply IH.
  - intros x Hx. apply Hd. by right.
  - apply recordEntry_OK; [apply Hd; left | done].
Qed.

(** C9. During the rebuild, for every score observation that is processed
    -- a visit [v] of the loops over the daily files, for the username
    [entry.username], with the game and the date of its file and the rank
    [entry.rank || idx + 1]; [before] is the index when the loops reach it
    -- the callback returns, the run goes on with the visits that follow,
    and in the record of that user (a fresh record when there was none)
    [lastSeen] and [lastAppearance] are set together to the observation
    exactly when its date is strictly newer than the stored [lastSeen], or
    equals it while its rank is strictly lower than the rank of the stored
    [lastAppearance] (999 when there is none); otherwise both fields stay
    as they were. No other record changes. The files have non-empty
    dates, and the username is not the name of an inherited property. *)
Theorem lastSeen_update_rule (files : list DailyFile) (pre post : list Visit)
    (v : Visit) (before : gmap string User) :
  let old := default newUser (before !! v_user v) in
  let update := newerThanLastSeen (v_date v) old
                ∨ (lastSeen old = Some (v_date v) ∧ v_rank v < recordedRank old) in
  (∀ f, f ∈ files → f_date f ≠ "") →
  visits files = pre ++ v :: post →
  forOf visitM ∅ pre = Scraper.Returned before →
  inherited (v_user v) = false →
  ∃ after user',
    visitM before v = Scraper.Returned after
    ∧ seedUsers files = forOf visitM after post
    ∧ after !! v_user v = Some user'
    ∧ (update → lastSeen user' = Some (v_date v)
                ∧ lastAppearance user'
                  = Some (mkAppearance (v_game v) (v_rank v) (v_date v)))
    ∧ (¬ update → lastSeen user' = lastSeen old
                  ∧ lastAppearance user' = lastAppearance old)
    ∧ (∀ other, other ≠ v_user v → after !! other = before !! other).
Proof.
  intros old update Hdates Hvisits Hpre Hname.
  assert (before = foldl visit ∅ pre) as Hbefore.
  { rewrite forOf_visits in Hpre by (intros name _; apply lookup_empty).
    destruct (forallb _ pre); [by injection Hpre | done]. }
  assert (map_Forall (λ _ user, UserOK user) before) as HOK.
  { rewrite Hbefore. apply visits_OK; [|apply map_Forall_empty].
    intros w Hw. destruct (visits_date files w) as (f & Hf & ->); [|by apply Hdates].
    rewrite Hvisits. apply elem_of_app. by left. }
  assert (UserOK old) as Hold.
  { unfold old. destruct (before !! v_user v) as [user|] eqn:Hu; simpl;
      [by apply (HOK _ _ Hu) | apply newUser_OK]. }
  assert (getUser before (v_user v) ≠ Inherited) as Hfound.
  { unfold getUser. destruct (before !! v_user v); [done|]. by rewrite Hname. }
  destruct (processEntry_rule (v_date v) (v_game v) (v_topAvatar v) before
              (v_idx v) (v_entry v) Hfound Hold)
    as (after & user' & Hrun & Hu & Hupd & Hno & Hother).
  exists after, user'. split_and!; [exact Hrun | | exact Hu | exact Hupd | exact Hno
                                   | exact Hother].
  rewrite seedUsers_visits, Hvisits, forOf_app, Hpre. simpl.
  unfold visitM at 1. by rewrite Hrun.
Qed.

Lemma lastSeen_update_rule_witness :
  let files := SampleSeed.twoFiles in
  let pre := take 4 (visits files) in
  let post := drop 5 (visits files) in
  let v := mkVisit "2025-03-02" "pirates" (Some "top.png") 1
             (mkScore (Some 4) "Ariel" 180) in
  let before := foldl visit ∅ pre in
  (∀ f, f ∈ files → f_date f ≠ "")
  ∧ visits files = pre ++ v :: post
  ∧ forOf visitM ∅ pre = Scraper.Returned before
  ∧ inherited (v_user v) = false
  ∧ (lastSeen <$> before !! "Ariel") = Some (Some "2025-03-01")
  ∧ ∃ after user',
      visitM before v = Scraper.Returned after
      ∧ after !! "Ariel" = Some user'
      ∧ lastSeen user' = Some "2025-03-02"
      ∧ lastAppearance user' = Some (mkAppearance "pirates" 4 "2025-03-02").
Proof.
  intros files pre post v before.
  assert (visits files = pre ++ v :: post) as Hvisits by reflexivity.
  assert (forOf visitM ∅ pre = Scraper.Returned before) as Hpre.
  { unfold before. rewrite forOf_visits by (intros name _; apply lookup_empty).
    reflexivity. }
  assert (inherited (v_user v) = false) as Hname by reflexivity.
  destruct (lastSeen_update_rule files pre post v before seed_files_dated
              Hvisits Hpre Hname)
    as (after & user' & Hrun & _ & Hu & Hupd & _).
  split_and!; [apply seed_files_dated | exact Hvisits | exact Hpre | exact Hname
              | by vm_compute |].
  exists after, user'. split; [exact Hrun|]. split; [exact Hu|].
  apply Hupd. left. by vm_compute.
Defined.

End LastSeenRun.

Section SeedRunBest.
Import Js SeedUsers SeedRun.

Lemma visitUser_games user v :
  ∃ u', visitUser user v = Some u'
    ∧ games u' =
        <[v_game v :=
            let stats := default {| bestScore := 0; s_date := None; s_rank := None |}
                           (games (default newUser user) !! v_game v) in
            if bestScore stats <? v_score v
            then {| bestScore := v_score v; s_date := Some (v_date v);
                    s_rank := Some (v_rank v) |}
            else stats]> (games (default newUser user)).
Proof.
  eexists. split; [reflexivity|]. simpl.
  assert (∀ base, games (updateLastSeen (v_game v) (v_rank v) (v_date v) base)
                  = games base) as Hls.
  { intros base. unfold updateLastSeen.
    by repeat match goal with |- context [if ?b then _ else _] => destruct b end. }
  assert (games (updateAvatar (v_rank v) (v_topAvatar v) (default newUser user))
          = games (default newUser user)) as Hav.
  { unfold updateAvatar. by destruct (_ && _). }
  by rewrite Hls, Hav.
Qed.

Lemma best_inv_step vs v user :
  (vs = [] ∧ user = None ∨ ∃ u, user = Some u ∧ ∀ g, BestInv vs u g) →
  ∃ u', visitUser user v = Some u' ∧ ∀ g, BestInv (vs ++ [v]) u' g.
Proof.
  intros Hprev. destruct (visitUser_games user v) as (u' & Hu' & Hgames).
  exists u'. split; [done|]. intros g. unfold BestInv. rewrite Hgames.
  assert (v ∈ vs ++ [v]) as Hv by (apply elem_of_app; right; left).
  assert (∀ g', match games (default newUser user) !! g' with
                | None => ∀ w, w ∈ vs → v_game w ≠ g'
                | Some st =>
                    (∃ w, w ∈ vs ∧ v_game w = g')
                    ∧ (∀ w, w ∈ vs → v_game w = g' → v_score w ≤ bestScore st)
                    ∧ ((bestScore st = 0 ∧ s_date st = None ∧ s_rank st = None)
                       ∨ (0 < bestScore st
                          ∧ ∃ w, w ∈ vs ∧ v_game w = g'
                              ∧ v_score w = bestScore st
                              ∧ s_date st = Some (v_date w)
                              ∧ s_rank st = Some (v_rank w)))
                end) as Hold.
  { intros g'. destruct Hprev as [[-> ->]|(u & -> & Hinv)]; [|apply Hinv].
    simpl. rewrite lookup_empty. intros w Hw. by apply elem_of_nil in Hw. }
  destruct (decide (v_game v = g)) as [<-|Hne].
  - rewrite lookup_insert_eq. specialize (Hold (v_game v)).
    destruct (games (default newUser user) !! v_game v) as [st|]; simpl.
    + destruct Hold as ((w0 & Hw0 & Hg0) & Hbound & Hbest).
      assert (0 ≤ bestScore st) as Hpos
        by (destruct Hbest as [[-> _]|[? _]]; lia).
      destruct (Z.ltb_spec (bestScore st) (v_score v)); simpl.
      * split_and!; [by exists v | |].
        -- intros w [Hw| ->%list_elem_of_singleton]%elem_of_app Hwg; [|lia].
           specialize (Hbound w Hw Hwg). lia.
        -- right. split; [lia|]. by exists v.
      * split_and!; [by exists v | |].
        -- intros w [Hw| ->%list_elem_of_singleton]%elem_of_app Hwg; [|lia].
           by apply Hbound.
        -- destruct Hbest as [?|(? & w & Hw & ?)]; [by left|].
           right. split; [done|]. exists w. split; [|done]. apply elem_of_app. by left.
    + destruct (Z.ltb_spec 0 (v_score v)); simpl.
      * split_and!; [by exists v | |].
        -- intros w [Hw| ->%list_elem_of_singleton]%elem_of_app Hwg; [|lia].
           by destruct (Hold w Hw).
        -- right. split; [lia|]. by exists v.
      * split_and!; [by exists v | |].
        -- intros w [Hw| ->%list_elem_of_singleton]%elem_of_app Hwg; [|lia].
           by destruct (Hold w Hw).
        -- by left.
  - rewrite lookup_insert_ne by done. specialize (Hold g).
    destruct (games (default newUser user) !! g) as [st|].
    + destruct Hold as ((w0 & Hw0 & Hg0) & Hbound & Hbest). split_and!.
      * exists w0. split; [apply elem_of_app; by left | done].
      * intros w [Hw| ->%list_elem_of_singleton]%elem_of_app Hwg; [|done].
        by apply Hbound.
      * destruct Hbest as [?|(? & w & Hw & ?)]; [by left|].
        right. split; [done|]. exists w. split; [|done]. apply elem_of_app. by left.
    + intros w [Hw| ->%list_elem_of_singleton]%elem_of_app; [by apply Hold | done].
Qed.

Lemma best_inv_fold (vs : list Visit) :
  vs = [] ∧ foldl visitUser None vs = None
  ∨ ∃ u, foldl visitUser None vs = Some u ∧ ∀ g, BestInv vs u g.
Proof.
  induction vs as [|v vs IH] using rev_ind; [by left|].
  right. rewrite foldl_app. simpl. apply best_inv_step.
  destruct IH as [[-> ->]|(u & -> & ?)]; [by left | right; eauto].
Qed.

Lemma bestScore_of_run (files : list DailyFile)
    (users : gmap string User) (u g : string) (user : User) (st : GameStats) :
  seedUsers files = Scraper.Returned users →
  users !! u = Some user →
  games user !! g = Some st →
  (∀ v, v ∈ visits files → v_user v = u → v_game v = g →
        v_score v ≤ bestScore st)
  ∧ ((bestScore st = 0 ∧ s_date st = None ∧ s_rank st = None)
     ∨ (0 < bestScore st
        ∧ ∃ v, v ∈ visits files ∧ v_user v = u ∧ v_game v = g
            ∧ v_score v = bestScore st
            ∧ s_date st = Some (v_date v)
            ∧ s_rank st = Some (v_rank v))).
Proof.
  intros ->%seedUsers_Returned Hu Hst. rewrite recordAll_user in Hu.
  destruct (best_inv_fold (filter (λ v, v_user v = u) (visits files)))
    as [[_ Hnone]|(u' & Hu' & Hinv)]; [congruence|].
  rewrite Hu in Hu'. injection Hu' as <-. specialize (Hinv g).
  unfold BestInv in Hinv. rewrite Hst in Hinv.
  destruct Hinv as (_ & Hbound & Hbest). split.
  - intros v Hv Hvu Hvg. apply Hbound; [|done]. apply list_elem_of_filter. by split.
  - destruct Hbest as [?|(? & w & Hw & ? & ? & ? & ?)]; [by left|].
    right. split; [done|]. apply list_elem_of_filter in Hw as [? ?]. by exists w.
Qed.

(** X7. A run none of whose visited usernames is the name of an
    inherited property completes; and in its index the statistics of a user
    for a game bound every score visited for that user and game, and the
    best score is either 0 with no date and no rank (no positive score was
    seen) or a positive score taken, together with its date and rank, from
    one of those visits. *)
Theorem seed_bestScore_is_maximum (files : list DailyFile) :
  (∀ v, v ∈ visits files → inherited (v_user v) = false) →
  ∃ users, seedUsers files = Scraper.Returned users
    ∧ ∀ u g user st, users !! u = Some user → games user !! g = Some st →
        (∀ v, v ∈ visits files → v_user v = u → v_game v = g →
              v_score v ≤ bestScore st)
        ∧ ((bestScore st = 0 ∧ s_date st = None ∧ s_rank st = None)
           ∨ (0 < bestScore st
              ∧ ∃ v, v ∈ visits files ∧ v_user v = u ∧ v_game v = g
                  ∧ v_score v = bestScore st
                  ∧ s_date st = Some (v_date v)
                  ∧ s_rank st = Some (v_rank v))).
Proof.
  intros Hnone. exists (recordAll files).
  split; [by apply seedUsers_completes|]. intros u g user st.
  apply bestScore_of_run. by apply seedUsers_completes.
Qed.

Lemma seed_bestScore_is_maximum_witness :
  (∀ v, v ∈ visits SampleSeed.twoFiles → inherited (v_user v) = false)
  ∧ ∃ users user st,
      seedUsers SampleSeed.twoFiles = Scraper.Returned users
      ∧ users !! "Ariel" = Some user
      ∧ games user !! "pirates" = Some st
      ∧ st = mkStats 250 (Some "2025-03-01") (Some 2)
      ∧ (∀ v, v ∈ visits SampleSeed.twoFiles → v_user v = "Ariel" →
              v_game v = "pirates" → v_score v ≤ bestScore st).
Proof.
  split; [apply seed_names_found|].
  destruct (seed_bestScore_is_maximum SampleSeed.twoFiles seed_names_found)
    as (users & Hrun & Hall).
  pose proof Hrun as Hrun'. rewrite seed_run_completes in Hrun'.
  injection Hrun' as <-.
  destruct (recordAll SampleSeed.twoFiles !! "Ariel") as [user|] eqn:Hu;
    [|by vm_compute in Hu].
  destruct (games user !! "pirates") as [st|] eqn:Hst.
  2:{ vm_compute in Hu. injection Hu as <-. by vm_compute in Hst. }
  exists (recordAll SampleSeed.twoFiles), user, st.
  split_and!; [exact Hrun | exact Hu | exact Hst | |].
  - vm_compute in Hu. injection Hu as <-. vm_compute in Hst. by injection Hst as <-.
  - exact (proj1 (Hall _ _ _ _ Hu Hst)).
Defined.

Lemma avatar_of_run (files : list DailyFile)
    (users : gmap string User) (u : string) (user : User) :
  seedUsers files = Scraper.Returned users →
  users !! u = Some user →
  avatar user
    = last (filter (λ v, v_rank v = 1 ∧ truthy (v_topAvatar v))
              (filter (λ v, v_user v = u) (visits files)))
      ≫= v_topAvatar.
Proof.
  intros ->%seedUsers_Returned.
  rewrite recordAll_user. generalize (filter (λ v, v_user v = u) (visits files)).
  intros vs. revert user. induction vs as [|v vs IH] using rev_ind; [done|].
  intros user. rewrite foldl_app, filter_app. simpl. intros [= <-]. simpl.
  assert (∀ base, avatar (updateLastSeen (v_game v) (v_rank v) (v_date v) base)
                  = avatar base) as Hls.
  { intros base. unfold updateLastSeen.
    by repeat match goal with |- context [if ?b then _ else _] => destruct b end. }
  rewrite Hls. unfold updateAvatar. rewrite filter_cons, filter_nil.
  destruct (Z.eqb_spec (v_rank v) 1) as [Hr|Hr]; simpl.
  - destruct (truthy (v_topAvatar v)) eqn:Ht.
    + rewrite decide_True by done. by rewrite last_snoc.
    + rewrite decide_False by (intros [_ []]). rewrite app_nil_r.
      destruct (foldl visitUser None vs) as [u0|] eqn:Hf; simpl; [by apply IH|].
      destruct (seen_inv_fold_any vs) as [[-> _]|[? ?]]; [done | congruence].
  - rewrite decide_False by (by intros [? _]). rewrite app_nil_r.
    destruct (foldl visitUser None vs) as [u0|] eqn:Hf; simpl; [by apply IH|].
    destruct (seen_inv_fold_any vs) as [[-> _]|[? ?]]; [done | congruence].
Qed.

(** X9. A run none of whose visited usernames is the name of an
    inherited property completes; and in its index the avatar of a user is
    the [topAvatar] of the last visit in which the user had rank 1 and the
    block carried an avatar; it is [null] when there was no such visit. *)
Theorem seed_avatar_is_last_top (files : list DailyFile) :
  (∀ v, v ∈ visits files → inherited (v_user v) = false) →
  ∃ users, seedUsers files = Scraper.Returned users
    ∧ ∀ u user, users !! u = Some user →
        avatar user
        = last (filter (λ v, v_rank v = 1 ∧ truthy (v_topAvatar v))
                  (filter (λ v, v_user v = u) (visits files)))
          ≫= v_topAvatar.
Proof.
  intros Hnone. exists (recordAll files).
  split; [by apply seedUsers_completes|]. intros u user.
  apply avatar_of_run. by apply seedUsers_completes.
Qed.

Lemma seed_avatar_is_last_top_witness :
  (∀ v, v ∈ visits SampleSeed.twoFiles → inherited (v_user v) = false)
  ∧ ∃ users user,
      seedUsers SampleSeed.twoFiles = Scraper.Returned users
      ∧ users !! "Belle" = Some user
      ∧ avatar user = Some "top.png"
      ∧ avatar user
        = last (filter (λ v, v_rank v = 1 ∧ truthy (v_topAvatar v))
                  (filter (λ v, v_user v = "Belle") (visits SampleSeed.twoFiles)))
          ≫= v_topAvatar.
Proof.
  split; [apply seed_names_found|].
  destruct (seed_avatar_is_last_top SampleSeed.twoFiles seed_names_found)
    as (users & Hrun & Hall).
  pose proof Hrun as Hrun'. rewrite seed_run_completes in Hrun'.
  injection Hrun' as <-.
  destruct (recordAll SampleSeed.twoFiles !! "Belle") as [user|] eqn:Hu;
    [|by vm_compute in Hu].
  exists (recordAll SampleSeed.twoFiles), user.
  split_and!; [exact Hrun | exact Hu | | exact (Hall _ _ Hu)].
  vm_compute in Hu. by injection Hu as <-.
Defined.

End SeedRunBest.

Section SeedRanks.
Import SeedUsers SeedRun.

Lemma forEach_app {S A} (f : S → nat → A → S) (s : S) (k : nat) (l1 l2 : list A) :
  forEach f s k (l1 ++ l2) = forEach f (forEach f s k l1) (k + length l1) l2.
Proof.
  revert s k. induction l1 as [|x l1 IH]; intros s k; simpl.
  - by rewrite Nat.add_0_r.
  - rewrite IH. f_equal. lia.
Qed.

(** Induction along [forEach]: a property that depends on the number of
    elements processed. *)
Lemma forEach_ind {S A} (f : S → nat → A → S) (P : nat → S → Prop)
    (s : S) (l : list A) :
  P 0%nat s →
  (∀ i x s, l !! i = Some x → P i s → P (Datatypes.S i) (f s i x)) →
  P (length l) (forEach f s 0 l).
Proof.
  intros H0. induction l as [|x l IH] using rev_ind; intros Hstep; [done|].
  rewrite forEach_app, length_app. simpl. rewrite Nat.add_1_r.
  apply Hstep.
  - by rewrite lookup_app_r, Nat.sub_diag.
  - apply IH. intros i y s' Hi. apply Hstep. by apply lookup_app_l_Some.
Qed.

Lemma recordRank_lookup users g ranks idx name u g' :
  recordRank users g ranks idx name !! (u, g') =
    if decide ((name, g) = (u, g') ∧ tracked users name g)
    then Some (Z.of_nat idx + 1) else ranks !! (u, g').
Proof.
  unfold recordRank, tracked. destruct (users !! name) as [user|] eqn:Hn; simpl.
  - destruct (games user !! g) as [st|] eqn:Hg.
    + destruct (decide ((name, g) = (u, g'))) as [[= -> ->]|Hne].
      * rewrite lookup_insert_eq, decide_True; [done|]. split; [done|]. eauto.
      * rewrite lookup_insert_ne by done. rewrite decide_False; [done|]. by intros [? _].
    + rewrite decide_False; [done|]. by intros [_ [? ?]].
  - rewrite decide_False; [done|]. by intros [_ [? ?]].
Qed.

(** The ranks of the loops that do not throw. *)
Lemma recordRanks_spec (users : gmap string User)
    (allTimeScores : string → list string) (u g : string) :
  (∀ r, recordRanks users allTimeScores !! (u, g) = Some r →
        g ∈ GAME_IDS
        ∧ (∃ idx, r = Z.of_nat idx + 1 ∧ allTimeScores g !! idx = Some u)
        ∧ tracked users u g)
  ∧ (g ∈ GAME_IDS → u ∈ allTimeScores g → tracked users u g →
     is_Some (recordRanks users allTimeScores !! (u, g))).
Proof.
  unfold recordRanks. generalize GAME_IDS. intros ids.
  set (Sound := λ (ids' : list string) (ranks : gmap (string * string) Z),
         ∀ r, ranks !! (u, g) = Some r →
              g ∈ ids'
              ∧ (∃ idx, r = Z.of_nat idx + 1 ∧ allTimeScores g !! idx = Some u)
              ∧ tracked users u g).
  set (Complete := λ (ids' : list string) (ranks : gmap (string * string) Z),
         g ∈ ids' → u ∈ allTimeScores g → tracked users u g →
         is_Some (ranks !! (u, g))).
  assert (∀ done todo ranks, Sound done ranks → Complete done ranks →
            let final := foldl (λ ranks gameId,
                                  forEach (recordRank users gameId) ranks 0
                                    (allTimeScores gameId)) ranks todo in
            Sound (done ++ todo) final ∧ Complete (done ++ todo) final) as Hgen.
  { intros done todo. revert done.
    induction todo as [|g0 todo IH]; intros done ranks HS HC; simpl.
    { by rewrite app_nil_r. }
    replace (done ++ g0 :: todo) with ((done ++ [g0]) ++ todo)
      by (by rewrite <- app_assoc).
    apply IH.
    - (* soundness through the list of [g0] *)
      apply (forEach_ind (recordRank users g0)
               (λ _ ranks', Sound (done ++ [g0]) ranks')).
      + intros r Hr. destruct (HS r Hr) as (? & ? & ?).
        split_and!; [apply elem_of_app; by left | done..].
      + intros i name ranks' Hi HS' r. rewrite recordRank_lookup.
        case_decide as Hd; [|apply HS'].
        destruct Hd as [[= -> ->] Huser]. intros [= <-].
        split_and!; [apply elem_of_app; right; left | by exists i | done].
    - (* completeness *)
      intros [Hg| ->%list_elem_of_singleton]%elem_of_app Hu Huser.
      + apply (forEach_ind (recordRank users g0)
                 (λ _ ranks', is_Some (ranks' !! (u, g)))).
        * by apply HC.
        * intros i name ranks' _ Hsome. rewrite recordRank_lookup.
          case_decide; [eauto | done].
      + apply list_elem_of_lookup_1 in Hu as [j Hj].
        pose proof (forEach_ind (recordRank users g0)
                 (λ i ranks', (j < i)%nat → is_Some (ranks' !! (u, g0)))
                 ranks (allTimeScores g0)) as Hind.
        apply Hind.
        * lia.
        * intros i name ranks' Hi Hprev Hlt. rewrite recordRank_lookup.
          case_decide as Hd; [eauto|].
          destruct (decide (i = j)) as [->|Hij]; [|apply Hprev; lia].
          exfalso. apply Hd. rewrite Hj in Hi. injection Hi as <-. done.
        * by eapply lookup_lt_Some. }
  destruct (Hgen [] ids ∅) as [HS HC].
  - intros r Hr. by rewrite lookup_empty in Hr.
  - intros Hg. by apply elem_of_nil in Hg.
  - simpl in HS, HC. split; [exact HS | exact HC].
Qed.

Lemma rankStep_Returned users g ranks idx name ranks' :
  rankStep users g ranks idx name = Scraper.Returned ranks' →
  ranks' = recordRank users g ranks idx name.
Proof.
  unfold rankStep, recordRank, getUser.
  destruct (users !! name) as [user|]; [by intros [= <-]|].
  destruct (inherited name); [done | by intros [= <-]].
Qed.

Lemma rankStep_found users g ranks idx name :
  getUser users name ≠ Inherited →
  rankStep users g ranks idx name
  = Scraper.Returned (recordRank users g ranks idx name).
Proof.
  unfold rankStep, recordRank, getUser.
  destruct (users !! name) as [user|]; [done|]. by destruct (inherited name).
Qed.

Lemma forEachTry_inv {S A} (f : S → nat → A → Scraper.Outcome S) (ok : A → Prop)
    (Q : S → Prop) (l : list A) (s : S) (k : nat) :
  (∀ s i x s', f s i x = Scraper.Returned s' → ok x) →
  Q s →
  (∀ i x s s', l !! i = Some x →
     (∀ j y, (j < i)%nat → l !! j = Some y → ok y) →
     Q s → f s (k + i)%nat x = Scraper.Returned s' → Q s') →
  Q (forEachTry f s k l).1.
Proof.
  intros Hok. revert s k. induction l as [|x l IH]; intros s k Hs Hstep; simpl; [done|].
  destruct (f s k x) as [s'|e] eqn:Hf; [|done].
  apply IH.
  - apply (Hstep 0%nat x s s'); [done | intros; lia | done | by rewrite Nat.add_0_r].
  - intros i y t t' Hi Hbefore Ht Hft.
    apply (Hstep (Datatypes.S i) y t t'); [done | | done |].
    + intros [|j] z Hj Hz; simpl in Hz.
      * injection Hz as <-. by eapply Hok.
      * apply (Hbefore j); [lia | done].
    + by rewrite <- Nat.add_succ_comm.
Qed.

Lemma forEachTry_pure {S A} (f : S → nat → A → Scraper.Outcome S)
    (g : S → nat → A → S) (l : list A) (s : S) (k : nat) :
  (∀ s i x, x ∈ l → f s i x = Scraper.Returned (g s i x)) →
  forEachTry f s k l = (forEach g s k l, false).
Proof.
  revert s k. induction l as [|x l IH]; intros s k Hf; simpl; [done|].
  rewrite Hf by left. apply IH. intros t i y Hy. apply Hf. by right.
Qed.

(** X10. The all-time rank recorded for a user and a game is the 1-based
    position of an entry of that game's all-time list with that username;
    it is recorded only for users of the index that have statistics for
    the game, and only for an entry that no username finding an inherited
    property ([constructor], [toString], ... that are not in the index)
    precedes in the list: such a username makes the lookup throw, and the
    ranks after it are not recorded. When the lists are well formed (each
    entry has a username) and no username of the lists finds an inherited
    property, every user of the index with statistics for a game of
    [GAME_IDS] whose list names the user gets a rank. *)
Theorem seed_allTimeRank_is_position (users : gmap string User)
    (allTimeScores : string → list string) (u g : string) :
  (∀ r, allTimeRanks users allTimeScores !! (u, g) = Some r →
        g ∈ GAME_IDS
        ∧ (∃ idx, r = Z.of_nat idx + 1 ∧ allTimeScores g !! idx = Some u
                  ∧ ∀ j name, (j < idx)%nat → allTimeScores g !! j = Some name →
                              getUser users name ≠ Inherited)
        ∧ tracked users u g)
  ∧ ((∀ g' name, g' ∈ GAME_IDS → name ∈ allTimeScores g' →
        getUser users name ≠ Inherited) →
     g ∈ GAME_IDS → u ∈ allTimeScores g → tracked users u g →
     is_Some (allTimeRanks users allTimeScores !! (u, g))).
Proof.
  split.
  - unfold allTimeRanks. generalize GAME_IDS. intros ids.
    set (Sound := λ (ids' : list string) (ranks : gmap (string * string) Z),
           ∀ r, ranks !! (u, g) = Some r →
                g ∈ ids'
                ∧ (∃ idx, r = Z.of_nat idx + 1 ∧ allTimeScores g !! idx = Some u
                          ∧ ∀ j name, (j < idx)%nat →
                                      allTimeScores g !! j = Some name →
                                      getUser users name ≠ Inherited)
                ∧ tracked users u g).
    assert (∀ todo done ranks, Sound done ranks →
              Sound (done ++ todo) (rankGames users allTimeScores ranks todo)) as Hgen.
    { induction todo as [|g0 todo IH]; intros done ranks HS; simpl.
      { by rewrite app_nil_r. }
      assert (Sound (done ++ [g0])
                (forEachTry (rankStep users g0) ranks 0 (allTimeScores g0)).1) as HS1.
      { apply (forEachTry_inv _ (λ name, getUser users name ≠ Inherited)).
        - intros t i name t'. unfold rankStep.
          by destruct (getUser users name).
        - intros r Hr. destruct (HS r Hr) as (? & ? & ?).
          split_and!; [apply elem_of_app; by left | done..].
        - intros i name t t' Hi Hbefore Ht ->%rankStep_Returned r. simpl.
          rewrite recordRank_lookup. case_decide as Hd; [|apply Ht].
          destruct Hd as [[= -> ->] Huser]. intros [= <-].
          split_and!; [apply elem_of_app; right; left | by exists i | done]. }
      destruct (forEachTry (rankStep users g0) ranks 0 (allTimeScores g0))
        as [ranks' thrown]. simpl in HS1.
      replace (done ++ g0 :: todo) with ((done ++ [g0]) ++ todo)
        by (by rewrite <- app_assoc).
      destruct thrown; [|by apply IH].
      intros r Hr. destruct (HS1 r Hr) as (? & ? & ?).
      split_and!; [apply elem_of_app; by left | done..]. }
    apply (Hgen ids [] ∅). intros r Hr. by rewrite lookup_empty in Hr.
  - intros Hfound.
    assert (allTimeRanks users allTimeScores = recordRanks users allTimeScores) as ->;
      [|apply recordRanks_spec].
    unfold allTimeRanks, recordRanks. revert Hfound. generalize GAME_IDS.
    intros ids. generalize (∅ : gmap (string * string) Z).
    induction ids as [|g0 ids IH]; intros ranks Hfound; simpl; [done|].
    rewrite (forEachTry_pure _ (recordRank users g0)).
    + apply IH. intros g' name Hg'. apply Hfound. by right.
    + intros t i name Hname. apply rankStep_found, (Hfound g0); [left | done].
Qed.

Lemma seed_allTimeRank_is_position_witness :
  let users := recordAll SampleSeed.twoFiles in
  let lists := λ g : string, if decide (g = "pirates"%string)
                             then ["Belle"; "toString"; "Ariel"]%string else [] in
  let clean := λ g : string, if decide (g = "pirates"%string)
                             then ["Belle"; "Zed"; "Ariel"]%string else [] in
  allTimeRanks users lists = {[ ("Belle", "pirates")%string := 1 ]}
  ∧ allTimeRanks users clean
    = {[ ("Belle", "pirates")%string := 1; ("Ariel", "pirates")%string := 3 ]}
  ∧ (∀ g' name, g' ∈ GAME_IDS → name ∈ clean g' → getUser users name ≠ Inherited)
  ∧ is_Some (allTimeRanks users clean !! ("Ariel", "pirates")%string).
Proof.
  intros users lists clean.
  assert (∀ g' name, g' ∈ GAME_IDS → name ∈ clean g' → getUser users name ≠ Inherited)
    as Hfound.
  { intros g' name _ Hname. unfold clean in Hname. case_decide.
    - repeat (apply elem_of_cons in Hname as [->|Hname]); [by vm_compute.. |].
      by apply elem_of_nil in Hname.
    - by apply elem_of_nil in Hname. }
  split_and!; [by vm_compute | by vm_compute | exact Hfound |].
  apply (seed_allTimeRank_is_position users clean "Ariel" "pirates"); [exact Hfound | | |].
  - right. left.
  - right. right. left.
  - apply (bool_decide_unpack _). vm_compute. exact I.
Defined.

End SeedRanks.

(** ** app.js: the other periods and the cache *)

Section Queries.
Import App Query.

Lemma boards_lookup {B} (f : string → B) (gameId : string) :
  foldl (λ result g, <[g := f g]> result) (∅ : gmap string B) GAMES !! gameId
    = if decide (gameId ∈ GAMES) then Some (f gameId) else None.
Proof.
  assert (∀ (l : list string) (m : gmap string B),
            foldl (λ result g, <[g := f g]> result) m l !! gameId
            = if decide (gameId ∈ l) then Some (f gameId) else m !! gameId) as H.
  { induction l as [|g l IH]; intros m; simpl.
    - done.
    - rewrite IH. destruct (decide (gameId ∈ l)) as [Hin|Hnin].
      + rewrite decide_True; [done | by right].
      + destruct (decide (g = gameId)) as [->|Hne].
        * rewrite lookup_insert_eq, decide_True; [done | left].
        * rewrite lookup_insert_ne by done. rewrite decide_False; [done|].
          by intros [?|?]%elem_of_cons. }
  by rewrite H, lookup_empty.
Qed.

Lemma periodBoards_lookup data period gameId :
  periodBoards data period !! gameId
    = if decide (gameId ∈ GAMES) then Some (periodBoard data period gameId)
      else None.
Proof. apply (boards_lookup (periodBoard data period)). Qed.



(** X12. The yesterday view reads the [yesterday] block of the file of
    yesterday's date when that file exists and, when it does not, the
    [yesterday] block of today's file: each game of [GAMES] shows that
    block of the chosen file (an empty list when the file lacks the game,
    the block or its scores). The view has no data exactly when both
    files are missing. *)
Theorem yesterday_falls_back (store : gmap string DailyData)
    (todayDate yesterdayDate gameId : string) :
  gameId ∈ GAMES →
  yesterdayScores store todayDate yesterdayDate ≫= (λ result, result !! gameId)
    = (λ data, periodBoard data PYesterday gameId)
        <$> (match store !! yesterdayDate with
             | Some data => Some data
             | None => store !! todayDate
             end)
  ∧ (yesterdayScores store todayDate yesterdayDate = None
     ↔ store !! yesterdayDate = None ∧ store !! todayDate = None).
Proof.
  intros Hg. unfold yesterdayScores.
  destruct (store !! yesterdayDate) as [data|].
  - split; [|by split; [|intros []]].
    change (periodBoards data PYesterday !! gameId
            = Some (periodBoard data PYesterday gameId)).
    by rewrite periodBoards_lookup, decide_True.
  - destruct (store !! todayDate) as [data|]; [|done].
    split; [|by split; [|intros []]].
    change (periodBoards data PYesterday !! gameId
            = Some (periodBoard data PYesterday gameId)).
    by rewrite periodBoards_lookup, decide_True.
Qed.

Lemma yesterday_falls_back_witness :
  let store : gmap string DailyData :=
    {[ "2025-03-04" := SampleWeek.piratesDay "2025-03-04" 100;
       "2025-03-05" := SampleWeek.piratesDay "2025-03-05" 250 ]} in
  "pirates" ∈ GAMES
  ∧ l_scores <$> (yesterdayScores store "2025-03-05" "2025-03-04"
                    ≫= (λ result, result !! "pirates"))
    = Some [mkScore 1 "Ariel" 100; mkScore 2 "Belle" 90]
  ∧ l_scores <$> (yesterdayScores (delete "2025-03-04" store) "2025-03-05" "2025-03-04"
                    ≫= (λ result, result !! "pirates"))
    = Some [mkScore 1 "Ariel" 250; mkScore 2 "Belle" 90]
  ∧ yesterdayScores store "2025-03-05" "2025-03-04" ≫= (λ result, result !! "pirates")
    = (λ data, periodBoard data PYesterday "pirates")
        <$> (match store !! "2025-03-04" with
             | Some data => Some data
             | None => store !! "2025-03-05"
             end).
Proof.
  intros store.
  assert ("pirates" ∈ GAMES) as Hg by (right; left).
  split_and!; [exact Hg | by vm_compute | by vm_compute |].
  exact (proj1 (yesterday_falls_back store "2025-03-05" "2025-03-04" "pirates" Hg)).
Defined.

Lemma loadMultipleDays_nil (store : gmap string DailyData) (dates : list string) :
  loadMultipleDays store dates = [] ↔ ∀ d, d ∈ dates → store !! d = None.
Proof.
  unfold loadMultipleDays. induction dates as [|d dates IH]; simpl.
  - split; [intros _ d Hd; by apply elem_of_nil in Hd | done].
  - destruct (store !! d) as [x|] eqn:Hd.
    + split; [done|]. intros H. specialize (H d). rewrite Hd in H.
      discriminate H. left.
    + rewrite IH. split.
      * intros H d' [->|?]%elem_of_cons; auto.
      * intros H d' ?. apply H. by right.
Qed.

(** X13. The week and month views have no data exactly when none of their
    dates has a daily file: one existing file is enough for a result, and
    a missing day is skipped without failure. *)
Theorem week_and_month_no_data (store : gmap string DailyData)
    (dates : list string) (pacificNow : string) :
  (weekScores store dates = None ↔ ∀ d, d ∈ dates → store !! d = None)
  ∧ (monthScores store pacificNow = None
     ↔ ∀ d, d ∈ getCurrentMonthDates pacificNow → store !! d = None).
Proof.
  unfold weekScores, monthScores. split.
  - rewrite <- loadMultipleDays_nil. case_decide as Hl.
    + split; [|done]. intros _. by apply length_zero_iff_nil.
    + split; [done|]. intros Hn. by rewrite Hn in Hl.
  - rewrite <- loadMultipleDays_nil. case_decide as Hl.
    + split; [|done]. intros _. by apply length_zero_iff_nil.
    + split; [done|]. intros Hn. by rewrite Hn in Hl.
Qed.

Lemma aggregateGame_length dailyDataArray period gameId :
  (length (l_scores (aggregateGame dailyDataArray period gameId)) ≤ 10)%nat.
Proof.
  unfold aggregateGame, sorted. simpl. rewrite length_imap, length_take. lia.
Qed.

(** X14. Each of the five views of [getScoresForPeriod], when it has data,
    has a leaderboard for exactly the four games of [GAMES], whatever games
    the files contain; and in the week, month and all-time views no
    leaderboard has more than ten entries. *)
Theorem views_cover_exactly_the_games (store : gmap string DailyData)
    (todayDate yesterdayDate pacificNow : string) (dates : list string)
    (allTimeData : option Scraper.AllTimeJson) (gameId : string) :
  (∀ result, todayScores store todayDate yesterdayDate = Some result →
     (is_Some (result !! gameId) ↔ gameId ∈ GAMES))
  ∧ (∀ result, yesterdayScores store todayDate yesterdayDate = Some result →
       (is_Some (result !! gameId) ↔ gameId ∈ GAMES))
  ∧ (∀ result, weekScores store dates = Some result →
       (is_Some (result !! gameId) ↔ gameId ∈ GAMES)
       ∧ ∀ board, result !! gameId = Some board → (length (l_scores board) ≤ 10)%nat)
  ∧ (∀ result, monthScores store pacificNow = Some result →
       (is_Some (result !! gameId) ↔ gameId ∈ GAMES)
       ∧ ∀ board, result !! gameId = Some board → (length (l_scores board) ≤ 10)%nat)
  ∧ (∀ result, alltimeScores allTimeData store dates = Some result →
       (is_Some (result !! gameId) ↔ gameId ∈ GAMES)
       ∧ ∀ board, result !! gameId = Some board → (length (ab_scores board) ≤ 10)%nat).
Proof.
  assert (∀ data period, is_Some (periodBoards data period !! gameId) ↔ gameId ∈ GAMES)
    as Hperiod.
  { intros data period. rewrite periodBoards_lookup. case_decide; [by eauto|].
    split; [by intros [? ?] | done]. }
  assert (∀ ds period,
            (is_Some (aggregateScores ds period !! gameId) ↔ gameId ∈ GAMES)
            ∧ ∀ board, aggregateScores ds period !! gameId = Some board →
                       (length (l_scores board) ≤ 10)%nat) as Hagg.
  { intros ds period. unfold aggregateScores.
    rewrite (boards_lookup (aggregateGame ds period)). case_decide.
    - split; [by eauto|]. intros board [= <-]. apply aggregateGame_length.
    - split; [|done]. split; [by intros [? ?] | done]. }
  split_and!.
  - intros result. unfold todayScores.
    destruct (store !! todayDate) as [data|]; [by intros [= <-]|].
    destruct (store !! yesterdayDate) as [data|]; [by intros [= <-] | done].
  - intros result. unfold yesterdayScores.
    destruct (store !! yesterdayDate) as [data|]; [by intros [= <-]|].
    destruct (store !! todayDate) as [data|]; [by intros [= <-] | done].
  - intros result. unfold weekScores. case_decide; [done|]. by intros [= <-].
  - intros result. unfold monthScores. case_decide; [done|]. by intros [= <-].
  - intros result. unfold alltimeScores.
    destruct allTimeData as [allTime|]; [|done]. intros [= <-].
    rewrite (boards_lookup (alltimeBoard allTime (loadMultipleDays store dates))).
    case_decide.
    + split; [by eauto|]. intros board [= <-]. unfold alltimeBoard. simpl.
      destruct (Scraper.j_games allTime ≫= λ games, games !! gameId) as [g|];
        simpl; [rewrite length_take; lia | lia].
    + split; [|done]. split; [by intros [? ?] | done].
Qed.

(** X15. In the all-time view every game of [GAMES] shows the first ten
    entries of the list stored for it ([all-time.json] lacking the game, or
    its [games] mapping, gives an empty list). When the list has a top
    player and at least one daily file of the window exists, the avatar is
    the one [findAvatarForUser] finds for that player, highscores blocks
    first -- the avatar stored in the all-time file is not used, even if
    nothing is found; without a top player or without any daily file it is
    the stored avatar. *)
Theorem alltime_board (allTime : Scraper.AllTimeJson)
    (store : gmap string DailyData) (dates : list string) (gameId : string) :
  gameId ∈ GAMES →
  let gameData := Scraper.j_games allTime ≫= λ games, games !! gameId in
  let stored := default [] (Scraper.g_scores <$> gameData) in
  ∃ board, alltimeScores (Some allTime) store dates ≫= (λ result, result !! gameId)
             = Some board
    ∧ ab_scores board = take 10 stored
    ∧ (∀ topPlayer, head stored = Some topPlayer →
         loadMultipleDays store dates ≠ [] →
         ab_topAvatar board
         = findAvatarForUser (loadMultipleDays store dates) gameId
             (Scraper.e_username topPlayer) true)
    ∧ (head stored = None ∨ loadMultipleDays store dates = [] →
         ab_topAvatar board = gameData ≫= Scraper.g_topAvatar).
Proof.
  intros Hg gameData stored. eexists. split.
  - unfold alltimeScores. simpl.
    rewrite (boards_lookup (alltimeBoard allTime (loadMultipleDays store dates))).
    by rewrite decide_True.
  - unfold alltimeBoard. fold gameData. simpl.
    assert (default [] ((λ g, take 10 (Scraper.g_scores g)) <$> gameData)
            = take 10 stored) as ->.
    { unfold stored. by destruct gameData. }
    split_and!; [done | |].
    + intros topPlayer Htop Hdata.
      destruct stored as [|p l]; [done|]. simpl in *. injection Htop as ->.
      rewrite decide_True; [done|].
      destruct (loadMultipleDays store dates); [done | simpl; lia].
    + intros [Hnone|Hnil].
      * by destruct stored.
      * rewrite Hnil. simpl. by destruct (take 10 stored).
Qed.

Lemma alltime_board_witness :
  let game := Scraper.mkAllTimeGame "Pirates of the Caribbean" (Some "stored.png")
                [Scraper.mkEntry 1 "Chip" 500 "2025-01-01"] in
  let allTime := Scraper.mkJson (Some "2025-01-01") (Some {[ "pirates" := game ]}) in
  let store : gmap string DailyData :=
    {[ "2025-03-05" := SampleWeek.piratesDay "2025-03-05" 250 ]} in
  "pirates" ∈ GAMES
  ∧ loadMultipleDays store ["2025-03-05"] ≠ []
  ∧ ∃ board, alltimeScores (Some allTime) store ["2025-03-05"]
               ≫= (λ result, result !! "pirates") = Some board
      ∧ ab_scores board = [Scraper.mkEntry 1 "Chip" 500 "2025-01-01"]
      ∧ ab_topAvatar board = None
      ∧ Scraper.g_topAvatar game = Some "stored.png".
Proof.
  intros game allTime store.
  assert ("pirates" ∈ GAMES) as Hg by (right; left).
  assert (loadMultipleDays store ["2025-03-05"] ≠ []) as Hd by (by vm_compute).
  destruct (alltime_board allTime store ["2025-03-05"] "pirates" Hg)
    as (board & Hb & Hs & Hav & _).
  split_and!; [exact Hg | exact Hd |].
  exists board. split_and!; [exact Hb | by rewrite Hs | | reflexivity].
  rewrite (Hav (Scraper.mkEntry 1 "Chip" 500 "2025-01-01") eq_refl Hd).
  by vm_compute.
Defined.

End Queries.

Section Cache.
Import App Query.

Lemma loadDailyData_coherent (store cache : gmap string DailyData) (date : string) :
  cache ⊆ store →
  (loadDailyData store cache date).1 = store !! date
  ∧ cache ⊆ (loadDailyData store cache date).2
  ∧ (loadDailyData store cache date).2 ⊆ store
  ∧ (loadDailyData store cache date).2 !! date = store !! date.
Proof.
  intros Hsub. unfold loadDailyData.
  destruct (cache !! date) as [x|] eqn:Hc; simpl.
  - pose proof (lookup_weaken _ _ _ _ Hc Hsub) as Hs. by rewrite Hs, Hc.
  - destruct (store !! date) as [x|] eqn:Hs; simpl; [|by rewrite Hc].
    split_and!; [done | by apply insert_subseteq | | by rewrite lookup_insert_eq].
    by apply insert_subseteq_l.
Qed.

(** X16. With a cache that holds nothing but files of the store, loading
    through the cache gives what the store holds: the cached
    [loadMultipleDays] returns the existing files of the requested dates,
    in order; afterwards the cache still holds nothing but files of the
    store, has kept what it had, and has, for each requested date, the file
    when it exists and nothing when it does not. *)
Theorem cached_loads_agree_with_store (store cache : gmap string DailyData)
    (dates : list string) :
  cache ⊆ store →
  (loadMultipleDaysCached store cache dates).1 = loadMultipleDays store dates
  ∧ cache ⊆ (loadMultipleDaysCached store cache dates).2
  ∧ (loadMultipleDaysCached store cache dates).2 ⊆ store
  ∧ ∀ d, d ∈ dates → (loadMultipleDaysCached store cache dates).2 !! d = store !! d.
Proof.
  intros Hsub. unfold loadMultipleDaysCached, loadMultipleDays. simpl. split.
  { induction dates as [|d dates IH]; [done|]. cbn -[loadDailyData].
    rewrite (proj1 (loadDailyData_coherent store cache d Hsub)).
    cbn -[loadDailyData] in IH. by rewrite IH. }
  set (step := λ (c : gmap string DailyData) (date : string),
         match cache !! date, store !! date with
         | None, Some data => <[date := data]> c
         | _, _ => c
         end).
  assert (∀ c d, c ⊆ store → c ⊆ step c d ∧ step c d ⊆ store
                 ∧ (cache ⊆ c → step c d !! d = store !! d)) as Hstep.
  { intros c d Hc. unfold step.
    destruct (cache !! d) as [x|] eqn:Hcd.
    - split_and!; [done..|]. intros Hcc.
      pose proof (lookup_weaken _ _ _ _ Hcd Hcc) as H1.
      pose proof (lookup_weaken _ _ _ _ Hcd Hsub) as H2. congruence.
    - destruct (store !! d) as [x|] eqn:Hsd.
      + split_and!; [| by apply insert_subseteq_l | by rewrite lookup_insert_eq].
        apply map_subseteq_spec. intros i y Hi.
        destruct (decide (d = i)) as [->|Hne].
        * rewrite lookup_insert_eq. pose proof (lookup_weaken _ _ _ _ Hi Hc). congruence.
        * by rewrite lookup_insert_ne.
      + split_and!; [done..|]. intros _.
        destruct (c !! d) as [y|] eqn:Hy; [|done].
        pose proof (lookup_weaken _ _ _ _ Hy Hc). congruence. }
  assert (∀ ds c, cache ⊆ c → c ⊆ store →
            c ⊆ foldl step c ds ∧ foldl step c ds ⊆ store
            ∧ ∀ d, d ∈ ds → foldl step c ds !! d = store !! d) as Hfold.
  { induction ds as [|d ds IH]; intros c Hcc Hcs; simpl.
    - split_and!; [done..|]. intros d Hd. by apply elem_of_nil in Hd.
    - destruct (Hstep c d Hcs) as (H1 & H2 & H3).
      destruct (IH (step c d)) as (H4 & H5 & H6); [by etrans | done |].
      split_and!; [by etrans | done |].
      intros d' [->|Hd']%elem_of_cons; [|by apply H6].
      specialize (H3 Hcc). destruct (store !! d) as [x|] eqn:Hsd.
      + by apply (lookup_weaken _ _ _ _ H3 H4).
      + destruct (foldl step (step c d) ds !! d) as [y|] eqn:Hy; [|done].
        pose proof (lookup_weaken _ _ _ _ Hy H5). congruence. }
  apply Hfold; done.
Qed.

Lemma cached_loads_agree_with_store_witness :
  let store : gmap string DailyData :=
    {[ "2025-03-04" := SampleWeek.piratesDay "2025-03-04" 100;
       "2025-03-05" := SampleWeek.piratesDay "2025-03-05" 250 ]} in
  let cache : gmap string DailyData :=
    {[ "2025-03-04" := SampleWeek.piratesDay "2025-03-04" 100 ]} in
  let dates := ["2025-03-05"; "2025-03-03"; "2025-03-04"] in
  cache ⊆ store
  ∧ (loadMultipleDaysCached store cache dates).1
    = [SampleWeek.piratesDay "2025-03-05" 250; SampleWeek.piratesDay "2025-03-04" 100]
  ∧ (loadMultipleDaysCached store cache dates).1 = loadMultipleDays store dates
  ∧ (loadMultipleDaysCached store cache dates).2 !! "2025-03-03" = None.
Proof.
  intros store cache dates.
  assert (cache ⊆ store) as Hsub.
  { apply map_subseteq_spec. intros i x Hi.
    destruct (decide (i = "2025-03-04")) as [->|Hne].
    - vm_compute in Hi. injection Hi as <-. reflexivity.
    - unfold cache in Hi. by rewrite lookup_singleton_ne in Hi. }
  split_and!; [exact Hsub | by vm_compute | | by vm_compute].
  exact (proj1 (cached_loads_agree_with_store store cache dates Hsub)).
Defined.

End Cache.


(** ** Reading the page: characters and prefixes *)

Section ParseFacts.
Import Parse.
Implicit Types (p : ascii → bool) (s w : list ascii) (c : ascii).

Lemma takeWhile_dropWhile p s : takeWhile p s ++ dropWhile p s = s.
Proof. induction s as [|c s IH]; simpl; [done|]. destruct (p c); simpl; congruence. Qed.

Lemma takeWhile_forallb p s : forallb p (takeWhile p s) = true.
Proof.
  induction s as [|c s IH]; simpl; [done|].
  destruct (p c) eqn:Hc; simpl; [|done]. by rewrite Hc.
Qed.

Lemma dropWhile_head p s c s' : dropWhile p s = c :: s' → p c = false.
Proof.
  induction s as [|d s IH]; simpl; [done|].
  destruct (p d) eqn:Hd; [done|]. by intros [= -> _].
Qed.

Lemma dropWhile_stop p w c s :
  forallb p w = true → p c = false → dropWhile p (w ++ c :: s) = c :: s.
Proof.
  intros Hw Hc. induction w as [|d w IH]; simpl in *.
  - by rewrite Hc.
  - apply andb_true_iff in Hw as [-> Hw]. by apply IH.
Qed.

Lemma takeWhile_stop p w c s :
  forallb p w = true → p c = false → takeWhile p (w ++ c :: s) = w.
Proof.
  intros Hw Hc. induction w as [|d w IH]; simpl in *.
  - by rewrite Hc.
  - apply andb_true_iff in Hw as [-> Hw]. by rewrite IH.
Qed.

Lemma dropWhile_all p w : forallb p w = true → dropWhile p w = [].
Proof.
  induction w as [|d w IH]; simpl; [done|].
  intros [-> Hw]%andb_true_iff. by apply IH.
Qed.

Lemma takeWhile_all p w : forallb p w = true → takeWhile p w = w.
Proof.
  induction w as [|d w IH]; simpl; [done|].
  intros [-> Hw]%andb_true_iff. by rewrite IH.
Qed.

Lemma dropWhile_keeps p s c s' :
  p c = false → dropWhile p (s ++ c :: s') = dropWhile p s ++ c :: s'.
Proof.
  intros Hc. induction s as [|d s IH]; simpl.
  - by rewrite Hc.
  - destruct (p d); [done|]. done.
Qed.

Lemma dropWhile_elem p s c : p c = false → c ∈ s → c ∈ dropWhile p s.
Proof.
  intros Hc. induction s as [|d s IH]; simpl; [done|].
  intros [->|Hin]%elem_of_cons.
  - rewrite Hc. by left.
  - destruct (p d); [by apply IH | by right].
Qed.

Lemma forallb_elem p s c : forallb p s = true → c ∈ s → p c = true.
Proof.
  intros Hs Hc. rewrite forallb_forall in Hs. apply Hs.
  by apply list_elem_of_In.
Qed.

Lemma last_forallb p s c : forallb p s = true → last s = Some c → p c = true.
Proof.
  intros Hs Hc. apply (forallb_elem p s); [done|].
  apply last_Some in Hc as [s' ->]. apply elem_of_app. right. by left.
Qed.

End ParseFacts.


(** ** The avatar file name *)

Section AvatarName.
Import Parse.
Implicit Types (s u f pre hexes ext : list ascii) (c : ascii).

Local Abbreviation png := (list_ascii_of_string ".png").

Lemma dot_not_hex c : lowerAscii c = "."%char → isHexDigit c = false.
Proof.
  destruct c as [[] [] [] [] [] [] [] []]; vm_compute; intros H;
    first [reflexivity | discriminate H].
Qed.

Lemma matchAvatarAt_spec s :
  matchAvatarAt s = true ↔
  ∃ hexes ext, s = hexes ++ ext ∧ hexes ≠ []
    ∧ forallb isHexDigit hexes = true ∧ lowerAscii <$> ext = png.
Proof.
  unfold matchAvatarAt. rewrite andb_true_iff, negb_true_iff.
  rewrite bool_decide_eq_false, bool_decide_eq_true. split.
  - intros [Hne Hext]. exists (takeWhile isHexDigit s), (dropWhile isHexDigit s).
    split_and!; [by rewrite takeWhile_dropWhile | done | apply takeWhile_forallb | done].
  - intros (hexes & ext & -> & Hne & Hhex & Hext).
    destruct ext as [|d ext']; [done|].
    assert (isHexDigit d = false) as Hd.
    { apply dot_not_hex. by injection Hext. }
    rewrite takeWhile_stop, dropWhile_stop by done. done.
Qed.

Lemma matchAvatar_Some s f :
  matchAvatar s = Some f →
  ∃ pre, s = pre ++ f ∧ matchAvatarAt f = true
    ∧ ∀ c pre', pre = pre' ++ [c] → matchAvatarAt (c :: f) = false.
Proof.
  induction s as [|d s IH]; simpl.
  - done.
  - destruct (matchAvatarAt (d :: s)) eqn:Hm.
    + intros [= <-]. exists []. split_and!; [done..|].
      intros c pre' Hpre. by destruct pre'.
    + intros (pre & -> & Hf & Hlast)%IH.
      exists (d :: pre). split_and!; [done..|].
      intros c pre' Hpre. destruct pre as [|e pre] using rev_ind.
      * destruct pre' as [|? [|]]; simplify_eq/=. done.
      * clear IHpre. apply (Hlast c pre).
        rewrite app_comm_cons in Hpre. by apply app_inj_tail in Hpre as [_ ->].
Qed.

Lemma matchAvatar_skip pre f :
  matchAvatarAt f = true →
  (∀ pre1 pre2, pre = pre1 ++ pre2 → pre2 ≠ [] → matchAvatarAt (pre2 ++ f) = false) →
  matchAvatar (pre ++ f) = Some f.
Proof.
  intros Hf. induction pre as [|d pre IH]; intros Hskip; simpl.
  - destruct f; [by vm_compute in Hf|]. simpl. by rewrite Hf.
  - pose proof (Hskip [] (d :: pre) eq_refl) as Hd. simpl in Hd.
    rewrite Hd by done.
    apply IH. intros pre1 pre2 -> Hne. by apply (Hskip (d :: pre1) pre2).
Qed.

Lemma extractAvatarFilename_iff u f :
  extractAvatarFilename (Some u) = Some f ↔
  ∃ pre hexes ext,
    u = pre ++ hexes ++ ext ∧ f = hexes ++ ext ∧ hexes ≠ []
    ∧ forallb isHexDigit hexes = true ∧ lowerAscii <$> ext = png
    ∧ ∀ c, last pre = Some c → isHexDigit c = false.
Proof.
  assert (extractAvatarFilename (Some u) = matchAvatar u) as ->.
  { by destruct u. }
  split.
  - intros (pre & -> & Hf & Hlast)%matchAvatar_Some.
    pose proof Hf as (hexes & ext & -> & Hne & Hhex & Hext)%matchAvatarAt_spec.
    exists pre, hexes, ext. split_and!; [done..|].
    intros c [pre' ->]%last_Some.
    destruct (isHexDigit c) eqn:Hc; [|done].
    rewrite <- (Hlast c pre' eq_refl). symmetry.
    apply matchAvatarAt_spec. exists (c :: hexes), ext.
    split_and!; [done | done | simpl; by rewrite Hc | done].
  - intros (pre & hexes & ext & -> & -> & Hne & Hhex & Hext & Hlast).
    apply matchAvatar_skip.
    { apply matchAvatarAt_spec. by exists hexes, ext. }
    intros pre1 pre2 -> Hne2.
    destruct (matchAvatarAt (pre2 ++ hexes ++ ext)) eqn:Hm; [|done].
    apply matchAvatarAt_spec in Hm as (hexes' & ext' & Heq & _ & Hhex' & Hext').
    assert (length ext' = length ext) as Hlen.
    { rewrite <- (length_fmap lowerAscii ext'), <- (length_fmap lowerAscii ext).
      by rewrite Hext, Hext'. }
    rewrite app_assoc in Heq. apply app_inj_2 in Heq as [Heq _]; [|done].
    destruct pre2 as [|c pre2 _] using rev_ind; [done|].
    assert (isHexDigit c = true) as Hc.
    { apply (forallb_elem isHexDigit hexes'); [done|].
      rewrite <- Heq. apply elem_of_app. left. apply elem_of_app. right. by left. }
    rewrite (Hlast c) in Hc; [done|].
    rewrite app_assoc. apply last_snoc.
Qed.

(** X17. [extractAvatarFilename] gives the longest run of hexadecimal
    digits that is followed by [.png] (in either case) at the very end of
    the URL, together with that ending: a result [f] is given exactly when
    the URL is [pre ++ hexes ++ ext] with [hexes] a non-empty run of
    hexadecimal digits, [ext] equal to [.png] up to case, the character
    before the run, if any, not a hexadecimal digit, and [f] is
    [hexes ++ ext]. *)
Theorem extractAvatarFilename_spec u f :
  extractAvatarFilename (Some u) = Some f ↔
  ∃ pre hexes ext,
    u = pre ++ hexes ++ ext ∧ f = hexes ++ ext ∧ hexes ≠ []
    ∧ forallb isHexDigit hexes = true ∧ lowerAscii <$> ext = png
    ∧ ∀ c, last pre = Some c → isHexDigit c = false.
Proof. apply extractAvatarFilename_iff. Qed.

End AvatarName.


(** ** The avatars directory *)

Section AvatarFiles.
Import Parse Run.
Implicit Types (games : gmap string Game) (dir : gset string)
  (url : list ascii) (urls : list (list ascii)).

Lemma addUrl_elem urls o url :
  url ∈ addUrl urls o → url ∈ urls ∨ o = Some url.
Proof.
  unfold addUrl. destruct o as [[|c u]|]; [by left| |by left].
  case_decide; [by left|].
  intros [?| ->%list_elem_of_singleton]%elem_of_app; [by left | by right].
Qed.

Lemma avatarUrls_elem games url :
  url ∈ avatarUrls games →
  ∃ id g b, games !! id = Some g ∧ b ∈ [today g; yesterday g; highscores g]
    ∧ topAvatarUrl b = Some url.
Proof.
  unfold avatarUrls.
  assert (∀ (l : list Game) acc,
    url ∈ foldl (λ urls g,
             addUrl (addUrl (addUrl urls (topAvatarUrl (today g)))
                       (topAvatarUrl (yesterday g)))
               (topAvatarUrl (highscores g))) acc l →
    url ∈ acc ∨ ∃ g b, g ∈ l ∧ b ∈ [today g; yesterday g; highscores g]
                ∧ topAvatarUrl b = Some url) as Hfold.
  { induction l as [|g l IH]; intros acc; simpl; [by left|].
    intros [Hacc|(g' & b & Hg' & Hb & Hurl)]%IH.
    - apply addUrl_elem in Hacc as [Hacc|Hh].
      + apply addUrl_elem in Hacc as [Hacc|Hy].
        * apply addUrl_elem in Hacc as [Hacc|Ht]; [by left|].
          right. exists g, (today g). split_and!; [by left | set_solver | done].
        * right. exists g, (yesterday g). split_and!; [by left | set_solver | done].
      + right. exists g, (highscores g). split_and!; [by left | set_solver | done].
    - right. exists g', b. split_and!; [by right | done..]. }
  intros [Hnil|(g & b & Hg & Hb & Hurl)]%Hfold; [by apply elem_of_nil in Hnil|].
  apply list_elem_of_fmap in Hg as ([id g'] & -> & Hin).
  apply elem_of_map_to_list in Hin. by exists id, g', b.
Qed.

Lemma downloadAllAvatars_files (fetchOk : list ascii → bool) games dir :
  dir ⊆ downloadAllAvatars fetchOk games dir
  ∧ ∀ filename, filename ∈ downloadAllAvatars fetchOk games dir → filename ∉ dir →
      ∃ id g b pre hexes ext,
        games !! id = Some g ∧ b ∈ [today g; yesterday g; highscores g]
        ∧ topAvatarUrl b = Some (pre ++ hexes ++ ext)
        ∧ fetchOk (pre ++ hexes ++ ext) = true
        ∧ filename = string_of_list_ascii (hexes ++ ext)
        ∧ hexes ≠ [] ∧ forallb isHexDigit hexes = true
        ∧ lowerAscii <$> ext = list_ascii_of_string ".png".
Proof.
  unfold downloadAllAvatars.
  set (step := λ (dir : gset string) url,
         match extractAvatarFilename (Some url) with
         | Some (c :: f) => downloadAvatar fetchOk dir url (string_of_list_ascii (c :: f))
         | _ => dir
         end).
  assert (∀ urls dir0,
    dir0 ⊆ foldl step dir0 urls
    ∧ ∀ filename, filename ∈ foldl step dir0 urls → filename ∉ dir0 →
        ∃ url f, url ∈ urls ∧ fetchOk url = true
          ∧ extractAvatarFilename (Some url) = Some f
          ∧ filename = string_of_list_ascii f) as Hfold.
  { induction urls as [|url urls IH]; intros dir0; simpl; [done|].
    destruct (IH (step dir0 url)) as [Hsub Hnew].
    assert (dir0 ⊆ step dir0 url
            ∧ ∀ filename, filename ∈ step dir0 url → filename ∉ dir0 →
                ∃ f, fetchOk url = true ∧ extractAvatarFilename (Some url) = Some f
                  ∧ filename = string_of_list_ascii f) as [Hsub1 Hnew1].
    { unfold step. destruct (extractAvatarFilename (Some url)) as [[|c f]|]; [done| |done].
      unfold downloadAvatar. case_decide; [done|].
      destruct (fetchOk url); [|done]. split; [apply union_subseteq_r|].
      intros filename [->%elem_of_singleton|?]%elem_of_union ?; [|done].
      by exists (c :: f). }
    split; [by etrans|]. intros filename Hin Hnot.
    destruct (decide (filename ∈ step dir0 url)) as [Hstep|Hstep].
    - destruct (Hnew1 filename Hstep Hnot) as (f & ? & ? & ?).
      exists url, f. split_and!; [by left | done..].
    - destruct (Hnew filename Hin Hstep) as (url' & f & ? & ? & ? & ?).
      exists url', f. split_and!; [by right | done..]. }
  destruct (Hfold (avatarUrls games) dir) as [Hsub Hnew]. split; [done|].
  intros filename Hin Hnot.
  destruct (Hnew filename Hin Hnot) as (url & f & Hurl & Hok & Hf & ->).
  apply avatarUrls_elem in Hurl as (id & g & b & Hg & Hb & Hb').
  apply extractAvatarFilename_iff in Hf
    as (pre & hexes & ext & -> & -> & Hne & Hhex & Hext & _).
  by exists id, g, b, pre, hexes, ext.
Qed.

Lemma downloaded_avatars_subseteq (fetchOk : list ascii → bool) games dir :
  dir ⊆ downloadAllAvatars fetchOk games dir.
Proof. apply downloadAllAvatars_files. Qed.

(** X18. [downloadAllAvatars] removes no file of the avatars directory,
    and every file it adds is named by a non-empty run of hexadecimal
    digits followed by [.png] (in either case): the end of the image URL
    of some column of the page, whose download succeeded. *)
Theorem downloaded_avatars_named_by_hash (fetchOk : list ascii → bool) games dir :
  dir ⊆ downloadAllAvatars fetchOk games dir
  ∧ ∀ filename, filename ∈ downloadAllAvatars fetchOk games dir → filename ∉ dir →
      ∃ id g b pre hexes ext,
        games !! id = Some g ∧ b ∈ [today g; yesterday g; highscores g]
        ∧ topAvatarUrl b = Some (pre ++ hexes ++ ext)
        ∧ fetchOk (pre ++ hexes ++ ext) = true
        ∧ filename = string_of_list_ascii (hexes ++ ext)
        ∧ hexes ≠ [] ∧ forallb isHexDigit hexes = true
        ∧ lowerAscii <$> ext = list_ascii_of_string ".png".
Proof. apply downloadAllAvatars_files. Qed.

End AvatarFiles.


(** ** A line of a score list *)

Section ScoreLine.
Import Parse.
Implicit Types (s w name digits taken rest : list ascii) (c : ascii).

Lemma digit_not_space c : isDigit c = true → isWhiteSpace c = false.
Proof.
  destruct c as [[] [] [] [] [] [] [] []]; vm_compute; intros H;
    first [reflexivity | discriminate H].
Qed.

Lemma matchScoreTail_iff s digits :
  matchScoreTail s = Some digits ↔
  ∃ w1 w2, s = w1 ++ "-"%char :: w2 ++ digits
    ∧ forallb isWhiteSpace w1 = true ∧ forallb isWhiteSpace w2 = true
    ∧ digits ≠ [] ∧ forallb isDigit digits = true.
Proof.
  unfold matchScoreTail. split.
  - destruct (dropWhile isWhiteSpace s) as [|c s2] eqn:Hs; [done|].
    destruct (Ascii.eqb c "-") eqn:Hc; [|done]. apply Ascii.eqb_eq in Hc as ->.
    destruct (forallb isDigit (dropWhile isWhiteSpace s2)) eqn:Hd; [|done].
    simpl. case_bool_decide as Hne; [done|]. simpl. intros [= <-].
    exists (takeWhile isWhiteSpace s), (takeWhile isWhiteSpace s2).
    split_and!; [|apply takeWhile_forallb..|done|done].
    by rewrite takeWhile_dropWhile, <- Hs, takeWhile_dropWhile.
  - intros (w1 & w2 & -> & Hw1 & Hw2 & Hne & Hd).
    rewrite dropWhile_stop by done. simpl.
    destruct digits as [|d digits']; [done|].
    assert (isWhiteSpace d = false) as Hdw.
    { apply digit_not_space. simpl in Hd. by apply andb_true_iff in Hd as [-> _]. }
    rewrite dropWhile_stop by done. by rewrite Hd.
Qed.

Lemma matchScoreTail_space c s :
  isWhiteSpace c = true → matchScoreTail (c :: s) = matchScoreTail s.
Proof. intros Hc. unfold matchScoreTail. simpl. by rewrite Hc. Qed.

(** What is before the dash of a matching tail is white space. *)
Lemma matchScoreTail_before s rest digits :
  "-"%char ∈ rest → matchScoreTail (s ++ rest) = Some digits →
  forallb isWhiteSpace s = true.
Proof.
  intros Hdash. induction s as [|c s IH]; [done|]. simpl.
  destruct (isWhiteSpace c) eqn:Hc.
  - rewrite matchScoreTail_space by done. done.
  - unfold matchScoreTail. simpl. rewrite Hc.
    destruct (Ascii.eqb c "-") eqn:Hc'; [|done].
    destruct (forallb isDigit (dropWhile isWhiteSpace (s ++ rest))) eqn:Hd; [|done].
    assert (isDigit "-" = true) as Hbad; [|done].
    apply (forallb_elem isDigit (dropWhile isWhiteSpace (s ++ rest))); [done|].
    apply dropWhile_elem; [done|]. apply elem_of_app. by right.
Qed.

Lemma matchScore_complete taken name rest digits :
  name ≠ [] →
  forallb (λ c, negb (isLineTerminator c)) name = true →
  (∀ c, last name = Some c → isWhiteSpace c = false) →
  "-"%char ∈ rest → matchScoreTail rest = Some digits →
  matchScore taken (name ++ rest) = Some (taken ++ name, digits).
Proof.
  intros Hne Hlt Hlast Hdash Htail. revert taken.
  induction name as [|c name IH]; intros taken; [done|].
  simpl in *. apply andb_true_iff in Hlt as [Hc Hlt].
  apply negb_true_iff in Hc. rewrite Hc.
  destruct name as [|d name'].
  - simpl. by rewrite Htail.
  - destruct (matchScoreTail ((d :: name') ++ rest)) as [digits'|] eqn:Hm.
    + apply matchScoreTail_before in Hm; [|done].
      destruct (last (d :: name')) as [e|] eqn:He.
      * pose proof (last_forallb _ _ _ Hm He) as He'.
        rewrite (Hlast e) in He'; [done|]. by rewrite <- He.
      * by apply last_None in He.
    + rewrite IH; [by rewrite <- app_assoc|done|done|].
      intros e He. apply Hlast. by rewrite <- He.
Qed.

Lemma matchScore_sound taken rest group1 digits :
  matchScore taken rest = Some (group1, digits) →
  ∃ name rest',
    rest = name ++ rest' ∧ group1 = taken ++ name ∧ name ≠ []
    ∧ forallb (λ c, negb (isLineTerminator c)) name = true
    ∧ matchScoreTail rest' = Some digits
    ∧ ∀ c, last name = Some c → isWhiteSpace c = true → name = [c].
Proof.
  revert taken. induction rest as [|c rest IH]; intros taken; simpl; [done|].
  destruct (isLineTerminator c) eqn:Hc; [done|].
  destruct (matchScoreTail rest) as [digits'|] eqn:Hm.
  - intros [= <- <-]. exists [c], rest.
    split_and!; [done | done | done | simpl; by rewrite Hc | done |].
    by intros e [= <-] _.
  - intros (name & rest' & -> & -> & Hne & Hlt & Htail & Hlast)%IH.
    exists (c :: name), rest'.
    split_and!; [done | by rewrite <- app_assoc | done | simpl; by rewrite Hc | done |].
    intros e He Hws. exfalso.
    destruct name as [|d name']; [done|].
    assert (last (d :: name') = Some e) as He' by done.
    pose proof (Hlast e He' Hws) as [= -> ->].
    simpl in Hm. rewrite matchScoreTail_space in Hm by done. congruence.
Qed.

Lemma trim_head s c s' : trim s = c :: s' → isWhiteSpace c = false.
Proof.
  unfold trim, trimStart, trimEnd.
  destruct (dropWhile isWhiteSpace s) as [|d t] eqn:Hs; [done|].
  pose proof (dropWhile_head _ _ _ _ Hs) as Hd. simpl.
  rewrite dropWhile_keeps by done. rewrite rev_app_distr. simpl.
  by intros [= <- _].
Qed.

Lemma trim_id s c s' :
  s = c :: s' → isWhiteSpace c = false →
  (∀ d, last s = Some d → isWhiteSpace d = false) → trim s = s.
Proof.
  intros -> Hc Hlast. unfold trim, trimStart, trimEnd. simpl dropWhile at 2.
  rewrite Hc. destruct (last (c :: s')) as [d|] eqn:Hd.
  - pose proof Hd as [s0 Hs0]%last_Some. rewrite Hs0.
    rewrite rev_app_distr. simpl. rewrite (Hlast d eq_refl). simpl.
    by rewrite rev_involutive.
  - by apply last_None in Hd.
Qed.

Lemma parseItem_iff index li e :
  parseItem index li = Some e ↔
  ∃ name w1 w2 digits,
    trim li = name ++ w1 ++ "-"%char :: w2 ++ digits
    ∧ name ≠ []
    ∧ forallb (λ c, negb (isLineTerminator c)) name = true
    ∧ (∀ c, last name = Some c → isWhiteSpace c = false)
    ∧ forallb isWhiteSpace w1 = true ∧ forallb isWhiteSpace w2 = true
    ∧ digits ≠ [] ∧ forallb isDigit digits = true
    ∧ e = {| Scraper.rank := Z.of_nat index + 1;
             Scraper.username := string_of_list_ascii name;
             Scraper.score := parseInt digits |}.
Proof.
  unfold parseItem. split.
  - destruct (matchScore [] (trim li)) as [[group1 digits]|] eqn:Hm; [|done].
    intros [= <-].
    apply matchScore_sound in Hm
      as (name & rest' & Htrim & -> & Hne & Hlt & Htail & Hlast).
    apply matchScoreTail_iff in Htail as (w1 & w2 & -> & Hw1 & Hw2 & Hdn & Hd).
    destruct name as [|c name']; [done|].
    pose proof (trim_head _ _ _ Htrim) as Hc.
    assert (∀ d, last (c :: name') = Some d → isWhiteSpace d = false) as Hlast'.
    { intros d Hd'. destruct (isWhiteSpace d) eqn:Hdw; [|done].
      pose proof (Hlast d Hd' Hdw) as [= -> ->]. congruence. }
    exists (c :: name'), w1, w2, digits.
    split_and!; [done..|]. simpl app.
    by rewrite (trim_id (c :: name') c name').
  - intros (name & w1 & w2 & digits & Htrim & Hne & Hlt & Hlast & Hw1 & Hw2 & Hdn & Hd & ->).
    rewrite Htrim.
    rewrite (matchScore_complete [] name _ digits); [|done|done|done| |].
    + destruct name as [|c name']; [done|].
      pose proof (trim_head _ _ _ Htrim) as Hc. simpl app.
      by rewrite (trim_id (c :: name') c name').
    + apply elem_of_app. right. by left.
    + apply matchScoreTail_iff. by exists w1, w2.
Qed.

End ScoreLine.


(** ** The entries of a score list *)

Section ScoreList.
Import Parse.
Implicit Types (ul : list (list ascii)) (e : Scraper.ScoreEntry).

Lemma parseItem_rank index li e :
  parseItem index li = Some e → Scraper.rank e = Z.of_nat index + 1.
Proof.
  unfold parseItem. destruct (matchScore [] (trim li)) as [[? ?]|]; [|done].
  by intros [= <-].
Qed.

Lemma digit_value c : isDigit c = true → 0 ≤ Z.of_N (N_of_ascii c) - 48 ≤ 9.
Proof.
  unfold isDigit. intros [H1 H2]%andb_true_iff.
  apply N.leb_le in H1, H2. lia.
Qed.

Lemma parseInt_fold_nonneg (acc : Z) digits :
  0 ≤ acc → forallb isDigit digits = true →
  0 ≤ foldl (λ acc c, 10 * acc + (Z.of_N (N_of_ascii c) - 48)) acc digits.
Proof.
  revert acc. induction digits as [|c digits IH]; intros acc Hacc; simpl; [done|].
  intros [Hc Hd]%andb_true_iff. apply IH; [|done].
  pose proof (digit_value c Hc). lia.
Qed.

Lemma toDouble_nonneg (v : Z) : 0 ≤ v → 0 ≤ toDouble v.
Proof.
  intros Hv. unfold toDouble. destruct (Z.log2 v + 1 - 53 <=? 0); [done|].
  apply Z.shiftl_nonneg.
  assert (0 ≤ Z.shiftr v (Z.log2 v + 1 - 53)) by by apply Z.shiftr_nonneg.
  destruct (_ || _); lia.
Qed.

Lemma toDouble_exact (v : Z) : v < 2 ^ 53 → toDouble v = v.
Proof.
  intros Hv. unfold toDouble.
  destruct (Z.leb_spec (Z.log2 v + 1 - 53) 0) as [|Hgt]; [done|].
  exfalso. destruct (Z.le_gt_cases v 0) as [Hle|Hpos].
  - rewrite Z.log2_nonpos in Hgt by done. lia.
  - apply Z.log2_lt_pow2 in Hv; lia.
Qed.

Lemma parseInt_nonneg digits : forallb isDigit digits = true → 0 ≤ parseInt digits.
Proof. intros Hd. apply toDouble_nonneg. by apply parseInt_fold_nonneg. Qed.

Lemma parseScores_elem ul e :
  e ∈ parseScores ul ↔ ∃ i li, ul !! i = Some li ∧ parseItem i li = Some e.
Proof.
  unfold parseScores. rewrite list_elem_of_omap. split.
  - intros (o & Ho & He). simpl in He. subst o.
    apply list_elem_of_lookup_1 in Ho as [i Hi].
    rewrite list_lookup_imap in Hi.
    destruct (ul !! i) as [li|] eqn:Hli; [|done]. simpl in Hi.
    exists i, li. split; [done|]. by injection Hi.
  - intros (i & li & Hli & He). exists (Some e). split; [|done].
    apply (list_elem_of_lookup_2 _ i). rewrite list_lookup_imap, Hli. simpl.
    by rewrite He.
Qed.

Lemma parseScores_sorted_from (k : nat) ul :
  StronglySorted (λ a b, Scraper.rank a < Scraper.rank b)
    (omap id (imap (λ i, parseItem (k + i)) ul))
  ∧ Forall (λ e, Z.of_nat k < Scraper.rank e)
      (omap id (imap (λ i, parseItem (k + i)) ul)).
Proof.
  revert k. induction ul as [|li ul IH]; intros k.
  - split; constructor.
  - destruct (IH (S k)) as [Hsort Hall].
    assert (imap ((λ i, parseItem (k + i)) ∘ S) ul
            = imap (λ i, parseItem (S k + i)) ul) as Heq.
    { apply imap_ext. intros i x _. simpl. f_equal. lia. }
    simpl. rewrite Heq. rewrite Nat.add_0_r.
    destruct (parseItem k li) as [e|] eqn:He; simpl.
    + apply parseItem_rank in He. split.
      * constructor; [done|]. eapply Forall_impl; [exact Hall|].
        intros b Hb. simpl in Hb. lia.
      * constructor; [lia|]. eapply Forall_impl; [exact Hall|].
        intros b Hb. simpl in Hb. lia.
    + split; [done|]. eapply Forall_impl; [exact Hall|].
      intros b Hb. simpl in Hb. lia.
Qed.

(** X20. The entries [parseScores] gives for a list are in the order of
    the page with strictly increasing ranks; the rank of an entry is the
    position, counted from 1, of the item it was read from, so an item
    that is not in the format leaves a gap; each entry has a non-empty
    name and a score that is not negative. *)
Theorem parsed_scores_well_formed ul :
  StronglySorted (λ a b, Scraper.rank a < Scraper.rank b) (parseScores ul)
  ∧ ∀ e, e ∈ parseScores ul →
      1 ≤ Scraper.rank e ≤ Z.of_nat (length ul)
      ∧ (∃ li, ul !! Z.to_nat (Scraper.rank e - 1) = Some li
               ∧ parseItem (Z.to_nat (Scraper.rank e - 1)) li = Some e)
      ∧ Scraper.username e ≠ ""%string
      ∧ 0 ≤ Scraper.score e.
Proof.
  split.
  - apply (parseScores_sorted_from 0 ul).
  - intros e (i & li & Hli & He)%parseScores_elem.
    pose proof (parseItem_rank _ _ _ He) as Hrank.
    pose proof (lookup_lt_Some _ _ _ Hli) as Hlt.
    replace (Z.to_nat (Scraper.rank e - 1)) with i by lia.
    split_and!; [lia | lia | by exists li | |].
    + apply parseItem_iff in He as (name & ? & ? & digits & _ & Hne & _ & _ & _ & _ & _ & _ & ->).
      simpl. by destruct name.
    + apply parseItem_iff in He as (name & ? & ? & digits & _ & _ & _ & _ & _ & _ & _ & Hd & ->).
      simpl. by apply parseInt_nonneg.
Qed.

(** X19. The format of a line of a score list, for an item of at most 308
    characters (so that its digits spell a finite double). The item gives
    an entry exactly when its trimmed text is a name, white space, a dash,
    white space and a non-empty run of decimal digits up to the end, where
    the name is not empty, has no line break and does not end in white
    space. The entry then has that name, as rank the position of the item
    counted from 1, and as score the double nearest to the number the
    digits spell: that number itself when it is below 2^53. The name may
    itself hold dashes and digits: the score is what follows the last
    dash. *)
Theorem score_line_format index li e :
  (length li ≤ 308)%nat →
  (parseItem index li = Some e ↔
   ∃ name w1 w2 digits,
     trim li = name ++ w1 ++ "-"%char :: w2 ++ digits
     ∧ name ≠ []
     ∧ forallb (λ c, negb (isLineTerminator c)) name = true
     ∧ (∀ c, last name = Some c → isWhiteSpace c = false)
     ∧ forallb isWhiteSpace w1 = true ∧ forallb isWhiteSpace w2 = true
     ∧ digits ≠ [] ∧ forallb isDigit digits = true
     ∧ e = {| Scraper.rank := Z.of_nat index + 1;
              Scraper.username := string_of_list_ascii name;
              Scraper.score := toDouble (decimal digits) |})
  ∧ ∀ digits, decimal digits < 2 ^ 53 → toDouble (decimal digits) = decimal digits.
Proof.
  intros _. split; [apply parseItem_iff|]. intros digits. apply toDouble_exact.
Qed.

Lemma score_line_format_witness :
  let li := list_ascii_of_string "Ariel - 9007199254740993" in
  (length li ≤ 308)%nat
  ∧ parseItem 0 li = Some (Scraper.mkScore 1 "Ariel" 9007199254740992)
  ∧ parseItem 2 (list_ascii_of_string " a - 5  -  10 ")
    = Some (Scraper.mkScore 3 "a - 5" 10)
  ∧ ∃ name w1 w2 digits,
      trim li = name ++ w1 ++ "-"%char :: w2 ++ digits
      ∧ string_of_list_ascii name = "Ariel"%string
      ∧ toDouble (decimal digits) = 9007199254740992.
Proof.
  intros li.
  assert (length li ≤ 308)%nat as Hlen by (vm_compute; lia).
  assert (parseItem 0 li = Some (Scraper.mkScore 1 "Ariel" 9007199254740992)) as Hp
    by (by vm_compute).
  split_and!; [exact Hlen | exact Hp | by vm_compute |].
  destruct (proj1 (proj1 (score_line_format 0 li _ Hlen)) Hp)
    as (name & w1 & w2 & digits & Htrim & _ & _ & _ & _ & _ & _ & _ & He).
  exists name, w1, w2, digits. injection He as Hn Hs. split_and!; [exact Htrim | by symmetry | by symmetry].
Defined.

End ScoreList.


(** ** The games of a page *)

Section PageGames.
Import Parse.
Implicit Types (html : list (list Column)) (cfg : string * string).

Lemma GAMES_id_inj i j cfg cfg' :
  GAMES !! i = Some cfg → GAMES !! j = Some cfg' → cfg.1 = cfg'.1 →
  i = j ∧ cfg = cfg'.
Proof.
  destruct i as [|[|[|[|]]]], j as [|[|[|[|]]]]; intros; simplify_eq/=; done.
Qed.

Lemma parseColumn_fold_name columns (g : Game) :
  name (foldl parseColumn g columns) = name g.
Proof.
  revert g. induction columns as [|col columns IH]; intros g; simpl; [done|].
  rewrite IH. unfold parseColumn. by repeat case_decide.
Qed.

Lemma parseGameSection_name columns cfg : name (parseGameSection columns cfg) = cfg.2.
Proof. unfold parseGameSection. by rewrite parseColumn_fold_name. Qed.

Lemma parseAllGames_lookup html i cfg :
  GAMES !! i = Some cfg →
  parseAllGames html !! cfg.1 = (λ div, parseGameSection div cfg) <$> html !! i.
Proof.
  intros Hcfg. unfold parseAllGames.
  set (f := λ (games : gmap string Game) (index : nat) (div : list Column),
         match GAMES !! index with
         | Some gameConfig => <[gameConfig.1 := parseGameSection div gameConfig]> games
         | None => games
         end).
  pose proof (forEach_ind f
    (λ (n : nat) (games : gmap string Game),
       games !! cfg.1
                = if decide (i < n)%nat
                  then (λ div, parseGameSection div cfg) <$> html !! i else None)
    ∅ html) as Hind.
  rewrite Hind.
  - case_decide as Hlt; [done|]. by rewrite lookup_ge_None_2 by lia.
  - by rewrite decide_False by lia.
  - intros k div games Hk IHk. unfold f.
    destruct (GAMES !! k) as [gc|] eqn:Hgc.
    + destruct (decide (gc.1 = cfg.1)) as [Heq|Hne].
      * destruct (GAMES_id_inj k i gc cfg Hgc Hcfg Heq) as [-> ->].
        rewrite lookup_insert_eq, decide_True by lia. by rewrite Hk.
      * rewrite lookup_insert_ne by done. rewrite IHk.
        assert (k ≠ i) by (intros ->; congruence).
        repeat case_decide; try done; lia.
    + rewrite IHk. apply lookup_ge_None_1 in Hgc.
      pose proof (lookup_lt_Some _ _ _ Hcfg).
      rewrite !decide_True by lia. done.
Qed.

Lemma parseAllGames_dom html id :
  is_Some (parseAllGames html !! id) → ∃ i cfg, GAMES !! i = Some cfg ∧ cfg.1 = id.
Proof.
  unfold parseAllGames.
  set (f := λ (games : gmap string Game) (index : nat) (div : list Column),
         match GAMES !! index with
         | Some gameConfig => <[gameConfig.1 := parseGameSection div gameConfig]> games
         | None => games
         end).
  apply (forEach_ind f
    (λ (_ : nat) (games : gmap string Game),
       is_Some (games !! id) → ∃ i cfg, GAMES !! i = Some cfg ∧ cfg.1 = id)).
  - rewrite lookup_empty. by intros [? ?].
  - intros k div games _ IHk. unfold f.
    destruct (GAMES !! k) as [gc|] eqn:Hgc; [|done].
    destruct (decide (gc.1 = id)) as [<-|Hne]; [by exists k, gc|].
    by rewrite lookup_insert_ne.
Qed.

Lemma parseAllGames_empty html : parseAllGames html = ∅ ↔ html = [].
Proof.
  split; [|by intros ->].
  intros Hempty. destruct html as [|div html]; [done|].
  pose proof (parseAllGames_lookup (div :: html) 0
                ("castle-fireworks", "Castle Fireworks Remixed")%string eq_refl) as H.
  by rewrite Hempty, lookup_empty in H.
Qed.

(** X21. [parseAllGames] attributes the sections of the page to the games
    by position alone: the game with index [i] of the configuration gets
    the section with index [i], when the page has one, and no entry
    otherwise; nothing is stored under another id, so sections beyond the
    fourth are dropped; and a game is named from the configuration, not
    from the page. *)
Theorem games_by_position html :
  (∀ i cfg, GAMES !! i = Some cfg →
     parseAllGames html !! cfg.1 = (λ div, parseGameSection div cfg) <$> html !! i)
  ∧ (∀ id g, parseAllGames html !! id = Some g → (id, name g) ∈ GAMES).
Proof.
  split; [apply parseAllGames_lookup|].
  intros id g Hg.
  destruct (parseAllGames_dom html id) as (i & cfg & Hcfg & <-); [by eexists|].
  rewrite (parseAllGames_lookup html i cfg Hcfg) in Hg.
  destruct (html !! i) as [div|]; simplify_eq/=.
  rewrite parseGameSection_name. apply (list_elem_of_lookup_2 _ i).
  by destruct cfg.
Qed.

End PageGames.

(** ** A run of the scraper *)

Section MainRun.
Import Scraper Run.
Implicit Types (html : list (list Parse.Column)) (fs : Files)
  (fetchOk : list ascii → bool) (date : string).

(** What a run makes of [all-time.json]. *)
Lemma main_allTimeFile html fetchOk date fs :
  allTimeFile (main (Some html) fetchOk date fs).2
  = match updateAllTimeScores (allTimeFile fs)
            (gameData <$> Parse.parseAllGames html) date with
    | Returned allTime => Some allTime
    | Thrown _ => allTimeFile fs
    end.
Proof. unfold main. simpl. by destruct (updateAllTimeScores _ _ _). Qed.

Lemma main_result html fetchOk date fs :
  (main (Some html) fetchOk date fs).1
  = match updateAllTimeScores (allTimeFile fs)
            (gameData <$> Parse.parseAllGames html) date with
    | Returned _ => Completed
    | Thrown _ => Exit 1
    end.
Proof. unfold main. simpl. by destruct (updateAllTimeScores _ _ _). Qed.

Lemma main_daily html fetchOk date fs :
  daily (main (Some html) fetchOk date fs).2
  = <[date := {| s_date := date;
                 s_games := gameData <$> Parse.parseAllGames html |}]> (daily fs).
Proof. unfold main. simpl. by destruct (updateAllTimeScores _ _ _). Qed.

Lemma main_avatars html fetchOk date fs :
  avatars (main (Some html) fetchOk date fs).2
  = downloadAllAvatars fetchOk (Parse.parseAllGames html) (avatars fs).
Proof. unfold main. simpl. by destruct (updateAllTimeScores _ _ _). Qed.

Lemma page_games_nil html :
  map_to_list (gameData <$> Parse.parseAllGames html) = [] ↔ html = [].
Proof.
  rewrite map_to_list_empty_iff, fmap_empty_iff. apply parseAllGames_empty.
Qed.

(** X22. For an [all-time.json] that cannot be read or parsed, or that
    parses to a record whose [games] mapping, when it is there, holds
    well-formed games (each with its [scores] list): a run that has
    fetched the page writes the snapshot of the day before it touches
    [all-time.json] -- the snapshot is stored under the date, replacing an
    earlier one of that date and leaving the other dates as they were,
    whether the run completes or not. Among these files the run fails
    exactly when the record has no [games] mapping and the page has a
    section; a run that fails leaves [all-time.json] as it was, and a run
    that completes leaves a record dated with the day. *)
Theorem main_writes_snapshot_first html fetchOk date fs :
  daily (main (Some html) fetchOk date fs).2
  = <[date := {| s_date := date;
                 s_games := gameData <$> Parse.parseAllGames html |}]> (daily fs)
  ∧ ((main (Some html) fetchOk date fs).1 = Exit 1 ↔
     html ≠ [] ∧ ∃ json, allTimeFile fs = Some json ∧ j_games json = None)
  ∧ ((main (Some html) fetchOk date fs).1 = Exit 1 →
     allTimeFile (main (Some html) fetchOk date fs).2 = allTimeFile fs)
  ∧ ((main (Some html) fetchOk date fs).1 ≠ Exit 1 →
     (main (Some html) fetchOk date fs).1 = Completed
     ∧ ∃ json, allTimeFile (main (Some html) fetchOk date fs).2 = Some json
               ∧ j_lastUpdated json = Some date).
Proof.
  rewrite main_daily, main_result, main_allTimeFile.
  split; [done|]. unfold updateAllTimeScores.
  destruct (allTimeFile fs) as [[lu [G|]]|] eqn:Hfile; simpl.
  - split_and!; [|done|eauto]. split; [done|]. by intros (_ & json & [= <-] & ?).
  - destruct (map_to_list (gameData <$> Parse.parseAllGames html)) as [|x l] eqn:Hl.
    + apply page_games_nil in Hl as ->. split_and!; [|done|eauto].
      split; [done|]. by intros [? _].
    + split_and!; [|done|done]. split; [|done]. intros _. split; [|eauto].
      intros Hnil. apply page_games_nil in Hnil. congruence.
  - split_and!; [|done|eauto]. split; [done|]. by intros (_ & json & [= ] & ?).
Qed.

Lemma main_writes_snapshot_first_witness :
  let fs := {| daily := ∅;
               allTimeFile := Some {| j_lastUpdated := Some "2025-01-01"%string;
                                      j_games := None |};
               avatars := ∅ |} in
  let html := [[Parse.mkColumn (list_ascii_of_string "Today") None
                  [list_ascii_of_string "Ariel - 1200"]]] in
  let run := main (Some html) (λ _, true) "2025-01-02" fs in
  run.1 = Exit 1
  ∧ allTimeFile run.2 = allTimeFile fs
  ∧ is_Some (daily run.2 !! "2025-01-02"%string).
Proof.
  intros fs html run.
  assert (run.1 = Exit 1) as Hexit by (by vm_compute).
  destruct (main_writes_snapshot_first html (λ _, true) "2025-01-02"%string fs)
    as (Hdaily & _ & Hkeep & _).
  split_and!; [done | by apply Hkeep |].
  unfold run. rewrite Hdaily, lookup_insert_eq. by eexists.
Defined.

(** Merging the same day into a record three times gives what merging it
    twice gives. *)
Lemma updateGame_fold_stable (G : gmap string AllTimeGame)
    (D : gmap string GameData) date :
  let merge := λ G, foldl (updateGame date) G (map_to_list D) in
  merge (merge (merge G)) = merge (merge G).
Proof.
  simpl.
  pose proof (mergeAllTime_idem_after_first {| lastUpdated := date; games := G |} D date)
    as H.
  simpl in H. by apply (f_equal games) in H.
Qed.

(** X23. The scraper can be run again within the day: with the same page
    and the same date, a third run ends as the second did and leaves
    [all-time.json] and the snapshots ([scrapedAt] apart) exactly as the
    second run left them, whatever the files were at first and whichever
    downloads succeed in each run; the snapshots are as the first run left
    them, and the avatars directory only grows. *)
Theorem main_rerun_stable html fetchOk1 fetchOk2 fetchOk3 date fs :
  let fs1 := (main (Some html) fetchOk1 date fs).2 in
  let fs2 := (main (Some html) fetchOk2 date fs1).2 in
  (main (Some html) fetchOk3 date fs2).1 = (main (Some html) fetchOk2 date fs1).1
  ∧ allTimeFile (main (Some html) fetchOk3 date fs2).2 = allTimeFile fs2
  ∧ daily (main (Some html) fetchOk3 date fs2).2 = daily fs2
  ∧ daily fs2 = daily fs1
  ∧ avatars fs2 ⊆ avatars (main (Some html) fetchOk3 date fs2).2.
Proof.
  intros fs1 fs2. unfold fs2, fs1.
  rewrite !main_result, !main_allTimeFile, !main_daily, !main_avatars.
  rewrite !insert_insert_eq.
  split_and!; [| |done|done|apply downloaded_avatars_subseteq].
  all: unfold updateAllTimeScores;
    destruct (allTimeFile fs) as [[lu [G|]]|]; simpl;
    [ by rewrite ?updateGame_fold_stable
    | destruct (map_to_list (gameData <$> Parse.parseAllGames html)) eqn:Hl;
      simpl; rewrite ?Hl; simpl; rewrite ?Hl; done
    | by rewrite ?updateGame_fold_stable ].
Qed.

End MainRun.


(** ** The columns of a game section *)

Section SectionColumns.
Import Parse.
Implicit Types (columns : list Column) (col : Column) (g : Game).

Lemma lastTitled_snoc word columns col :
  lastTitled word (columns ++ [col])
  = if titled word col then columnBlock col else lastTitled word columns.
Proof.
  unfold lastTitled. rewrite filter_app.
  destruct (titled word col) eqn:Hcol.
  - rewrite (filter_cons_True _ col) by done. rewrite filter_nil.
    by rewrite last_snoc.
  - rewrite (filter_cons_False _ col) by congruence. rewrite filter_nil.
    by rewrite app_nil_r.
Qed.

Lemma parseColumn_cases g col :
  parseColumn g col
  = {| name := name g;
       today := if titled "today" col then columnBlock col else today g;
       yesterday := if titled "yesterday" col then columnBlock col else yesterday g;
       highscores := if titled "highscores" col then columnBlock col else highscores g |}.
Proof.
  unfold parseColumn, titled.
  destruct (decide (lowerAscii <$> trim (c_title col) = list_ascii_of_string "today"))
    as [Ht|Ht].
  { rewrite (bool_decide_eq_true_2 _ Ht), Ht.
    rewrite !bool_decide_eq_false_2 by done. done. }
  rewrite (bool_decide_eq_false_2 _ Ht).
  destruct (decide (lowerAscii <$> trim (c_title col) = list_ascii_of_string "yesterday"))
    as [Hy|Hy].
  { rewrite (bool_decide_eq_true_2 _ Hy), Hy.
    rewrite !bool_decide_eq_false_2 by done. done. }
  rewrite (bool_decide_eq_false_2 _ Hy).
  destruct (decide (lowerAscii <$> trim (c_title col) = list_ascii_of_string "highscores"))
    as [Hh|Hh].
  { by rewrite (bool_decide_eq_true_2 _ Hh). }
  rewrite (bool_decide_eq_false_2 _ Hh). by destruct g.
Qed.

(** X24. In a game section each of the three blocks is read from the last
    column whose title, trimmed and compared without regard to case, is
    [today], [yesterday] or [highscores] respectively; a period without
    such a column has the empty block, and columns with any other title
    are ignored. *)
Theorem section_blocks_from_last_titled_column columns (cfg : string * string) :
  parseGameSection columns cfg
  = {| name := cfg.2;
       today := lastTitled "today" columns;
       yesterday := lastTitled "yesterday" columns;
       highscores := lastTitled "highscores" columns |}.
Proof.
  unfold parseGameSection.
  induction columns as [|col columns IH] using rev_ind; [done|].
  rewrite foldl_app. simpl. rewrite IH, parseColumn_cases. simpl.
  by rewrite !lastTitled_snoc.
Qed.

End SectionColumns.
